(** * SenseAudio composition engine: a shallow embedding of [MusicBrain]

    The development follows [src/js/MusicBrain.js] (class [MusicBrain]) and the
    structure wizard of the application script that drives it.  JavaScript
    numbers that hold step counts, bar counts and MIDI pitches are integers
    and are modelled in [Z]; fractional quantities (the values returned by
    [Math.random], beat fractions, velocities) are rationals in [Q].  Where
    the code computes with fractions that a double does not hold exactly (a
    percentage, a velocity, a sum of weights), the model rounds as the
    double-precision arithmetic of JavaScript does ([double]).  Objects used
    as dictionaries are finite maps keyed by strings, looked up with
    [js_get] where the code can be given a key that every object inherits;
    a [Set] of numbers is a finite set of integers. *)

From Stdlib Require Import ZArith QArith Qround Qabs Qpower Lia Lqa.
From stdpp Require Import gmap strings list fin_maps sorting.

Local Open Scope string_scope.
Local Open Scope list_scope.
Local Open Scope Z_scope.

(** ** JavaScript idioms *)

(** [a % b] on integers: the remainder takes the sign of the dividend. *)
Definition js_rem (a b : Z) : Z := Z.rem a b.
Infix "%%" := js_rem (at level 40, left associativity).

(** [arr[i]] with a numeric index: [undefined] outside the array. *)
Definition js_index {A : Type} (arr : list A) (i : Z) : option A :=
  if bool_decide (0 ≤ i) then arr !! Z.to_nat i else None.

(** [Math.floor] of a rational. *)
Definition Math_floor (q : Q) : Z := Qfloor q.

(** [Math.round] rounds half-way cases towards plus infinity. *)
Definition Math_round (q : Q) : Z := Qfloor (q + (1 # 2))%Q.

(** *** Keys that every object inherits

    An object literal inherits the properties of [Object.prototype].  Under
    one of these names [obj[key]] is a function (for ['__proto__'] the
    prototype object) although the literal does not list the key: the value
    is truthy, so [obj[key] || fallback] does not reach the fallback. *)
Definition inheritedKeys : list string :=
  [ "constructor"; "hasOwnProperty"; "isPrototypeOf"; "propertyIsEnumerable";
    "toLocaleString"; "toString"; "valueOf"; "__proto__";
    "__defineGetter__"; "__defineSetter__"; "__lookupGetter__"; "__lookupSetter__" ].

Definition inheritedKey (key : string) : bool := bool_decide (key ∈ inheritedKeys).

(** What [obj[key]] finds on an object literal whose own entries are [obj]. *)
Inductive Property (A : Type) : Type :=
| Own (a : A)
| Inherited
| Absent.
Arguments Own {A} a.
Arguments Inherited {A}.
Arguments Absent {A}.

Definition js_get {A : Type} (obj : gmap string A) (key : string) : Property A :=
  match obj !! key with
  | Some a => Own a
  | None => if inheritedKey key then Inherited else Absent
  end.

(** *** Double-precision arithmetic

    A JavaScript number is an IEEE 754 double.  [double q] is the double
    nearest to [q], ties going to the even significand, for a magnitude
    in the normal range (from [2^-1022] to below [2^1024]), which holds every
    number of this development.  A double is kept as the rational it is. *)
Definition roundHalfEven (q : Q) : Z :=
  let f := Qfloor q in
  match (q - inject_Z f ?= 1 # 2)%Q with
  | Lt => f
  | Gt => f + 1
  | Eq => if Z.even f then f else f + 1
  end.

(** The exponent [e] with [2^e <= |q| < 2^(e+1)], for [q] other than 0. *)
Definition binade (q : Q) : Z :=
  let e := Z.log2 (Z.abs (Qnum q)) - Z.log2 (Zpos (Qden q)) in
  if Qle_bool (2 ^ e) (Qabs q) then e else e - 1.

Definition double (q : Q) : Q :=
  if Qeq_bool q 0 then 0%Q
  else
    let ulp := (2 ^ (binade q - 52))%Q in
    Qred (inject_Z (roundHalfEven (q / ulp)) * ulp).

(** [a + b], [a - b], [a * b] and [a / b] on numbers: the operands are
    doubles (a decimal of the source stands for the double nearest to it)
    and the exact result is rounded to a double. *)
Definition js_add (a b : Q) : Q := double (double a + double b).
Definition js_sub (a b : Q) : Q := double (double a - double b).
Definition js_mul (a b : Q) : Q := double (double a * double b).
Definition js_div (a b : Q) : Q := double (double a / double b).

(** ** Data model *)

(** An entry of [this.chordDegrees[scale]]; the free-text [vibe] tag is
    display-only and is not kept. *)
Record ChordDef := {
  name : string;
  type : string;
  intervals : list Z;
  func : string
}.

Record VocalRange := { min : Z; max : Z }.

(** One run of a song template: [{ type, len }]. *)
Record Part := part { part_type : string; len : Z }.

(** An entry of [this.songTemplates]; [label] and [desc] are display-only. *)
Record SongTemplate := {
  genre : string;
  bpm : Z;
  structure : list Part
}.

(** An entry of [this.progressionStyles[genre]]: one "vibe". *)
Record ProgressionStyle := {
  style_name : string;
  preferredScale : string;
  sections : gmap string (list Z)
}.

(** An entry of [this.arpStyles[genre]]; [null] in a pattern is a rest. *)
Record ArpStyle := {
  pattern : list (option Z);
  rate : Z;
  gate : Q
}.

(** The three 16-step rows of a genre in [getDrumPattern]. *)
Record DrumTable := {
  kick : list Z;
  snare : list Z;
  hat : list Z
}.

(** ** Theory tables (the constructor of [MusicBrain]) *)

(** [this.scales]: scale name to pitch-class offsets from the root. *)
Definition scale_Major : list Z := [0; 2; 4; 5; 7; 9; 11].
Definition scale_Minor : list Z := [0; 2; 3; 5; 7; 8; 10].
Definition scale_HarmonicMinor : list Z := [0; 2; 3; 5; 7; 8; 11].
Definition scale_Dorian : list Z := [0; 2; 3; 5; 7; 9; 10].
Definition scale_Mixolydian : list Z := [0; 2; 4; 5; 7; 9; 10].
Definition scale_Blues : list Z := [0; 3; 5; 6; 7; 10].
Definition scale_PentatonicMajor : list Z := [0; 2; 4; 7; 9].
Definition scale_PentatonicMinor : list Z := [0; 3; 5; 7; 10].
Definition scales : gmap string (list Z) :=
  list_to_map
    [ ("Major", scale_Major);
      ("Minor", scale_Minor);
      ("HarmonicMinor", scale_HarmonicMinor);
      ("Dorian", scale_Dorian);
      ("Mixolydian", scale_Mixolydian);
      ("Blues", scale_Blues);
      ("PentatonicMajor", scale_PentatonicMajor);
      ("PentatonicMinor", scale_PentatonicMinor) ].

Definition chords_Major : list ChordDef :=
  [ {| name := "I"; type := "Major"; intervals := [0; 4; 7]; func := "TONIC" |};
    {| name := "ii"; type := "Minor"; intervals := [2; 5; 9]; func := "SUPERTONIC" |};
    {| name := "iii"; type := "Minor"; intervals := [4; 7; 11]; func := "MEDIANT" |};
    {| name := "IV"; type := "Major"; intervals := [5; 9; 0]; func := "SUBDOMINANT" |};
    {| name := "V"; type := "Major"; intervals := [7; 11; 2]; func := "DOMINANT" |};
    {| name := "vi"; type := "Minor"; intervals := [9; 0; 4]; func := "SUBMEDIANT" |};
    {| name := "vii¬∞"; type := "Dim"; intervals := [11; 2; 5]; func := "LEADING" |} ].
Definition chords_Minor : list ChordDef :=
  [ {| name := "i"; type := "Minor"; intervals := [0; 3; 7]; func := "TONIC" |};
    {| name := "ii¬∞"; type := "Dim"; intervals := [2; 5; 8]; func := "SUPERTONIC" |};
    {| name := "III"; type := "Major"; intervals := [3; 7; 10]; func := "MEDIANT" |};
    {| name := "iv"; type := "Minor"; intervals := [5; 8; 0]; func := "SUBDOMINANT" |};
    {| name := "v"; type := "Minor"; intervals := [7; 10; 2]; func := "DOMINANT" |};
    {| name := "VI"; type := "Major"; intervals := [8; 0; 3]; func := "SUBMEDIANT" |};
    {| name := "VII"; type := "Major"; intervals := [10; 2; 5]; func := "SUBTONIC" |} ].
Definition chords_HarmonicMinor : list ChordDef :=
  [ {| name := "i"; type := "Minor"; intervals := [0; 3; 7]; func := "TONIC" |};
    {| name := "ii¬∞"; type := "Dim"; intervals := [2; 5; 8]; func := "SUPERTONIC" |};
    {| name := "III+"; type := "Aug"; intervals := [3; 7; 11]; func := "MEDIANT" |};
    {| name := "iv"; type := "Minor"; intervals := [5; 8; 0]; func := "SUBDOMINANT" |};
    {| name := "V"; type := "Major"; intervals := [7; 11; 2]; func := "DOMINANT" |};
    {| name := "VI"; type := "Major"; intervals := [8; 0; 3]; func := "SUBMEDIANT" |};
    {| name := "vii¬∞"; type := "Dim"; intervals := [11; 2; 5]; func := "LEADING" |} ].
Definition chords_Dorian : list ChordDef :=
  [ {| name := "i"; type := "Minor"; intervals := [0; 3; 7]; func := "TONIC" |};
    {| name := "ii"; type := "Minor"; intervals := [2; 5; 9]; func := "SUPERTONIC" |};
    {| name := "III"; type := "Major"; intervals := [3; 7; 10]; func := "MEDIANT" |};
    {| name := "IV"; type := "Major"; intervals := [5; 9; 0]; func := "SUBDOMINANT" |};
    {| name := "v"; type := "Minor"; intervals := [7; 10; 2]; func := "DOMINANT" |};
    {| name := "vi¬∞"; type := "Dim"; intervals := [9; 0; 3]; func := "SUBMEDIANT" |};
    {| name := "VII"; type := "Major"; intervals := [10; 2; 5]; func := "SUBTONIC" |} ].
Definition chords_Mixolydian : list ChordDef :=
  [ {| name := "I"; type := "Major"; intervals := [0; 4; 7]; func := "TONIC" |};
    {| name := "ii"; type := "Minor"; intervals := [2; 5; 9]; func := "SUPERTONIC" |};
    {| name := "iii¬∞"; type := "Dim"; intervals := [4; 7; 10]; func := "MEDIANT" |};
    {| name := "IV"; type := "Major"; intervals := [5; 9; 0]; func := "SUBDOMINANT" |};
    {| name := "v"; type := "Minor"; intervals := [7; 10; 2]; func := "DOMINANT" |};
    {| name := "vi"; type := "Minor"; intervals := [9; 0; 4]; func := "SUBMEDIANT" |};
    {| name := "bVII"; type := "Major"; intervals := [10; 2; 5]; func := "SUBTONIC" |} ].
Definition chords_Blues : list ChordDef :=
  [ {| name := "I7"; type := "Dom7"; intervals := [0; 4; 7]; func := "TONIC" |};
    {| name := "IV7"; type := "Dom7"; intervals := [5; 9; 0]; func := "SUBDOMINANT" |};
    {| name := "V7"; type := "Dom7"; intervals := [7; 11; 2]; func := "DOMINANT" |};
    {| name := "I"; type := "Major"; intervals := [0; 4; 7]; func := "TONIC" |};
    {| name := "bVII"; type := "Major"; intervals := [10; 2; 5]; func := "SUBTONIC" |} ].
Definition chords_PentatonicMajor : list ChordDef :=
  [ {| name := "I"; type := "Major"; intervals := [0; 4; 7]; func := "TONIC" |};
    {| name := "ii"; type := "Minor"; intervals := [2; 5; 9]; func := "SUPERTONIC" |};
    {| name := "iii"; type := "Minor"; intervals := [4; 7; 11]; func := "MEDIANT" |};
    {| name := "V"; type := "Major"; intervals := [7; 11; 2]; func := "DOMINANT" |};
    {| name := "vi"; type := "Minor"; intervals := [9; 0; 4]; func := "SUBMEDIANT" |} ].
Definition chords_PentatonicMinor : list ChordDef :=
  [ {| name := "i"; type := "Minor"; intervals := [0; 3; 7]; func := "TONIC" |};
    {| name := "III"; type := "Major"; intervals := [3; 7; 10]; func := "MEDIANT" |};
    {| name := "iv"; type := "Minor"; intervals := [5; 8; 0]; func := "SUBDOMINANT" |};
    {| name := "v"; type := "Minor"; intervals := [7; 10; 2]; func := "DOMINANT" |};
    {| name := "VII"; type := "Major"; intervals := [10; 2; 5]; func := "SUBTONIC" |} ].
Definition chordDegrees : gmap string (list ChordDef) :=
  list_to_map
    [ ("Major", chords_Major);
      ("Minor", chords_Minor);
      ("HarmonicMinor", chords_HarmonicMinor);
      ("Dorian", chords_Dorian);
      ("Mixolydian", chords_Mixolydian);
      ("Blues", chords_Blues);
      ("PentatonicMajor", chords_PentatonicMajor);
      ("PentatonicMinor", chords_PentatonicMinor) ].

Definition vocalRanges : gmap string VocalRange :=
  list_to_map
    [ ("NONE", {| min := 0; max := 127 |});
      ("SOPRANO", {| min := 60; max := 84 |});
      ("MEZZO", {| min := 57; max := 81 |});
      ("ALTO", {| min := 53; max := 77 |});
      ("TENOR", {| min := 48; max := 72 |});
      ("BARITONE", {| min := 41; max := 64 |});
      ("BASS", {| min := 36; max := 60 |}) ].

Definition template_POP_RADIO : SongTemplate :=
  {| genre := "POP"; bpm := 120;
     structure := [part "INTRO" 4; part "VERSE" 8; part "PRE_CHORUS" 4; part "CHORUS" 8; part "VERSE" 8; part "PRE_CHORUS" 4; part "CHORUS" 8; part "BRIDGE" 8; part "CHORUS" 16; part "OUTRO" 4] |}.
Definition template_POP_SHORT : SongTemplate :=
  {| genre := "POP"; bpm := 124;
     structure := [part "INTRO" 4; part "VERSE" 8; part "CHORUS" 8; part "VERSE" 8; part "CHORUS" 8; part "OUTRO" 4] |}.
Definition template_POP_EPIC : SongTemplate :=
  {| genre := "POP"; bpm := 75;
     structure := [part "INTRO" 4; part "VERSE" 8; part "PRE_CHORUS" 4; part "CHORUS" 8; part "VERSE" 8; part "PRE_CHORUS" 4; part "CHORUS" 8; part "SOLO" 8; part "BRIDGE" 8; part "CHORUS" 16; part "OUTRO" 8] |}.
Definition template_TRAP : SongTemplate :=
  {| genre := "HIPHOP"; bpm := 140;
     structure := [part "INTRO" 4; part "CHORUS" 8; part "VERSE" 16; part "CHORUS" 8; part "VERSE" 16; part "CHORUS" 8; part "OUTRO" 4] |}.
Definition template_BOOMBAP : SongTemplate :=
  {| genre := "HIPHOP"; bpm := 90;
     structure := [part "INTRO" 4; part "VERSE" 16; part "CHORUS" 4; part "VERSE" 16; part "CHORUS" 4; part "VERSE" 16; part "OUTRO" 8] |}.
Definition template_EDM_RADIO : SongTemplate :=
  {| genre := "EDM"; bpm := 128;
     structure := [part "INTRO" 8; part "VERSE" 8; part "PRE_CHORUS" 8; part "CHORUS" 8; part "VERSE" 8; part "PRE_CHORUS" 8; part "CHORUS" 16; part "OUTRO" 8] |}.
Definition template_EDM_CLUB : SongTemplate :=
  {| genre := "EDM"; bpm := 128;
     structure := [part "INTRO" 16; part "VERSE" 16; part "PRE_CHORUS" 8; part "CHORUS" 16; part "BRIDGE" 8; part "PRE_CHORUS" 8; part "CHORUS" 16; part "OUTRO" 16] |}.
Definition template_ROCK_CLASSIC : SongTemplate :=
  {| genre := "ROCK"; bpm := 110;
     structure := [part "INTRO" 4; part "VERSE" 8; part "CHORUS" 8; part "VERSE" 8; part "CHORUS" 8; part "SOLO" 8; part "CHORUS" 16; part "OUTRO" 4] |}.
Definition template_PUNK_ROCK : SongTemplate :=
  {| genre := "ROCK"; bpm := 160;
     structure := [part "INTRO" 4; part "VERSE" 8; part "CHORUS" 8; part "VERSE" 8; part "CHORUS" 8; part "OUTRO" 4] |}.
Definition template_LOFI_BEAT : SongTemplate :=
  {| genre := "LOFI"; bpm := 80;
     structure := [part "INTRO" 4; part "VERSE" 16; part "BRIDGE" 4; part "VERSE" 16; part "OUTRO" 8] |}.
Definition template_REGGAETON : SongTemplate :=
  {| genre := "LATIN"; bpm := 95;
     structure := [part "INTRO" 4; part "CHORUS" 8; part "VERSE" 16; part "CHORUS" 8; part "VERSE" 16; part "CHORUS" 8; part "OUTRO" 4] |}.
Definition template_PERSIAN_SLOW_6_8 : SongTemplate :=
  {| genre := "PERSIAN"; bpm := 85;
     structure := [part "INTRO" 4; part "VERSE" 8; part "PRE_CHORUS" 4; part "CHORUS" 8; part "SOLO" 8; part "VERSE" 8; part "CHORUS" 16; part "OUTRO" 8] |}.
Definition template_PERSIAN_POP_NOSTALGIA : SongTemplate :=
  {| genre := "PERSIAN"; bpm := 105;
     structure := [part "INTRO" 8; part "VERSE" 8; part "CHORUS" 8; part "VERSE" 8; part "CHORUS" 8; part "BRIDGE" 8; part "CHORUS" 16; part "OUTRO" 8] |}.
Definition songTemplates : gmap string SongTemplate :=
  list_to_map
    [ ("POP_RADIO", template_POP_RADIO);
      ("POP_SHORT", template_POP_SHORT);
      ("POP_EPIC", template_POP_EPIC);
      ("TRAP", template_TRAP);
      ("BOOMBAP", template_BOOMBAP);
      ("EDM_RADIO", template_EDM_RADIO);
      ("EDM_CLUB", template_EDM_CLUB);
      ("ROCK_CLASSIC", template_ROCK_CLASSIC);
      ("PUNK_ROCK", template_PUNK_ROCK);
      ("LOFI_BEAT", template_LOFI_BEAT);
      ("REGGAETON", template_REGGAETON);
      ("PERSIAN_SLOW_6_8", template_PERSIAN_SLOW_6_8);
      ("PERSIAN_POP_NOSTALGIA", template_PERSIAN_POP_NOSTALGIA) ].

Definition styles_POP : list ProgressionStyle :=
  [ {| style_name := "The Axis of Awesome"; preferredScale := "Major";
       sections := list_to_map [("INTRO", [0]); ("VERSE", [0; 4]); ("PRE_CHORUS", [5; 3]); ("CHORUS", [0; 4; 5; 3]); ("BRIDGE", [3; 4; 3; 4]); ("SOLO", [0; 4; 5; 3]); ("OUTRO", [0])] |};
    {| style_name := "Emotional Ballad"; preferredScale := "Major";
       sections := list_to_map [("INTRO", [5; 3]); ("VERSE", [5; 3]); ("PRE_CHORUS", [1; 4]); ("CHORUS", [5; 3; 0; 4]); ("BRIDGE", [2; 5; 1; 4]); ("SOLO", [5; 3; 0; 4]); ("OUTRO", [3; 0])] |};
    {| style_name := "Doo-Wop / 50s"; preferredScale := "Major";
       sections := list_to_map [("INTRO", [0; 5; 3; 4]); ("VERSE", [0; 5; 3; 4]); ("PRE_CHORUS", [3; 4]); ("CHORUS", [0; 5; 3; 4]); ("BRIDGE", [1; 4; 0; 4]); ("SOLO", [0; 5; 3; 4]); ("OUTRO", [0; 3; 0])] |};
    {| style_name := "Royal Road (Anime/Epic)"; preferredScale := "Major";
       sections := list_to_map [("INTRO", [3; 4; 2; 5]); ("VERSE", [0; 4; 5; 0]); ("PRE_CHORUS", [3; 4]); ("CHORUS", [3; 4; 2; 5]); ("BRIDGE", [1; 4; 3; 4]); ("SOLO", [3; 4; 2; 5]); ("OUTRO", [3; 4; 0])] |};
    {| style_name := "Dreamy / Psychedelic"; preferredScale := "Major";
       sections := list_to_map [("INTRO", [0; 3]); ("VERSE", [0; 3]); ("PRE_CHORUS", [1; 4]); ("CHORUS", [0; 3; 0; 3]); ("BRIDGE", [5; 2; 3; 4]); ("SOLO", [0; 3]); ("OUTRO", [0])] |};
    {| style_name := "80s Synth-Pop Revival"; preferredScale := "Major";
       sections := list_to_map [("INTRO", [5; 5; 3; 3]); ("VERSE", [5; 0; 4; 3]); ("PRE_CHORUS", [1; 4]); ("CHORUS", [5; 3; 0; 4]); ("BRIDGE", [3; 4; 3; 4]); ("SOLO", [5; 3; 0; 4]); ("OUTRO", [5])] |};
    {| style_name := "Gen-Z Alternative"; preferredScale := "Minor";
       sections := list_to_map [("INTRO", [5]); ("VERSE", [5; 3]); ("PRE_CHORUS", [0; 4]); ("CHORUS", [5; 2; 3; 4]); ("BRIDGE", [1; 6; 5]); ("OUTRO", [5])] |} ].
Definition styles_EDM : list ProgressionStyle :=
  [ {| style_name := "Festival Anthem"; preferredScale := "Minor";
       sections := list_to_map [("INTRO", [5]); ("VERSE", [5; 2]); ("PRE_CHORUS", [3; 4]); ("CHORUS", [5; 3; 0; 4]); ("DROP", [5; 3; 0; 4]); ("BRIDGE", [1; 4]); ("OUTRO", [5; 0])] |};
    {| style_name := "Summer Vibes"; preferredScale := "Major";
       sections := list_to_map [("INTRO", [3; 0]); ("VERSE", [3; 0]); ("PRE_CHORUS", [1; 4]); ("CHORUS", [3; 0; 4; 5]); ("DROP", [3; 0; 4; 5]); ("BRIDGE", [1; 3; 4]); ("OUTRO", [3; 3; 0])] |} ].
Definition styles_HIPHOP : list ProgressionStyle :=
  [ {| style_name := "Dark Trap"; preferredScale := "Phrygian";
       sections := list_to_map [("INTRO", [0; 1]); ("VERSE", [0; 1]); ("PRE_CHORUS", [3; 4]); ("CHORUS", [0; 2; 0; 1]); ("BRIDGE", [3; 4]); ("OUTRO", [0])] |};
    {| style_name := "Melodic / Emo Rap"; preferredScale := "Minor";
       sections := list_to_map [("INTRO", [5; 4]); ("VERSE", [5; 4]); ("PRE_CHORUS", [3; 4]); ("CHORUS", [3; 4; 5; 5]); ("BRIDGE", [1; 4]); ("OUTRO", [5])] |} ].
Definition styles_ROCK : list ProgressionStyle :=
  [ {| style_name := "Arena Rock"; preferredScale := "Mixolydian";
       sections := list_to_map [("INTRO", [0; 6; 3]); ("VERSE", [0; 3]); ("PRE_CHORUS", [5; 4]); ("CHORUS", [0; 6; 3; 4]); ("SOLO", [0; 6; 3]); ("BRIDGE", [1; 4]); ("OUTRO", [0; 0; 0])] |};
    {| style_name := "Alternative / Grunge"; preferredScale := "Minor";
       sections := list_to_map [("INTRO", [5; 2]); ("VERSE", [5; 2]); ("PRE_CHORUS", [3; 4]); ("CHORUS", [5; 0; 4; 4]); ("SOLO", [5; 0; 4]); ("OUTRO", [5])] |} ].
Definition styles_LOFI : list ProgressionStyle :=
  [ {| style_name := "Jazz Hop (2-5-1)"; preferredScale := "Dorian";
       sections := list_to_map [("INTRO", [1; 4]); ("VERSE", [1; 4; 0; 5]); ("PRE_CHORUS", [3; 6]); ("CHORUS", [1; 4; 0; 0]); ("BRIDGE", [3; 4]); ("SOLO", [1; 4; 0]); ("OUTRO", [0])] |};
    {| style_name := "Nostalgic Drift"; preferredScale := "Major";
       sections := list_to_map [("INTRO", [3]); ("VERSE", [3; 2]); ("PRE_CHORUS", [1; 4]); ("CHORUS", [3; 2; 1; 4]); ("BRIDGE", [5; 4]); ("OUTRO", [0])] |} ].
Definition styles_LATIN : list ProgressionStyle :=
  [ {| style_name := "Despacito Vibe"; preferredScale := "Major";
       sections := list_to_map [("INTRO", [5; 3]); ("VERSE", [5; 3]); ("PRE_CHORUS", [0; 4]); ("CHORUS", [5; 3; 0; 4]); ("BRIDGE", [1; 4]); ("SOLO", [5; 3; 0; 4]); ("OUTRO", [5])] |};
    {| style_name := "Party Starter"; preferredScale := "Minor";
       sections := list_to_map [("INTRO", [1; 4]); ("VERSE", [1; 4]); ("PRE_CHORUS", [3; 4]); ("CHORUS", [1; 4; 5; 5]); ("SOLO", [1; 4; 5]); ("OUTRO", [1])] |} ].
Definition styles_PERSIAN : list ProgressionStyle :=
  [ {| style_name := "Ghomayshi Vibe (Andalusian)"; preferredScale := "HarmonicMinor";
       sections := list_to_map [("INTRO", [4; 4; 0; 0]); ("VERSE", [0; 6; 5; 4]); ("PRE_CHORUS", [3; 0; 3; 4]); ("CHORUS", [0; 6; 5; 4]); ("BRIDGE", [5; 6; 3; 4]); ("SOLO", [0; 6; 5; 4]); ("OUTRO", [4; 0])] |};
    {| style_name := "6/8 Persian Ballad"; preferredScale := "HarmonicMinor";
       sections := list_to_map [("INTRO", [0; 3]); ("VERSE", [0; 3; 4; 0]); ("PRE_CHORUS", [3; 0; 4; 4]); ("CHORUS", [2; 5; 3; 4]); ("BRIDGE", [1; 4]); ("OUTRO", [0])] |} ].
Definition progressionStyles : gmap string (list ProgressionStyle) :=
  list_to_map
    [ ("POP", styles_POP);
      ("EDM", styles_EDM);
      ("HIPHOP", styles_HIPHOP);
      ("ROCK", styles_ROCK);
      ("LOFI", styles_LOFI);
      ("LATIN", styles_LATIN);
      ("PERSIAN", styles_PERSIAN) ].

Definition arp_POP : gmap string ArpStyle :=
  list_to_map
    [ ("VERSE", {| pattern := [Some 0; Some 2]; rate := 2; gate := 0.6%Q |});
      ("CHORUS", {| pattern := [Some 0; Some 1; Some 2; Some 3; Some 2; Some 1]; rate := 1; gate := 0.9%Q |});
      ("BRIDGE", {| pattern := [Some 0; Some 3; Some 1; Some 2]; rate := 2; gate := 1.1%Q |}) ].
Definition arp_EDM : gmap string ArpStyle :=
  list_to_map
    [ ("VERSE", {| pattern := [Some 0; None; Some 0; None]; rate := 1; gate := 0.4%Q |});
      ("CHORUS", {| pattern := [Some 0; Some 2; Some 3; Some 2]; rate := 1; gate := 0.8%Q |});
      ("BUILDUP", {| pattern := [Some 0; Some 0; Some 0; Some 0; Some 1; Some 1; Some 1; Some 1]; rate := 1; gate := 0.5%Q |}) ].
Definition arp_ROCK : gmap string ArpStyle :=
  list_to_map
    [ ("VERSE", {| pattern := [Some 0; Some 1; Some 2; Some 1]; rate := 2; gate := 1.5%Q |});
      ("CHORUS", {| pattern := [Some 0; Some 0; Some 1; Some 0; Some 2; Some 0]; rate := 1; gate := 0.7%Q |});
      ("SOLO", {| pattern := [Some 0; Some 1; Some 2; Some 3]; rate := 1; gate := 0.8%Q |}) ].
Definition arp_LOFI : gmap string ArpStyle :=
  list_to_map
    [ ("VERSE", {| pattern := [Some 0; Some 1; Some 2; Some 3]; rate := 4; gate := 1.2%Q |});
      ("CHORUS", {| pattern := [Some 0; Some 2; Some 1; Some 3]; rate := 2; gate := 1.0%Q |});
      ("BRIDGE", {| pattern := [Some 0; None; Some 1; None]; rate := 4; gate := 1.0%Q |}) ].
Definition arp_LATIN : gmap string ArpStyle :=
  list_to_map
    [ ("VERSE", {| pattern := [Some 0; None; Some 2]; rate := 2; gate := 0.6%Q |});
      ("CHORUS", {| pattern := [Some 0; None; Some 1; Some 2; None; Some 1]; rate := 1; gate := 0.7%Q |}) ].
Definition arp_HIPHOP : gmap string ArpStyle :=
  list_to_map
    [ ("VERSE", {| pattern := [Some 0; Some 2]; rate := 4; gate := 0.5%Q |});
      ("CHORUS", {| pattern := [Some 0; Some 1; Some 2]; rate := 2; gate := 0.6%Q |}) ].
Definition arp_PERSIAN : gmap string ArpStyle :=
  list_to_map
    [ ("VERSE", {| pattern := [Some 0; Some 1; Some 2; Some 3]; rate := 2; gate := 0.8%Q |});
      ("CHORUS", {| pattern := [Some 0; Some 1; Some 2; Some 3; Some 2; Some 1]; rate := 2; gate := 0.9%Q |}) ].
Definition arpStyles : gmap string (gmap string ArpStyle) :=
  list_to_map
    [ ("POP", arp_POP);
      ("EDM", arp_EDM);
      ("ROCK", arp_ROCK);
      ("LOFI", arp_LOFI);
      ("LATIN", arp_LATIN);
      ("HIPHOP", arp_HIPHOP);
      ("PERSIAN", arp_PERSIAN) ].

Definition drums_ROCK : DrumTable :=
  {| kick  := [1; 0; 0; 0; 0; 0; 1; 0; 1; 0; 0; 0; 0; 0; 1; 0];
     snare := [0; 0; 0; 0; 1; 0; 0; 0; 0; 0; 0; 0; 1; 0; 0; 0];
     hat   := [1; 1; 1; 1; 1; 1; 1; 1; 1; 1; 1; 1; 1; 1; 1; 1] |}.
Definition drums_POP : DrumTable :=
  {| kick  := [1; 0; 0; 0; 0; 0; 0; 0; 1; 0; 0; 0; 0; 0; 1; 0];
     snare := [0; 0; 0; 0; 1; 0; 0; 0; 0; 0; 0; 0; 1; 0; 0; 0];
     hat   := [1; 1; 1; 1; 1; 1; 1; 1; 1; 1; 1; 1; 1; 1; 1; 1] |}.
Definition drums_TECHNO : DrumTable :=
  {| kick  := [1; 0; 0; 0; 1; 0; 0; 0; 1; 0; 0; 0; 1; 0; 0; 0];
     snare := [0; 0; 0; 0; 1; 0; 0; 0; 0; 0; 0; 0; 1; 0; 0; 0];
     hat   := [0; 0; 1; 0; 0; 0; 1; 0; 0; 0; 1; 0; 0; 0; 1; 0] |}.
Definition drums_EDM : DrumTable :=
  {| kick  := [1; 0; 0; 0; 1; 0; 0; 0; 1; 0; 0; 0; 1; 0; 0; 0];
     snare := [0; 0; 0; 0; 1; 0; 0; 0; 0; 0; 0; 0; 1; 0; 0; 0];
     hat   := [0; 0; 1; 0; 0; 0; 1; 0; 0; 0; 1; 0; 0; 0; 1; 0] |}.
Definition drums_HIPHOP : DrumTable :=
  {| kick  := [1; 0; 0; 0; 0; 0; 0; 0; 1; 0; 0; 0; 0; 0; 0; 0];
     snare := [0; 0; 0; 0; 0; 0; 0; 0; 1; 0; 0; 0; 0; 0; 0; 0];
     hat   := [1; 0; 1; 0; 1; 1; 1; 0; 1; 0; 1; 0; 1; 0; 1; 1] |}.
Definition drums_LOFI : DrumTable :=
  {| kick  := [1; 0; 0; 0; 0; 0; 0; 0; 0; 0; 1; 0; 0; 0; 0; 0];
     snare := [0; 0; 0; 0; 1; 0; 0; 0; 0; 0; 0; 0; 1; 0; 0; 0];
     hat   := [1; 0; 1; 0; 1; 0; 1; 0; 1; 0; 1; 0; 1; 0; 1; 0] |}.
Definition drums_LATIN : DrumTable :=
  {| kick  := [1; 0; 0; 0; 1; 0; 0; 0; 1; 0; 0; 0; 1; 0; 0; 0];
     snare := [0; 0; 0; 1; 0; 0; 1; 0; 0; 0; 0; 1; 0; 0; 1; 0];
     hat   := [1; 0; 1; 0; 1; 0; 1; 0; 1; 0; 1; 0; 1; 0; 1; 0] |}.
Definition drums_PERSIAN : DrumTable :=
  {| kick  := [1; 0; 0; 0; 0; 0; 1; 0; 1; 0; 0; 0; 0; 0; 0; 0];
     snare := [0; 0; 0; 0; 1; 0; 0; 0; 0; 0; 0; 0; 1; 0; 0; 1];
     hat   := [1; 1; 1; 1; 1; 1; 1; 1; 1; 1; 1; 1; 1; 1; 1; 1] |}.
Definition patterns : gmap string DrumTable :=
  list_to_map
    [ ("ROCK", drums_ROCK);
      ("POP", drums_POP);
      ("TECHNO", drums_TECHNO);
      ("EDM", drums_EDM);
      ("HIPHOP", drums_HIPHOP);
      ("LOFI", drums_LOFI);
      ("LATIN", drums_LATIN);
      ("PERSIAN", drums_PERSIAN) ].

(** [a || b] where [a] may be [undefined] (arrays and objects, also empty
    ones, are truthy). *)
Definition js_or {A : Type} (a b : option A) : option A :=
  match a with Some x => Some x | None => b end.

(** ** Basic utility methods *)

(** [getScaleNotes(rootKey, scaleName)]: the loop runs over [i = 0 .. 126].
    The set is what the call returns for a [scaleName] that is no inherited
    key; for an inherited key [this.scales[scaleName]] is a function and the
    call throws at [indices.includes].  The generators that call it raise
    that error themselves. *)
Definition getScaleNotes (rootKey : Z) (scaleName : string) : gset Z :=
  let indices := default scale_Major (scales !! scaleName) in
  foldl (λ set i,
           let interval := (i - rootKey + 12) %% 12 in
           if bool_decide (interval ∈ indices) then set ∪ {[ i ]} else set)
        ∅ (seqZ 0 127).

(** [getScaleNotesArr(root, scaleName, minMidi, maxMidi)]. *)
Definition getScaleNotesArr (root : Z) (scaleName : string) (minMidi maxMidi : Z) : list Z :=
  let baseNotes := getScaleNotes root scaleName in
  filter (λ m, m ∈ baseNotes) (seqZ minMidi (maxMidi - minMidi + 1)).

(** [getChordRootInScale(scaleRoot, scaleName, chordDegreeIndex)]. *)
Definition getChordRootInScale (scaleRoot : Z) (scaleName : string) (chordDegreeIndex : Z) : Z :=
  match chordDegrees !! scaleName with
  | Some table =>
      match js_index table chordDegreeIndex with
      | Some chordDef => (scaleRoot + default 0 (intervals chordDef !! 0%nat)) %% 12
      | None => 0
      end
  | None => 0
  end.

(** ** Structure wizard *)

(** [generateSongStructure(templateKey)]: run-length decoding of the
    template, one entry per bar.  The list is what the call returns for a
    [templateKey] that is no inherited key; for an inherited key the
    template found is a function and the call throws at
    [template.structure.forEach]. *)
Definition generateSongStructure (templateKey : string) : list string :=
  let template := default template_POP_RADIO (songTemplates !! templateKey) in
  foldl (λ fullStructure p,
           fullStructure ++ replicate (Z.to_nat (len p)) (part_type p))
        [] (structure template).

(** [getStyleByVibe(genreKey, vibeIndex)]: [styles[vibeIndex] || styles[0]];
    [None] is [undefined].  For an inherited key [styles] is a function or
    the prototype object, which holds nothing under an index. *)
Definition getStyleByVibe (genreKey : string) (vibeIndex : Z) : option ProgressionStyle :=
  match js_get progressionStyles genreKey with
  | Inherited => None
  | Own styles => js_or (js_index styles vibeIndex) (js_index styles 0)
  | Absent => js_or (js_index styles_POP vibeIndex) (js_index styles_POP 0)
  end.

(** The body of the chord loop of the "apply structure" handler: the list a
    bar's section resolves to ... *)
Definition sectionChordsFor (selectedStyle : ProgressionStyle) (currentSection : string) : list Z :=
  let targetSectionForChords :=
    if bool_decide (currentSection = "SOLO") || bool_decide (currentSection = "DROP")
    then "CHORUS" else currentSection in
  match sections selectedStyle !! targetSectionForChords with
  | Some sectionChords => sectionChords
  | None =>
      default [0] (js_or (sections selectedStyle !! "CHORUS")
                         (sections selectedStyle !! "VERSE"))
  end.

(** ... and the chord pushed for bar [i]:
    [sectionChords[i % sectionChords.length]], or [0] when that is
    [undefined]. *)
Definition barChord (selectedStyle : ProgressionStyle) (i : nat) (currentSection : string) : Z :=
  let sectionChords := sectionChordsFor selectedStyle currentSection in
  default 0 (sectionChords !! (i mod length sectionChords)%nat).

(** The loop [for (i = 0; i < state.totalBars; i++)] over
    [state.barStructure], whose length is [state.totalBars]. *)
Definition assignChords (selectedStyle : ProgressionStyle) (barStructure : list string) : list Z :=
  imap (barChord selectedStyle) barStructure.

(** Steps 5 and 6 of the handler: the new [state.barStructure] and
    [state.barChords].  [None]: the handler does not get to the end of the
    chord loop.  It leaves at once for a template key that names nothing,
    and it throws for one that is an inherited key (in
    [generateSongStructure]) and for a [selectedStyle] that is
    [undefined]. *)
Definition applyStructure (templateKey genreKey : string) (vibeIndex : Z)
  : option (list string * list Z) :=
  match songTemplates !! templateKey with
  | None => None
  | Some _ =>
      let structure := generateSongStructure templateKey in
      selectedStyle ← getStyleByVibe genreKey vibeIndex;
      Some (structure, assignChords selectedStyle structure)
  end.

(** The chord-degree table a style's indices refer to: the table of its
    preferred scale. *)
Definition styleChordTable (style : ProgressionStyle) : option (list ChordDef) :=
  chordDegrees !! preferredScale style.

Definition validChordIndex (style : ProgressionStyle) (c : Z) : Prop :=
  ∃ table, styleChordTable style = Some table ∧ 0 ≤ c < Z.of_nat (length table).

(** Total number of bars of a template. *)
Definition totalBarsInTemplate (t : SongTemplate) : nat :=
  sum_list (map (λ p, Z.to_nat (len p)) (structure t)).

(** The section names of the engine: the part types of the song templates
    and the keys of the arpeggio tables.  No built-in function or object has
    a property of one of these names. *)
Definition sectionNames : list string :=
  [ "INTRO"; "VERSE"; "PRE_CHORUS"; "CHORUS"; "BRIDGE"; "SOLO"; "DROP"; "BUILDUP";
    "OUTRO" ].

(** What [getArpPattern] returns: [null]; an entry of [arpStyles];
    [undefined]; a function or the prototype object found under an inherited
    key (truthy, and no pattern); or a property of a built-in that this
    development does not model. *)
Inductive ArpResult : Type :=
| ArpNull
| ArpPattern (arpStyle : ArpStyle)
| ArpUndefined
| ArpBuiltIn
| ArpNotModelled.

(** [style || genreStyles['VERSE'] || genreStyles['CHORUS']] in the table
    [genreStyles] of a genre. *)
Definition arpStyleIn (genreStyles : gmap string ArpStyle) (targetSection : string)
  : ArpResult :=
  match js_get genreStyles targetSection with
  | Own style => ArpPattern style
  | Inherited => ArpBuiltIn
  | Absent =>
      match js_or (genreStyles !! "VERSE") (genreStyles !! "CHORUS") with
      | Some style => ArpPattern style
      | None => ArpUndefined
      end
  end.

(** [getArpPattern(genre, section)].  For a genre that is an inherited key
    [genreStyles] is a built-in function or object: it holds nothing under a
    section name of the engine, nor under ['VERSE'] and ['CHORUS'], and the
    result is [undefined]; under other names it may hold a property of its
    own (['length'], ['name'], ...), which is not modelled. *)
Definition getArpPattern (genre section : string) : ArpResult :=
  if bool_decide (section = "INTRO") || bool_decide (section = "OUTRO") then ArpNull
  else
    let targetSection :=
      if bool_decide (section = "SOLO") || bool_decide (section = "DROP") then "CHORUS"
      else section in
    let targetSection :=
      if bool_decide (section = "PRE_CHORUS") then "VERSE" else targetSection in
    match js_get arpStyles genre with
    | Own genreStyles => arpStyleIn genreStyles targetSection
    | Absent => arpStyleIn arp_POP targetSection
    | Inherited =>
        if bool_decide (targetSection ∈ sectionNames) then ArpUndefined
        else ArpNotModelled
    end.

(** ** Analysis methods *)

(** A note as stored in a track and as returned by the generators.  A
    velocity that the code computes is the double it computes, kept as the
    rational it is; a velocity that the code writes as a decimal and stores
    as it is (drums, pad, bass) is kept as that decimal, which stands for the
    double nearest to it. *)
Record Note := {
  midi : Z;
  time : Z;
  duration : Z;
  velocity : Q
}.

(** The result of [analyzeBarHarmony]: [{ score, details }] or
    [{ score, chordName }]. *)
Record BarHarmony := {
  score : Z;
  details : option string;
  chordName : option string
}.

(** [chordDefinition.intervals.map(interval => (rootKey + interval) % 12)]. *)
Definition allowedPCsOf (rootKey : Z) (chordDefinition : ChordDef) : list Z :=
  map (λ interval, (rootKey + interval) %% 12) (intervals chordDefinition).

(** [analyzeBarHarmony(barNotes, chordDefinition, rootKey)]; a falsy
    [chordDefinition] is [None].  The percentage is
    [Math.round((matchCount / barNotes.length) * 100)] on doubles: the
    quotient is rounded to a double, then its product with 100. *)
Definition analyzeBarHarmony (barNotes : list Note) (chordDefinition : option ChordDef)
    (rootKey : Z) : BarHarmony :=
  match chordDefinition with
  | None => {| score := 0; details := Some "No Chord"; chordName := None |}
  | Some chordDefinition =>
      if bool_decide (length barNotes = 0%nat)
      then {| score := 100; details := Some "Empty"; chordName := None |}
      else
        let allowedPCs := allowedPCsOf rootKey chordDefinition in
        let matchCount :=
          foldl (λ matchCount note,
                   if bool_decide (midi note %% 12 ∈ allowedPCs)
                   then matchCount + 1 else matchCount)
                0 barNotes in
        let percentage :=
          Math_round
            (js_mul (js_div (inject_Z matchCount) (inject_Z (Z.of_nat (length barNotes))))
                    100) in
        {| score := percentage; details := None; chordName := Some (name chordDefinition) |}
  end.

(** ** Drum pattern engine *)

Definition KICK : Z := 36.
Definition SNARE : Z := 38.
Definition CHAT : Z := 42.
Definition OHAT : Z := 46.
Definition CRASH : Z := 49.
Definition LO_TOM : Z := 41.
Definition MID_TOM : Z := 45.
Definition HI_TOM : Z := 48.

(** [if (row[s]) ...]: a step is on when the row holds a non-zero number
    there; [undefined] is falsy. *)
Definition stepOn (row : list Z) (s : Z) : bool :=
  match js_index row s with
  | Some v => negb (v =? 0)
  | None => false
  end.

(** [if (c) notesToAdd.push(x)]. *)
Definition pushIf (c : bool) (x : Z) : list Z := if c then [x] else [].

(** The innermost fill table of strategy C (reached by the genres that the
    first four branches do not name). *)
Definition buildupFallback (genre : string) (s : Z) : list Z :=
  if bool_decide (genre = "ROCK") || bool_decide (genre = "PUNK_ROCK") then []
  else if bool_decide (genre = "POP") then []
  else if bool_decide (genre = "TECHNO") || bool_decide (genre = "EDM") then []
  else if bool_decide (genre = "HIPHOP") || bool_decide (genre = "TRAP") then
    pushIf (s =? 8) SNARE ++ pushIf (s =? 9) SNARE ++ pushIf (s =? 10) SNARE
    ++ pushIf (s =? 13) KICK ++ pushIf (s =? 14) SNARE ++ pushIf (s =? 15) SNARE
  else pushIf (s =? 14) SNARE ++ pushIf (s =? 15) SNARE.

(** Strategy C (buildup), entered with [s >= 8]. *)
Definition buildupFill (genre nextSection : string) (s : Z) : list Z :=
  if bool_decide (genre = "ROCK") then
    pushIf ((s =? 8) || (s =? 9)) SNARE ++ pushIf ((s =? 10) || (s =? 11)) MID_TOM
    ++ pushIf ((s =? 12) || (s =? 13)) LO_TOM ++ pushIf (s =? 14) KICK
    ++ pushIf (s =? 15) SNARE
  else if bool_decide (genre = "POP") then
    pushIf ((s =? 8) || (s =? 9)) SNARE ++ pushIf (s =? 10) KICK
    ++ pushIf (s =? 11) MID_TOM ++ pushIf (s =? 12) KICK ++ pushIf (s =? 13) HI_TOM
    ++ (if s =? 14 then [SNARE; LO_TOM] else [])
  else if bool_decide (genre = "TECHNO") then
    [SNARE] ++ pushIf (s %% 2 =? 0) KICK
  else if bool_decide (genre = "TRAP") then
    pushIf (s =? 8) SNARE ++ pushIf (s =? 9) SNARE ++ pushIf (s =? 10) SNARE
    ++ pushIf (s =? 13) KICK ++ pushIf (s =? 14) SNARE ++ pushIf (s =? 15) SNARE
  else if bool_decide (nextSection = "CHORUS") || bool_decide (nextSection = "OUTRO")
          || (8 <=? s) then
    if 8 <=? s then buildupFallback genre s else []
  else [].

(** Section 3 of [getDrumPattern] (transition logic), entered when
    [isTransition && subStep === 0].  [Some notes]: the function returns
    [notes] from inside the block; [None]: control falls through to the base
    patterns with [notesToAdd] still empty. *)
Definition transitionFill (genre currentSection nextSection : string) (s : Z)
  : option (list Z) :=
  if bool_decide (currentSection = "INTRO") then
    if 14 <=? s then Some (pushIf (s =? 14) SNARE ++ pushIf (s =? 15) SNARE) else None
  else if bool_decide (currentSection = "CHORUS")
          && negb (bool_decide (nextSection = "CHORUS"))
          && negb (bool_decide (nextSection = "OUTRO")) then
    if 12 <=? s
    then Some (pushIf (s =? 12) HI_TOM ++ pushIf (s =? 13) MID_TOM ++ pushIf (s =? 14) LO_TOM)
    else None
  else if bool_decide (nextSection = "CHORUS") || bool_decide (nextSection = "OUTRO")
          || (8 <=? s) then
    if 8 <=? s then Some (buildupFill genre nextSection s) else None
  else None.

(** Section 4 of [getDrumPattern] (rhythm loops), entered when
    [subStep === 0]. *)
Definition basePattern (genre currentSection : string) (pt : DrumTable)
    (s stepIndex : Z) : list Z :=
  if bool_decide (currentSection = "PRE_CHORUS") then
    pushIf (s %% 4 =? 0) KICK ++ pushIf (s %% 2 =? 0) CHAT
    ++ pushIf ((s =? 7) || (s =? 15)) SNARE
  else
    (* KICK *)
    (if bool_decide (currentSection = "INTRO") then pushIf ((s =? 0) || (s =? 8)) KICK
     else if bool_decide (currentSection = "SOLO") then pushIf (stepOn (kick pt) s) KICK
     else if negb (bool_decide (currentSection = "BRIDGE")) then pushIf (stepOn (kick pt) s) KICK
     else [])
    (* SNARE *)
    ++ (if negb (bool_decide (currentSection = "INTRO"))
           && negb (bool_decide (currentSection = "OUTRO"))
        then pushIf (stepOn (snare pt) s) SNARE else [])
    (* HAT *)
    ++ (if bool_decide (currentSection = "CHORUS") || bool_decide (currentSection = "SOLO") then
          if negb (bool_decide (genre = "TECHNO")) then
            if s %% 4 =? 2 then [OHAT] else [CHAT]
          else pushIf (stepOn (hat pt) s) CHAT
        else pushIf (stepOn (hat pt) s) CHAT)
    (* CRASH *)
    ++ pushIf ((bool_decide (currentSection = "CHORUS") || bool_decide (currentSection = "SOLO"))
               && (stepIndex =? 0)) CRASH.

(** [getDrumPattern(genre, currentSection, nextSection, stepIndex,
    stepsPerBar, isTransition)].

    [normalizedStep = Math.floor(stepIndex / (stepsPerBar / 16))] is the
    integer quotient of [16 * stepIndex] by [stepsPerBar], and
    [subStep = stepIndex % (stepsPerBar / 16)] is zero exactly when
    [stepsPerBar] divides [16 * stepIndex].  With [stepsPerBar = 0] both are
    [NaN] or infinite, no test succeeds and the result is empty.

    The list is what the call returns for a [genre] that is no inherited
    key.  For an inherited key [pt] is a function, which has no rows: the
    call throws where the base pattern reads [pt.kick[s]], [pt.snare[s]] or
    [pt.hat[s]], and returns the same list where it does not read them. *)
Definition getDrumPattern (genre currentSection nextSection : string)
    (stepIndex stepsPerBar : Z) (isTransition : bool) : list Z :=
  if stepsPerBar =? 0 then []
  else
    let normalizedStep := (16 * stepIndex) `div` stepsPerBar in
    let subStepIsZero := (16 * stepIndex) `mod` stepsPerBar =? 0 in
    let s := normalizedStep %% 16 in
    let pt := default drums_POP (patterns !! genre) in
    match (if isTransition && subStepIsZero
           then transitionFill genre currentSection nextSection s else None) with
    | Some notesToAdd => notesToAdd
    | None =>
        if subStepIsZero then basePattern genre currentSection pt s stepIndex else []
    end.

(** A drum hit written by [state.addNoteToTrack(trackIdx, midi, time, 1, vel)];
    for 'LOFI' the velocity is the double product [vel * 0.8]. *)
Definition drumHit (drumGenre : string) (midi time : Z) : Note :=
  let vel := if midi =? 36 then 1%Q else if midi =? 42 then 0.7%Q else 0.9%Q in
  {| midi := midi; time := time; duration := 1;
     velocity := if bool_decide (drumGenre = "LOFI") then js_mul vel 0.8 else vel |}.

(** [state.addNoteToTrack]: a note of the same pitch and time is replaced. *)
Definition addNoteToTrack (notes : list Note) (n : Note) : list Note :=
  filter (λ m, midi m ≠ midi n ∨ time m ≠ time n) notes ++ [n].

(** [generateDrumsForWholeSong(trackIdx, genre)] of the wizard, as the list
    of notes it leaves on the (initially empty) drum track. *)
Definition generateDrumsForWholeSong (barStructure : list string) (stepsPerBar : Z)
    (genre : string) : list Note :=
  let drumGenre := if bool_decide (genre = "") then "POP" else genre in
  let totalBars := length barStructure in
  foldl (λ notes bar,
     let currentSection := default "" (barStructure !! bar) in
     let nextSection :=
       if bool_decide (bar < totalBars - 1)%nat
       then default "" (barStructure !! S bar) else "OUTRO" in
     let isTransition :=
       negb (bool_decide (currentSection = nextSection))
       || bool_decide (bar = (totalBars - 1)%nat) in
     let barStartStep := Z.of_nat bar * stepsPerBar in
     foldl (λ notes s,
        foldl (λ notes midi, addNoteToTrack notes (drumHit drumGenre midi (barStartStep + s)))
              notes
              (getDrumPattern drumGenre currentSection nextSection s stepsPerBar isTransition))
       notes (seqZ 0 stepsPerBar))
    [] (seq 0 totalBars).

(** What [getChordProgression] returns: a list of chord indices, or, for a
    section that is an inherited key, the function or object found under
    it. *)
Inductive ChordsResult : Type :=
| Chords (chords : list Z)
| ChordsBuiltIn.

(** ** Generation with [Math.random]

    Every generator is run against a sequence [random] of draws: the [n]-th
    call of [Math.random()] returns [random n].  A computation takes the
    number of draws made so far and either returns a value together with the
    new count, or throws. *)

Inductive Outcome (A : Type) : Type :=
| Returns (a : A) (draws : nat)
| Throws (error : string).
Arguments Returns {A} a draws.
Arguments Throws {A} error.

Definition Gen (A : Type) : Type := nat → Outcome A.

Definition ret {A : Type} (a : A) : Gen A := λ n, Returns a n.

Definition bind {A B : Type} (m : Gen A) (f : A → Gen B) : Gen B :=
  λ n, match m n with
       | Returns a n' => f a n'
       | Throws e => Throws e
       end.

Definition throw {A : Type} (e : string) : Gen A := λ _, Throws e.

Notation "x <~ m ;; k" := (bind m (λ x, k))
  (at level 100, m at next level, right associativity).

(** The value a computation returns when started with no draw made. *)
Definition run {A : Type} (m : Gen A) : option A :=
  match m 0%nat with
  | Returns a _ => Some a
  | Throws _ => None
  end.

(** A duration of a melodic rhythm: [{ duration, isRest }]. *)
Record RhythmEvent := {
  ev_duration : Z;
  isRest : bool
}.

(** The read-only view of the song state the generators take. *)
Record State := {
  rootKey : Z;
  scaleName : string;
  vocalRangeType : string;
  stepsPerBar : Z;
  totalBars : Z;
  barChords : list Z;
  barStructure : list string
}.

(** The rhythm pools of [generateMelodicRhythm]. *)
Definition motifs_LOW : list (list Z) :=
  [[4; 4; 8]; [6; 2; 8]; [8; 4; 4]; [4; 4; 4; 4]].
Definition motifs_MEDIUM : list (list Z) :=
  [[3; 3; 2; 4; 4]; [4; 2; 2; 8]; [2; 2; 4; 4; 4]; [4; 4; 2; 2; 4]; [6; 2; 6; 2]].
Definition motifs_HIGH : list (list Z) :=
  [[2; 2; 2; 2; 4; 4]; [3; 1; 3; 1; 4; 4]; [2; 4; 2; 4; 4]].
Definition motifs : gmap string (list (list Z)) :=
  list_to_map [("LOW", motifs_LOW); ("MEDIUM", motifs_MEDIUM); ("HIGH", motifs_HIGH)].

(** [variateRhythmSimple(pattern)]: a long first note is split in two
    halves.  (Every first duration of [motifs] that is at least 4 is
    even, so the half is an integer.) *)
Definition variateRhythmSimple (pattern : list RhythmEvent) : list RhythmEvent :=
  match pattern with
  | first :: p =>
      if 4 <=? ev_duration first then
        let half := ev_duration first `div` 2 in
        {| ev_duration := half; isRest := false |}
        :: {| ev_duration := half; isRest := false |} :: p
      else pattern
  | [] => []
  end.

(** [getIntroArpeggio()]. *)
Definition getIntroArpeggio : list RhythmEvent :=
  [ {| ev_duration := 4; isRest := false |};
    {| ev_duration := 4; isRest := true |};
    {| ev_duration := 4; isRest := false |};
    {| ev_duration := 4; isRest := true |} ].

(** Part A of the score of a candidate in [pickSmoothNote]. *)
Definition proximityScore (absDist : Z) : Z :=
  if absDist =? 0 then -5
  else if absDist <=? 2 then 20
  else if absDist <=? 4 then 10
  else if absDist <=? 5 then 5
  else - (absDist * 2).

(** Part B of the score. *)
Definition harmonyScore (isChordTone isStrongBeat : bool) : Z :=
  if isChordTone then (if isStrongBeat then 15 else 5)
  else (if negb isStrongBeat then 5 else -5).

(** [score > bestScore], where [None] is [-Infinity]. *)
Definition beats (score : Q) (bestScore : option Q) : bool :=
  match bestScore with
  | None => true
  | Some b => if Qlt_le_dec b score then true else false
  end.

(** The in-range scale tones and chord tones collected by the first loop of
    [pickSmoothNote]. *)
Definition scaleTonesIn (scaleNotes : gset Z) (min max : Z) : list Z :=
  filter (λ m, m ∈ scaleNotes) (seqZ min (max - min + 1)).
Definition chordTonesIn (allowedPCs : list Z) (scaleTones : list Z) : list Z :=
  filter (λ m, m %% 12 ∈ allowedPCs) scaleTones.

Section Generators.

Variable random : nat → Q.

(** [Math.random()]. *)
Definition Math_random : Gen Q := λ n, Returns (random n) (S n).

(** [arr[Math.floor(Math.random() * arr.length)]]. *)
Definition randomElement {A : Type} (arr : list A) : Gen (option A) :=
  r <~ Math_random ;;
  ret (js_index arr (Math_floor (r * inject_Z (Z.of_nat (length arr))))).

(** Steps 2 and 3 of [getChordProgression] on the list [styles]. *)
Definition progressionIn (styles : list ProgressionStyle) (section : string)
  : Gen ChordsResult :=
  selectedStyle <~ randomElement styles ;;
  match selectedStyle with
  | None => throw "TypeError: selectedStyle is undefined"
  | Some selectedStyle =>
      match js_get (sections selectedStyle) section with
      | Own chords => ret (Chords chords)
      | Inherited => ret ChordsBuiltIn
      | Absent => ret (Chords [0; 5; 3; 4])
      end
  end.

(** [getChordProgression(genreStyle, section)].  For a genre that is an
    inherited key [styles] is a function or the prototype object: a draw is
    made, [styles[...]] is [undefined] and reading its [sections] throws. *)
Definition getChordProgression (genreStyle section : string) : Gen ChordsResult :=
  match js_get progressionStyles genreStyle with
  | Own styles => progressionIn styles section
  | Absent => progressionIn styles_POP section
  | Inherited =>
      _ <~ Math_random ;;
      throw "TypeError: selectedStyle is undefined"
  end.

(** Stated from the specification (error taxonomy, "LookupMiss"): the list a
    missing section would resolve to if the lookup went section, then
    Chorus, then Verse, then the fixed default.  It is what the code is
    compared with, not part of the code. *)
Definition specFallbackChain (style : ProgressionStyle) (section : string) : list Z :=
  default [0; 5; 3; 4]
    (js_or (sections style !! section)
           (js_or (sections style !! "CHORUS") (sections style !! "VERSE"))).

(** The last two lines of [generateMelodicRhythm] on the pool [motifList]
    (the [list] of the code). *)
Definition rhythmFrom (motifList : list (list Z)) : Gen (list RhythmEvent) :=
  base <~ randomElement motifList ;;
  match base with
  | None => throw "TypeError: base is undefined"
  | Some base => ret (map (λ d, {| ev_duration := d; isRest := false |}) base)
  end.

(** [generateMelodicRhythm(complexity)].  For a complexity that is an
    inherited key [list] is a function or the prototype object: a draw is
    made, [list[...]] is [undefined] and [base.map] throws. *)
Definition generateMelodicRhythm (complexity : string) : Gen (list RhythmEvent) :=
  match js_get motifs complexity with
  | Own motifList => rhythmFrom motifList
  | Absent => rhythmFrom motifs_MEDIUM
  | Inherited =>
      _ <~ Math_random ;;
      throw "TypeError: base is undefined"
  end.

(** The [candidates.forEach] loop of [pickSmoothNote], carrying
    [(bestNote, bestScore)]. *)
Fixpoint pickBest (lastMidi : Z) (allowedPCs : list Z) (isStrongBeat : bool)
    (candidates : list Z) (best : Z * option Q) : Gen (Z * option Q) :=
  match candidates with
  | [] => ret best
  | note :: candidates =>
      let absDist := Z.abs (note - lastMidi) in
      let isChordTone := bool_decide (note %% 12 ∈ allowedPCs) in
      jitter <~ Math_random ;;
      let score :=
        (inject_Z (proximityScore absDist + harmonyScore isChordTone isStrongBeat)
         + jitter * 8)%Q in
      pickBest lastMidi allowedPCs isStrongBeat candidates
               (if beats score best.2 then (note, Some score) else best)
  end.

(** [pickSmoothNote(params)]; the result [None] is [null].  The chord
    definition is [None] when [params.chordDef] is [undefined]: the method
    reads [chordDef.intervals] before anything else and throws. *)
Definition pickSmoothNote (lastMidi : Z) (chordDef : option ChordDef) (rootKey : Z)
    (scaleNotes : gset Z) (min max : Z) (isStrongBeat isPhraseStart : bool)
  : Gen (option Z) :=
  match chordDef with
  | None => throw "TypeError: chordDef is undefined"
  | Some chordDef =>
      let allowedPCs := allowedPCsOf rootKey chordDef in
      let scaleTones := scaleTonesIn scaleNotes min max in
      let chordTones := chordTonesIn allowedPCs scaleTones in
      if bool_decide (length scaleTones = 0%nat) then ret None
      else if isPhraseStart || (lastMidi =? -1) then
        if bool_decide (0 < length chordTones)%nat
        then ret (chordTones !! (length chordTones / 2)%nat)
        else ret (scaleTones !! (length scaleTones / 2)%nat)
      else
        let candidates := scaleTones in
        best <~ pickBest lastMidi allowedPCs isStrongBeat candidates
                         (default 0 (candidates !! 0%nat), None) ;;
        ret (Some best.1)
  end.

(** [(state.barStructure && state.barStructure[bar]) || 'NONE']. *)
Definition sectionAt (barStructure : list string) (bar : Z) : string :=
  match js_index barStructure bar with
  | Some sec => if bool_decide (sec = "") then "NONE" else sec
  | None => "NONE"
  end.

Definition Math_maxQ (a b : Q) : Q := if Qlt_le_dec a b then b else a.
Definition Math_minQ (a b : Q) : Q := if Qlt_le_dec b a then b else a.

(** Step 4 of [generateMelody] (note placement): the loop over the rhythm
    pattern of one bar, carrying [stepCursor], [lastMidi] and [newNotes].  A
    pitch that is [null] or [0] is falsy and emits nothing.  The velocity is
    computed on doubles: [0.95 - 0.15] is the double below that of [0.8]. *)
Fixpoint placeNotes (state : State) (scaleNotes : gset Z) (targetMin targetMax : Z)
    (currentBar : Z) (currentSection : string) (chordDef : option ChordDef)
    (positionInPhrase : Z) (currentRhythmPattern : list RhythmEvent)
    (stepCursor lastMidi : Z) (newNotes : list Note) : Gen (Z * list Note) :=
  match currentRhythmPattern with
  | [] => ret (lastMidi, newNotes)
  | noteDef :: rest =>
      if stepsPerBar state <=? stepCursor then ret (lastMidi, newNotes)
      else
        let dur :=
          if stepsPerBar state <? stepCursor + ev_duration noteDef
          then stepsPerBar state - stepCursor else ev_duration noteDef in
        let isStrongBeat := stepCursor %% 4 =? 0 in
        let absTime := currentBar * stepsPerBar state + stepCursor in
        placed <~
          (if negb (isRest noteDef) then
             generatedMidi <~
               pickSmoothNote lastMidi chordDef (rootKey state) scaleNotes
                 targetMin targetMax isStrongBeat
                 ((stepCursor =? 0) && (positionInPhrase =? 0)) ;;
             match generatedMidi with
             | Some generatedMidi =>
                 if generatedMidi =? 0 then ret (lastMidi, newNotes)
                 else
                   let vel := if bool_decide (currentSection = "CHORUS")
                              then double 0.95 else double 0.8 in
                   let vel := if negb isStrongBeat then js_sub vel 0.15 else vel in
                   ret (generatedMidi,
                        newNotes ++ [ {| midi := generatedMidi; time := absTime;
                                         duration := dur;
                                         velocity :=
                                           Math_maxQ (double 0.1)
                                                     (Math_minQ (double 1.0) vel) |} ])
             | None => ret (lastMidi, newNotes)
             end
           else ret (lastMidi, newNotes)) ;;
        placeNotes state scaleNotes targetMin targetMax currentBar currentSection
                   chordDef positionInPhrase rest (stepCursor + dur) placed.1 placed.2
  end.

(** The velocities [placeNotes] gives: 0.95 or 0.8 on a beat, and those less
    0.15 off the beat. *)
Definition melodyVelocities : list Q :=
  [ double 0.95; double 0.8; js_sub (double 0.95) 0.15; js_sub (double 0.8) 0.15 ].

(** Step 3 of [generateMelody]: the rhythm of bar [b] of the request. *)
Definition rhythmForBar (state : State) (length b : Z) (currentSection : string)
    (mainRhythm : list RhythmEvent) : Gen (list RhythmEvent) :=
  let positionInPhrase := b %% 4 in
  currentRhythmPattern <~
    (if b =? length - 1 then
       ret [ {| ev_duration := stepsPerBar state; isRest := false |} ]
     else if positionInPhrase =? 3 then
       r <~ Math_random ;;
       ret [ {| ev_duration := 8; isRest := false |};
             {| ev_duration := 8; isRest := if Qlt_le_dec 0.5 r then true else false |} ]
     else if positionInPhrase =? 2 then ret (variateRhythmSimple mainRhythm)
     else ret mainRhythm) ;;
  ret (if bool_decide (currentSection = "INTRO") then getIntroArpeggio
       else currentRhythmPattern).

(** The loop [for (b = 0; b < length; b++)] of [generateMelody], over the
    remaining values of [b]. *)
Fixpoint melodyBars (state : State) (scaleNotes : gset Z) (targetMin targetMax : Z)
    (startBar length : Z) (mainRhythm : list RhythmEvent)
    (bs : list Z) (lastMidi : Z) (newNotes : list Note) : Gen (list Note) :=
  match bs with
  | [] => ret newNotes
  | b :: bs =>
      let currentBar := startBar + b in
      if totalBars state <=? currentBar then ret newNotes
      else
        let currentSection := sectionAt (barStructure state) currentBar in
        let chordIdx := default 0 (js_index (barChords state) currentBar) in
        match chordDegrees !! scaleName state with
        | None => throw "TypeError: chordDegrees[state.scaleName] is undefined"
        | Some table =>
            let chordDef := js_index table chordIdx in
            let positionInPhrase := b %% 4 in
            currentRhythmPattern <~ rhythmForBar state length b currentSection mainRhythm ;;
            placed <~ placeNotes state scaleNotes targetMin targetMax currentBar
                         currentSection chordDef positionInPhrase
                         currentRhythmPattern 0 lastMidi newNotes ;;
            melodyBars state scaleNotes targetMin targetMax startBar length mainRhythm
                       bs placed.1 placed.2
        end
  end.

(** Step 1 of [generateMelody] on the range [range]. *)
Definition adjustRange (range : VocalRange) (firstSection : string) : Z * Z :=
  let targetMax := if bool_decide (firstSection = "VERSE") then max range - 4 else max range in
  let targetMin :=
    if bool_decide (firstSection = "VERSE") then min range
    else if bool_decide (firstSection = "CHORUS") then min range + 4 else min range in
  (targetMin, targetMax).

(** The vocal range of a request, adjusted by the section of its first bar.
    For a [vocalRangeType] that is an inherited key [range] is a function or
    the prototype object, its [min] and [max] are [undefined], and every test
    [m <= max] of [pickSmoothNote] fails; the model passes on the empty
    range from 1 to 0, which no pitch lies in either. *)
Definition targetRange (startBar : Z) (state : State) : Z * Z :=
  let firstSection := sectionAt (barStructure state) startBar in
  match js_get vocalRanges (vocalRangeType state) with
  | Own range => adjustRange range firstSection
  | Absent => adjustRange {| min := 48; max := 84 |} firstSection
  | Inherited => (1, 0)
  end.

(** [generateMelody(startBar, length, complexity, state)].  Its first line
    calls [getScaleNotes], which throws for a scale name that is an
    inherited key. *)
Definition generateMelody (startBar length : Z) (complexity : string) (state : State)
  : Gen (list Note) :=
  if inheritedKey (scaleName state)
  then throw "TypeError: indices.includes is not a function"
  else
    let scaleNotes := getScaleNotes (rootKey state) (scaleName state) in
    let '(targetMin, targetMax) := targetRange startBar state in
    mainRhythm <~ generateMelodicRhythm complexity ;;
    melodyBars state scaleNotes targetMin targetMax startBar length mainRhythm
               (seqZ 0 length) (-1) [].

(** *** The Markov generator *)

(** An event of a motif: [{ dur, type }] with [type] one of ['NOTE'],
    ['REST'].  Durations are fractions of a beat and need not be integers. *)
Record MotifEvent := {
  dur : Q;
  ev_type : string
}.

(** A note returned by [generateMelodyMarkov]; [midi] is [NaN] ([None]) when
    no pitch could be chosen, and the duration may be fractional. *)
Record MarkovNote := {
  m_midi : option Z;
  m_time : Q;
  m_duration : Q;
  m_velocity : Q
}.

(** [generateGoodMotif(complexity, stepsPerBar)].  The class declares this
    method twice; the later declaration, which takes no [vibe], replaces the
    earlier one and is the one every call reaches. *)
Definition generateGoodMotif (complexity : string) (stepsPerBar : Z) : Gen (list MotifEvent) :=
  let beat := (inject_Z stepsPerBar / 4)%Q in
  let patternsLow : list (list Q) :=
    [ [beat; beat; beat; beat];
      [beat * 1.5; beat * 0.5; beat; beat];
      [beat * 2; beat; beat] ]%Q in
  let patternsHigh : list (list Q) :=
    [ [beat / 2; beat / 2; beat; beat / 2; beat / 2; beat];
      [beat * 0.75; beat * 0.25; beat; beat * 0.75; beat * 0.25; beat];
      [beat; beat / 2; beat / 2; beat / 2; beat / 2; beat] ]%Q in
  let source := if bool_decide (complexity = "HIGH") then patternsHigh else patternsLow in
  let source :=
    if bool_decide (complexity = "MEDIUM") then patternsLow ++ patternsHigh else source in
  rawRhythm <~ randomElement source ;;
  match rawRhythm with
  | None => throw "TypeError: rawRhythm is undefined"
  | Some rawRhythm =>
      ret (map (λ d, {| dur := inject_Z (Z.max 1 (Math_floor d)); ev_type := "NOTE" |})
               rawRhythm)
  end.

(** [variateMotif(motif)]: the first note of at least 4 steps is split. *)
Fixpoint variateMotif (motif : list MotifEvent) : list MotifEvent :=
  match motif with
  | [] => []
  | e :: rest =>
      if Qle_bool 4 (dur e) && bool_decide (ev_type e = "NOTE") then
        let half := inject_Z (Math_floor (dur e / 2)) in
        {| dur := half; ev_type := ev_type e |} :: {| dur := half; ev_type := "NOTE" |} :: rest
      else e :: variateMotif rest
  end.

(** [Math.abs(n - lastMidi) <= k]; with [lastMidi] not a number the
    comparison is false. *)
Definition within (lastMidi : option Z) (k : Z) (n : Z) : bool :=
  match lastMidi with
  | Some l => Z.abs (n - l) <=? k
  | None => false
  end.

(** The key the comparator of [candidates.sort] orders by. *)
Definition sortScore (lastMidi : option Z) (a : Z) : Z :=
  match lastMidi with
  | Some l => let dist := Z.abs (a - l) in if dist =? 0 then 100 else dist
  | None => 0
  end.

(** [Array.prototype.sort] is stable: an insertion sort that keeps equal
    keys in their order. *)
Fixpoint insertBy (key : Z → Z) (x : Z) (l : list Z) : list Z :=
  match l with
  | [] => [x]
  | y :: l' => if key x <=? key y then x :: l else y :: insertBy key x l'
  end.
Definition sortBy (key : Z → Z) (l : list Z) : list Z :=
  foldr (insertBy key) [] l.

(** [x % beat === 0] on fractions. *)
Definition isMultipleOf (x beat : Q) : bool :=
  Qeq_bool (inject_Z (Qfloor (x / beat))) (x / beat).

(** [Number(vel.toFixed(2))]: round the double to two decimals, ties up;
    the result stands for the double nearest to it. *)
Definition toFixed2 (vel : Q) : Q := (inject_Z (Math_round (vel * 100)) / 100)%Q.

(** The pitch of one note of [generateMelodyMarkov]; [None] is [undefined]. *)
Definition markovPitch (allScaleNotes chordClasses : list Z) (currentSection : string)
    (isStrongBeat : bool) (lastMidi : option Z) : Gen (option Z) :=
  let validRangeNotes :=
    if bool_decide (currentSection = "CHORUS")
    then filter (λ n, 65 ≤ n) allScaleNotes else allScaleNotes in
  if bool_decide (lastMidi = Some (-1)) then
    let midRange := filter (λ n, 60 ≤ n ∧ n ≤ 72) validRangeNotes in
    let starters := if bool_decide (0 < length midRange)%nat then midRange else validRangeNotes in
    let chordStarters := filter (λ n, n %% 12 ∈ chordClasses) starters in
    let starters :=
      if bool_decide (0 < length chordClasses)%nat && bool_decide (0 < length chordStarters)%nat
      then chordStarters else starters in
    randomElement starters
  else
    let neighbors := filter (λ n, within lastMidi 7 n = true) validRangeNotes in
    let candidates :=
      if isStrongBeat && bool_decide (0 < length chordClasses)%nat
      then filter (λ n, n %% 12 ∈ chordClasses) neighbors else [] in
    let candidates := if bool_decide (length candidates = 0%nat) then neighbors else candidates in
    let candidates :=
      if bool_decide (length candidates = 0%nat)
      then filter (λ n, within lastMidi 12 n = true) validRangeNotes else candidates in
    if bool_decide (0 < length candidates)%nat then
      let candidates := sortBy (sortScore lastMidi) candidates in
      r <~ Math_random ;;
      let idx := if Qlt_le_dec 0.6 r then 1 else 0 in
      let idx := if Qlt_le_dec 0.9 r
                 then Z.min 2 (Z.of_nat (length candidates) - 1) else idx in
      ret (js_index candidates (Z.min idx (Z.of_nat (length candidates) - 1)))
    else ret lastMidi.

(** The pitch-selection loop of one bar, carrying [currentStepInBar],
    [lastMidi] and [generatedNotes]. *)
Fixpoint markovNotes (stepsPerBar : Z) (allScaleNotes chordClasses : list Z)
    (absoluteBar : Z) (currentSection : string) (currentPattern : list MotifEvent)
    (currentStepInBar : Q) (lastMidi : option Z) (generatedNotes : list MarkovNote)
  : Gen (option Z * list MarkovNote) :=
  match currentPattern with
  | [] => ret (lastMidi, generatedNotes)
  | noteDef :: rest =>
      let beat := (inject_Z stepsPerBar / 4)%Q in
      if Qle_bool (inject_Z stepsPerBar) currentStepInBar then ret (lastMidi, generatedNotes)
      else
        let duration :=
          if Qlt_le_dec (inject_Z stepsPerBar) (currentStepInBar + dur noteDef)
          then (inject_Z stepsPerBar - currentStepInBar)%Q else dur noteDef in
        if bool_decide (ev_type noteDef = "REST") then
          markovNotes stepsPerBar allScaleNotes chordClasses absoluteBar currentSection
                      rest (currentStepInBar + duration)%Q lastMidi generatedNotes
        else
          let absTime := (inject_Z (absoluteBar * stepsPerBar) + currentStepInBar)%Q in
          let isStrongBeat := isMultipleOf currentStepInBar beat in
          targetMidi <~ markovPitch allScaleNotes chordClasses currentSection
                                    isStrongBeat lastMidi ;;
          let vel := if bool_decide (currentSection = "CHORUS")
                     then double 0.85 else double 0.75 in
          let vel := if isStrongBeat then js_add vel 0.1 else vel in
          r <~ Math_random ;;
          let vel := js_add vel (js_sub (js_mul r 0.1) 0.05) in
          markovNotes stepsPerBar allScaleNotes chordClasses absoluteBar currentSection
                      rest (currentStepInBar + duration)%Q targetMidi
                      (generatedNotes ++ [ {| m_midi := targetMidi; m_time := absTime;
                                              m_duration := duration;
                                              m_velocity := toFixed2 vel |} ])
  end.

(** [motifBank]: one motif per section, drawn in this order. *)
Definition buildMotifBank (complexity : string) (stepsPerBar : Z)
  : Gen (gmap string (list MotifEvent)) :=
  intro <~ generateGoodMotif complexity stepsPerBar ;;
  verse <~ generateGoodMotif complexity stepsPerBar ;;
  chorus <~ generateGoodMotif complexity stepsPerBar ;;
  bridge <~ generateGoodMotif complexity stepsPerBar ;;
  outro <~ generateGoodMotif complexity stepsPerBar ;;
  ret (list_to_map [("INTRO", intro); ("VERSE", verse); ("CHORUS", chorus);
                    ("BRIDGE", bridge); ("OUTRO", outro)]).

(** The loop [for (b = 0; b < numBars; b++)] of [generateMelodyMarkov].
    [motifBank] always holds ['VERSE'], so [baseMotif] is never [undefined].
    For a section that is an inherited key [baseMotif] is a function or the
    prototype object ([None] below): the bars that copy or vary it throw (at
    [JSON.parse], or at the loop over a pattern that is no array), the
    fourth bar of a phrase does not read it. *)
Fixpoint markovBars (stepsPerBar : Z) (allScaleNotes : list Z)
    (motifBank : gmap string (list MotifEvent))
    (structure : list string) (chordNotesMap : gmap Z (list Z)) (startBar : Z)
    (bs : list Z) (lastMidi : option Z) (generatedNotes : list MarkovNote)
  : Gen (list MarkovNote) :=
  match bs with
  | [] => ret generatedNotes
  | b :: bs =>
      let beat := (inject_Z stepsPerBar / 4)%Q in
      let absoluteBar := startBar + b in
      let currentSection :=
        match js_index structure absoluteBar with
        | Some sec => if bool_decide (sec = "") then "VERSE" else sec
        | None => "VERSE"
        end in
      let baseMotif :=
        match js_get motifBank currentSection with
        | Own motif => Some motif
        | Absent => Some (default [] (motifBank !! "VERSE"))
        | Inherited => None
        end in
      let currentChordNotes := default [] (chordNotesMap !! absoluteBar) in
      let chordClasses := map (λ n, n %% 12) currentChordNotes in
      let phrasePos := b %% 4 in
      currentPattern <~
        (if phrasePos =? 3 then
           ret [ {| dur := beat * 2; ev_type := "NOTE" |};
                 {| dur := beat * 2; ev_type := "REST" |} ]
         else
           match baseMotif with
           | None => throw "baseMotif is not a motif"
           | Some baseMotif =>
               if phrasePos =? 2 then ret (variateMotif baseMotif) else ret baseMotif
           end) ;;
      placed <~ markovNotes stepsPerBar allScaleNotes chordClasses absoluteBar
                   currentSection currentPattern 0 lastMidi generatedNotes ;;
      markovBars stepsPerBar allScaleNotes motifBank structure chordNotesMap
                 startBar bs placed.1 placed.2
  end.

(** [generateMelodyMarkov(root, scaleName, chordNotesMap, startBar, numBars,
    complexity, state)], called with a [state] object.  [getScaleNotesArr]
    calls [getScaleNotes], which throws for a scale name that is an inherited
    key. *)
Definition generateMelodyMarkov (root : Z) (scaleName : string)
    (chordNotesMap : gmap Z (list Z)) (startBar numBars : Z) (complexity : string)
    (state : State) : Gen (list MarkovNote) :=
  let stepsPerBar := if stepsPerBar state =? 0 then 16 else stepsPerBar state in
  if inheritedKey scaleName
  then throw "TypeError: indices.includes is not a function"
  else
    let allScaleNotes := getScaleNotesArr root scaleName 55 84 in
    motifBank <~ buildMotifBank complexity stepsPerBar ;;
    markovBars stepsPerBar allScaleNotes motifBank (barStructure state) chordNotesMap
               startBar (seqZ 0 numBars) (Some (-1)) [].

End Generators.

(** ** Well-formed requests *)

(** Every bar of the request [startBar .. startBar + length - 1] has a chord
    of the scale's chord table: [this.chordDegrees[state.scaleName]] exists
    and holds an entry at [state.barChords[bar] || 0]. *)
Definition chordsDefined (state : State) (startBar length : Z) : Prop :=
  ∃ table,
    chordDegrees !! scaleName state = Some table
    ∧ ∀ b, 0 ≤ b < length →
           is_Some (js_index table (default 0 (js_index (barChords state) (startBar + b)))).

(** A four-bar song in C major, used to run the generators. *)
Definition demoState : State :=
  {| rootKey := 0; scaleName := "Major"; vocalRangeType := "NONE"; stepsPerBar := 16;
     totalBars := 4; barChords := [0; 3; 4; 0];
     barStructure := ["VERSE"; "VERSE"; "CHORUS"; "CHORUS"] |}.

Definition demoChordNotes : gmap Z (list Z) :=
  list_to_map [(0, [60; 64; 67]); (1, [65; 69; 72]); (2, [67; 71; 74]); (3, [60; 64; 67])].

(** ** The scores of [pickSmoothNote]

    The random jitter of a candidate is below 8, so a candidate can only win
    when its score without jitter is within 7 of the best such score. *)

(** [allowedPCs.includes(note % 12)], as a boolean. *)
Definition isChordToneB (allowedPCs : list Z) (note : Z) : bool :=
  existsb (Z.eqb (note %% 12)) allowedPCs.

(** Parts A and B of the score of a flagged candidate. *)
Definition baseScore (lastMidi : Z) (isStrongBeat : bool) (cf : Z * bool) : Z :=
  proximityScore (Z.abs (cf.1 - lastMidi)) + harmonyScore cf.2 isStrongBeat.

(** The score of candidate [c] without its jitter. *)
Definition candidateScore (lastMidi : Z) (allowedPCs : list Z) (isStrongBeat : bool)
    (c : Z) : Z :=
  baseScore lastMidi isStrongBeat (c, isChordToneB allowedPCs c).

(** What the scoring loop knows of its best candidate after the candidates
    [seen]: it is one of them, its score is less than 8 above its score
    without jitter, and no score without jitter exceeds it. *)
Definition bestOf (lastMidi : Z) (allowedPCs : list Z) (isStrongBeat : bool)
    (seen : list Z) (best : Z * option Q) : Prop :=
  match best.2 with
  | None => seen = []
  | Some s =>
      best.1 ∈ seen
      ∧ (s < inject_Z (candidateScore lastMidi allowedPCs isStrongBeat best.1) + 8)%Q
      ∧ ∀ c, c ∈ seen →
             (inject_Z (candidateScore lastMidi allowedPCs isStrongBeat c) <= s)%Q
  end.

Definition allMotifs : list (list Z) := motifs_LOW ++ motifs_MEDIUM ++ motifs_HIGH.

(** ** Predicates of the statements *)

(** The durations of a rhythm are not negative. *)
Definition nonnegDurations (pattern : list RhythmEvent) : Prop :=
  Forall (λ e, 0 ≤ ev_duration e) pattern.

(** The events of a rhythm are notes of positive duration. *)
Definition positiveNotes (pattern : list RhythmEvent) : Prop :=
  Forall (λ e, 0 < ev_duration e ∧ isRest e = false) pattern.

Definition positiveDurations (pattern : list RhythmEvent) : Prop :=
  Forall (λ e, 0 < ev_duration e) pattern.

(** The rhythm [generateMelodicRhythm] makes of a motif: every duration a
    note. *)
Definition toRhythm (motif : list Z) : list RhythmEvent :=
  map (λ d, {| ev_duration := d; isRest := false |}) motif.

(** A note lies inside bar [bar] of a grid of [stepsPerBar] steps. *)
Definition inBar (stepsPerBar bar : Z) (note : Note) : Prop :=
  bar * stepsPerBar ≤ time note
  ∧ time note + duration note ≤ (bar + 1) * stepsPerBar.



(** A four-bar song with the progression I-vi-IV-V chosen in C major, after
    the scale selector was set to Blues: the selector leaves [barChords] as
    they are, and the chord table of Blues has five entries. *)
Definition bluesState : State :=
  {| rootKey := 0; scaleName := "Blues"; vocalRangeType := "NONE"; stepsPerBar := 16;
     totalBars := 4; barChords := [0; 5; 3; 4];
     barStructure := ["VERSE"; "VERSE"; "CHORUS"; "CHORUS"] |}.

(** ** Further methods of [MusicBrain] *)

(** [findClosestNote(target, options)]: [reduce] without an initial value
    starts from the first option; an empty list answers the target. *)
Definition findClosestNote (target : Z) (options : list Z) : Z :=
  match options with
  | [] => target
  | first :: rest =>
      foldl (λ prev curr,
               if Z.abs (curr - target) <? Z.abs (prev - target) then curr else prev)
            first rest
  end.

(** [getNoteRole(midi, chordDef, scaleRoot, currentBarRootIdx)]; a falsy
    [chordDef] is [None]. *)
Definition getNoteRole (midi : Z) (chordDef : option ChordDef)
    (scaleRoot currentBarRootIdx : Z) : string :=
  match chordDef with
  | None => "UNKNOWN"
  | Some _ =>
      let noteIndex := midi %% 12 in
      let interval := (noteIndex - currentBarRootIdx + 12) %% 12 in
      if interval =? 0 then "ROOT"
      else if interval =? 7 then "FIFTH"
      else if (interval =? 3) || (interval =? 4) then "THIRD"
      else if (interval =? 10) || (interval =? 11) then "SEVENTH"
      else if (interval =? 2) || (interval =? 5) || (interval =? 9) then "EXTENSION"
      else "NON_CHORD"
  end.

(** An entry of [this.intervals]: [{ score, mood }]. *)
Record IntervalQuality := {
  quality_score : Z;
  quality_mood : string
}.

(** [this.intervals], keyed by the interval in semitones. *)
Definition intervalQualities : gmap Z IntervalQuality :=
  list_to_map
    [ (0, {| quality_score := 100; quality_mood := "Unison" |});
      (7, {| quality_score := 95; quality_mood := "Perfect 5th (Stable)" |});
      (4, {| quality_score := 90; quality_mood := "Major 3rd (Happy)" |});
      (3, {| quality_score := 85; quality_mood := "Minor 3rd (Sad)" |});
      (5, {| quality_score := 70; quality_mood := "Perfect 4th" |});
      (12, {| quality_score := 100; quality_mood := "Octave" |});
      (2, {| quality_score := 60; quality_mood := "Major 2nd" |});
      (9, {| quality_score := 80; quality_mood := "Major 6th" |});
      (11, {| quality_score := 40; quality_mood := "Maj 7th (Tense)" |});
      (6, {| quality_score := 20; quality_mood := "Tritone (Dissonant)" |});
      (1, {| quality_score := 10; quality_mood := "Min 2nd (Clash)" |}) ].

(** The result of [analyzeNote]: [{ score, mood, details }]. *)
Record NoteAnalysis := {
  note_score : Z;
  mood : string;
  note_details : list string
}.

(** [analyzeNote(targetMidi, rootKey, scaleSet, lastNoteMidi)];
    [lastNoteMidi] is [None] for [null].  The running score is a multiple of
    one half. *)
Definition analyzeNote (targetMidi rootKey : Z) (scaleSet : gset Z)
    (lastNoteMidi : option Z) : NoteAnalysis :=
  if bool_decide (targetMidi ∈ scaleSet) then
    let '(quality, label) :=
      match lastNoteMidi with
      | Some lastNoteMidi =>
          let interval := Z.abs (targetMidi - lastNoteMidi) %% 12 in
          (default {| quality_score := 50; quality_mood := "Unknown" |}
                   (intervalQualities !! interval), "Interval: ")
      | None =>
          let interval := Z.abs (targetMidi - (60 + rootKey)) %% 12 in
          (default {| quality_score := 50; quality_mood := "Neutral" |}
                   (intervalQualities !! interval), "Root Relation: ")
      end in
    let score := (50 + inject_Z (quality_score quality) / 2)%Q in
    {| note_score := Z.min 100 (Math_round score);
       mood := if Qlt_le_dec 80 score then "Harmonious" else "Tense";
       note_details := ["In Scale"; label +:+ quality_mood quality] |}
  else
    {| note_score := 10; mood := "Out of Key"; note_details := ["Accidental"] |}.

(** [weightedChoice(values, weights)], on doubles.  The loop stops at the
    first index whose weight exceeds what is left of [r].  When [weights] is
    the shorter list, [weights[i]] is [undefined] from its end on: the test
    fails, [r] becomes [NaN], and no later test succeeds. *)
Fixpoint weightedLoop {A : Type} (values : list A) (weights : list Q) (r : Q) : option A :=
  match values, weights with
  | v :: values, w :: weights =>
      if Qlt_le_dec r (double w) then Some v
      else weightedLoop values weights (js_sub r w)
  | _, _ => None
  end.

Definition weightedChoice {A : Type} (random : nat → Q) (values : list A)
    (weights : list Q) : Gen (option A) :=
  let sum := foldl js_add 0%Q weights in
  r <~ Math_random random ;;
  let r := js_mul r sum in
  ret (match weightedLoop values weights r with
       | Some v => Some v
       | None => values !! 0%nat
       end).

(** ** Track generators of the structure wizard *)

(** [generateLeadForWholeSong(trackIdx)], as the notes it leaves on the
    track, from the notes [notes] the track holds: the loop
    [for (bar = 0; bar < state.totalBars; bar += 4)] over the remaining
    values of [bar]. *)
Fixpoint leadBlocks (random : nat → Q) (state : State) (bars : list Z)
    (notes : list Note) : Gen (list Note) :=
  match bars with
  | [] => ret notes
  | bar :: bars =>
      let section := js_index (barStructure state) bar in
      let shouldGenerate :=
        bool_decide (section = Some "CHORUS") || bool_decide (section = Some "DROP")
        || bool_decide (section = Some "SOLO") in
      let complexity := if bool_decide (section = Some "SOLO") then "HIGH" else "MEDIUM" in
      if shouldGenerate then
        newNotes <~ generateMelody random bar 4 complexity state ;;
        leadBlocks random state bars (foldl addNoteToTrack notes newNotes)
      else leadBlocks random state bars notes
  end.

Definition generateLeadForWholeSong (random : nat → Q) (state : State) : Gen (list Note) :=
  leadBlocks random state (map (λ k, 4 * k) (seqZ 0 ((totalBars state + 3) `div` 4))) [].

(** The pitches of one pad chord: steps 1 to 3 of the loop body of
    [generatePadForWholeSong].  [sort((a, b) => a - b)] orders the numbers
    ascending. *)
Definition padVoicing (useSpread : bool) (rootKey : Z) (chordDef : ChordDef) : list Z :=
  let rootBase := rootKey + 48 in
  let currentMidis :=
    map (λ interval,
           let note := rootBase + interval in
           if 7 <? interval then note - 12 else note) (intervals chordDef) in
  let currentMidis :=
    if useSpread && bool_decide (3 ≤ length currentMidis)%nat then
      merge_sort Z.le (alter (λ note, note + 12) 1%nat (merge_sort Z.le currentMidis))
    else currentMidis in
  map (λ note, if 80 <? note then note - 12 else note) currentMidis.

(** [generatePadForWholeSong(trackIdx)] with the state of the "spread"
    checkbox, from the notes the track holds; [None] when the code throws
    (the scale has no chord table).  [state.barChords[bar]] is [undefined]
    past the end of the array. *)
Fixpoint padBars (useSpread : bool) (state : State) (bars : list Z)
    (notes : list Note) : option (list Note) :=
  match bars with
  | [] => Some notes
  | bar :: bars =>
      match js_index (barChords state) bar with
      | None => padBars useSpread state bars notes
      | Some chordIdx =>
          if chordIdx =? -1 then padBars useSpread state bars notes
          else if bool_decide (js_index (barStructure state) bar = Some "DROP")
          then padBars useSpread state bars notes
          else
            match chordDegrees !! scaleName state with
            | None => None
            | Some table =>
                match js_index table chordIdx with
                | None => padBars useSpread state bars notes
                | Some chordDef =>
                    padBars useSpread state bars
                      (foldl (λ notes note,
                                addNoteToTrack notes
                                  {| midi := note; time := bar * stepsPerBar state;
                                     duration := 16; velocity := 0.6 |})
                             notes (padVoicing useSpread (rootKey state) chordDef))
                end
            end
      end
  end.

Definition generatePadForWholeSong (useSpread : bool) (state : State) : option (list Note) :=
  padBars useSpread state (seqZ 0 (totalBars state)) [].

(** ** Predicates of the further statements *)

(** The step from the pitch [prev] to the pitch [next] of a Markov melody is
    at most an octave; [Some (-1)] stands for the start of the melody and
    [None] for a pitch that is not a number. *)
Definition leapWithinOctave (prev next : option Z) : Prop :=
  match prev, next with
  | Some a, Some b => a = -1 ∨ Z.abs (b - a) ≤ 12
  | _, _ => True
  end.

(** Every step of the melody [notes], played after the pitch [prev], is at
    most an octave. *)
Fixpoint smoothFrom (prev : option Z) (notes : list MarkovNote) : Prop :=
  match notes with
  | [] => True
  | note :: notes => leapWithinOctave prev (m_midi note) ∧ smoothFrom (m_midi note) notes
  end.

(** The chord map the "generate melody" handler builds for the bars
    [startBar .. startBar + lenBars - 1] before it calls the Markov
    generator: the loop over the remaining values of [i].  [None] when the
    code throws (the scale has no chord table). *)
Fixpoint chordMapLoop (state : State) (bars : list Z) (chordMap : gmap Z (list Z))
  : option (gmap Z (list Z)) :=
  match bars with
  | [] => Some chordMap
  | i :: bars =>
      let chordIdx := default 0 (js_index (barChords state) i) in
      match chordDegrees !! scaleName state with
      | None => None
      | Some table =>
          match js_index table chordIdx with
          | Some chordDef =>
              let rootNote :=
                getChordRootInScale (rootKey state) (scaleName state) chordIdx in
              chordMapLoop state bars
                (<[i := map (λ interval, rootNote + interval + 60) (intervals chordDef)]>
                   chordMap)
          | None => chordMapLoop state bars chordMap
          end
      end
  end.

Definition chordMapFor (state : State) (startBar lenBars : Z) : option (gmap Z (list Z)) :=
  chordMapLoop state (seqZ startBar lenBars) ∅.

(** A note of the bass track; its pitch is [None] when the code computes
    [NaN] for it. *)
Record BassNote := {
  bass_midi : option Z;
  bass_time : Z;
  bass_duration : Z;
  bass_velocity : Q
}.

(** [state.addNoteToTrack] for such a note: [NaN] differs from every pitch,
    itself included, so a note without a pitch replaces nothing and is never
    replaced. *)
Definition addBassNote (notes : list BassNote) (n : BassNote) : list BassNote :=
  filter (λ m, (bass_midi m ≠ bass_midi n ∨ bass_midi n = None)
               ∨ bass_time m ≠ bass_time n) notes ++ [n].

(** The pitch of the bass in bar [bar]: the first lines of the loop body of
    [generateBassForWholeSong].  The outer [None]: the code throws (the scale
    has no offsets, [scaleIndices] is [undefined]); the inner [None]: the
    pitch is [NaN] (the bar has no chord index, or a negative one). *)
Definition bassPitch (state : State) (bar : Z) : option (option Z) :=
  match scales !! scaleName state with
  | None => None
  | Some scaleIndices =>
      Some (chordIdx ← js_index (barChords state) bar;
            interval ← js_index scaleIndices (chordIdx %% Z.of_nat (length scaleIndices));
            Some (rootKey state + interval + 36))
  end.

(** [generateBassForWholeSong(trackIdx)], from the notes the track holds:
    the loop over the remaining values of [bar]. *)
Fixpoint bassBars (state : State) (bars : list Z) (notes : list BassNote)
  : option (list BassNote) :=
  match bars with
  | [] => Some notes
  | bar :: bars =>
      midiNote ← bassPitch state bar;
      let section := js_index (barStructure state) bar in
      let barStart := bar * stepsPerBar state in
      let add notes time duration velocity :=
        addBassNote notes {| bass_midi := midiNote; bass_time := time;
                             bass_duration := duration; bass_velocity := velocity |} in
      if bool_decide (section = Some "INTRO") || bool_decide (section = Some "OUTRO") then
        bassBars state bars (add notes barStart 16 0.8%Q)
      else if bool_decide (section = Some "CHORUS") || bool_decide (section = Some "DROP") then
        bassBars state bars
          (foldl (λ notes i, add notes (barStart + i) 2 0.9%Q) notes
                 [0; 2; 4; 6; 8; 10; 12; 14])
      else
        bassBars state bars (add (add notes barStart 4 0.8%Q) (barStart + 8) 4 0.8%Q)
  end.

Definition generateBassForWholeSong (state : State) : option (list BassNote) :=
  bassBars state (seqZ 0 (totalBars state)) [].

(** A Blues song of four bars on the chords I7, IV7, I and bVII. *)
Definition bluesSong : State :=
  {| rootKey := 9; scaleName := "Blues"; vocalRangeType := "NONE"; stepsPerBar := 16;
     totalBars := 4; barChords := [0; 1; 3; 4];
     barStructure := ["INTRO"; "VERSE"; "CHORUS"; "OUTRO"] |}.

(** What one note of the bass track is, for the bar that wrote it. *)
Definition bassNoteOf (state : State) (note : BassNote) (bar p : Z) : Prop :=
  bass_midi note = Some p
  ∧ bassPitch state bar = Some (Some p)
  ∧ 36 ≤ p ≤ 58
  ∧ p ∈ getScaleNotes (rootKey state) (scaleName state)
  ∧ let section := js_index (barStructure state) bar in
    let offset := bass_time note - bar * stepsPerBar state in
    ((section = Some "INTRO" ∨ section = Some "OUTRO")
       ∧ offset = 0 ∧ bass_duration note = 16)
    ∨ (section ≠ Some "INTRO" ∧ section ≠ Some "OUTRO"
       ∧ (section = Some "CHORUS" ∨ section = Some "DROP")
       ∧ offset ∈ [0; 2; 4; 6; 8; 10; 12; 14] ∧ bass_duration note = 2)
    ∨ (section ≠ Some "INTRO" ∧ section ≠ Some "OUTRO"
       ∧ section ≠ Some "CHORUS" ∧ section ≠ Some "DROP"
       ∧ (offset = 0 ∨ offset = 8) ∧ bass_duration note = 4).

(** A note of the arpeggio track: its pitch is [None] when the code reads
    [undefined] for it, and its length and velocity are doubles, kept as the
    rationals they are. *)
Record ArpNote := {
  arp_midi : option Z;
  arp_time : Z;
  arp_duration : Q;
  arp_velocity : Q
}.

(** [state.addNoteToTrack] for such a note. *)
Definition addArpNote (notes : list ArpNote) (n : ArpNote) : list ArpNote :=
  filter (λ m, arp_midi m ≠ arp_midi n ∨ arp_time m ≠ arp_time n) notes ++ [n].

(** The inner loop [for (let s = 0; s < stepsInBar; s += rate)] of
    [generateArpForWholeSong], from the values [s] and [pIndex] on.  The
    recursion is on [fuel], a bound on the turns of the loop: running out of
    it is reported as an error of its own.  [Math.random] is drawn only for a
    step that plays. *)
Fixpoint arpSteps (random : nat → Q) (extendedNotes : list Z) (arpStyle : ArpStyle)
    (bar stepsInBar : Z) (fuel : nat) (s pIndex : Z) (notes : list ArpNote)
  : Gen (list ArpNote) :=
  if s <? stepsInBar then
    match fuel with
    | O => throw "arpSteps: out of fuel"
    | S fuel =>
        let noteIndexOrNull :=
          mjoin (js_index (pattern arpStyle)
                          (pIndex %% Z.of_nat (length (pattern arpStyle)))) in
        notes <~ match noteIndexOrNull with
                 | Some noteIndex =>
                     if noteIndex <? Z.of_nat (length extendedNotes) then
                       let midi := js_index extendedNotes noteIndex in
                       r <~ Math_random random ;;
                       let vel := js_add 0.7 (js_sub (js_mul r 0.1) 0.05) in
                       let rg := js_mul (inject_Z (rate arpStyle)) (gate arpStyle) in
                       let duration := if Qle_bool (double 0.1) rg then rg else double 0.1 in
                       ret (addArpNote notes
                              {| arp_midi := midi; arp_time := bar * stepsInBar + s;
                                 arp_duration := duration; arp_velocity := vel |})
                     else ret notes
                 | None => ret notes
                 end ;;
        arpSteps random extendedNotes arpStyle bar stepsInBar fuel
                 (s + rate arpStyle) (pIndex + 1) notes
    end
  else ret notes.

(** [generateArpForWholeSong(trackIdx, genre)], from the notes the track
    holds: the loop over the remaining values of [bar].  A section that is
    [undefined] reaches [getArpPattern] as such and is looked up under the
    key 'undefined'.  A function or object taken for the arp style has no
    [pattern]: the first turn of the step loop throws.  Where [getArpPattern]
    is not modelled the generator is not either, which the model reports as
    an error of its own. *)
Fixpoint arpBars (random : nat → Q) (state : State) (genre : string) (bars : list Z)
    (notes : list ArpNote) : Gen (list ArpNote) :=
  match bars with
  | [] => ret notes
  | bar :: bars =>
      let rootBase := rootKey state + 60 in
      match js_index (barChords state) bar with
      | None => arpBars random state genre bars notes
      | Some chordIdx =>
          if chordIdx =? -1 then arpBars random state genre bars notes
          else
            let section := js_index (barStructure state) bar in
            match chordDegrees !! scaleName state with
            | None => throw "TypeError: chordDegrees[scaleName] is undefined"
            | Some table =>
                match js_index table chordIdx with
                | None => arpBars random state genre bars notes
                | Some chordDef =>
                    match getArpPattern genre (default "undefined" section) with
                    | ArpNull | ArpUndefined => arpBars random state genre bars notes
                    | ArpPattern arpStyle =>
                        let chordNotes := map (λ i, rootBase + i) (intervals chordDef) in
                        let extendedNotes :=
                          merge_sort Z.le
                            (chordNotes ++ map (λ n, n + 12) chordNotes) in
                        let stepsInBar := stepsPerBar state in
                        notes <~ arpSteps random extendedNotes arpStyle bar stepsInBar
                                          (Z.to_nat stepsInBar) 0 0 notes ;;
                        arpBars random state genre bars notes
                    | ArpBuiltIn =>
                        if 0 <? stepsPerBar state
                        then throw "TypeError: pattern is undefined"
                        else arpBars random state genre bars notes
                    | ArpNotModelled => throw "arpBars: arp style not modelled"
                    end
                end
            end
      end
  end.

Definition generateArpForWholeSong (random : nat → Q) (state : State) (genre : string)
  : Gen (list ArpNote) :=
  arpBars random state genre (seqZ 0 (totalBars state)) [].

(** What one note of the arpeggio track is, for the bar that wrote it and
    the style of that bar. *)
Definition arpNoteOf (state : State) (genre : string) (note : ArpNote) (bar : Z)
    (chordDef : ChordDef) (arpStyle : ArpStyle) : Prop :=
  let section := js_index (barStructure state) bar in
  section ≠ Some "INTRO" ∧ section ≠ Some "OUTRO"
  ∧ getArpPattern genre (default "undefined" section) = ArpPattern arpStyle
  ∧ (∃ interval octave,
       interval ∈ intervals chordDef ∧ 0 ≤ interval ≤ 11 ∧ 0 ≤ octave ≤ 1
       ∧ arp_midi note = Some (rootKey state + 60 + interval + 12 * octave))
  ∧ (∃ k, 0 ≤ k ∧ k * rate arpStyle < stepsPerBar state
          ∧ arp_time note = bar * stepsPerBar state + k * rate arpStyle)
  ∧ arp_duration note = js_mul (inject_Z (rate arpStyle)) (gate arpStyle)
  ∧ (0.4 <= arp_duration note)%Q ∧ (arp_duration note <= 4.8)%Q
  ∧ (js_sub 0.7 0.05 <= arp_velocity note)%Q ∧ (arp_velocity note <= 0.75)%Q.

(** * Properties *)

(** ** Table facts, settled by evaluation *)

Lemma scales_Major : scales !! "Major" = Some scale_Major.
Proof. reflexivity. Qed.

Lemma songTemplates_TRAP : songTemplates !! "TRAP" = Some template_TRAP.
Proof. reflexivity. Qed.

(** Every genre of [progressionStyles] has at least one style. *)
Lemma progressionStyles_nonempty (genre : string) (styles : list ProgressionStyle) :
  progressionStyles !! genre = Some styles → (0 < length styles)%nat.
Proof.
  revert genre styles.
  change (map_Forall (λ _ styles, (0 < length styles)%nat) progressionStyles).
  compute_done.
Qed.

(** Every genre of [arpStyles] has a pattern for the verse. *)
Lemma arpStyles_have_verse (genre : string) (genreStyles : gmap string ArpStyle) :
  arpStyles !! genre = Some genreStyles → is_Some (genreStyles !! "VERSE").
Proof.
  revert genre genreStyles.
  change (map_Forall (λ (_ : string) (gs : gmap string ArpStyle), is_Some (gs !! "VERSE")) arpStyles).
  compute_done.
Qed.

(** ** Scales *)

Lemma elem_of_scale_loop (rootKey : Z) (indices l : list Z) (acc : gset Z) (m : Z) :
  m ∈ foldl (λ set i,
               if bool_decide ((i - rootKey + 12) %% 12 ∈ indices)
               then set ∪ {[ i ]} else set) acc l
  ↔ m ∈ acc ∨ (m ∈ l ∧ (m - rootKey + 12) %% 12 ∈ indices).
Proof.
  revert acc. induction l as [|i l IH]; intros acc; simpl.
  - rewrite elem_of_nil. tauto.
  - rewrite IH, elem_of_cons.
    case_bool_decide as Hi; rewrite ?elem_of_union, ?elem_of_singleton;
      intuition (subst; tauto).
Qed.

(** The set holds exactly the pitches [0 .. 126] whose interval to the root
    is an offset of the scale. *)
Lemma elem_of_getScaleNotes (rootKey : Z) (scaleName : string) (m : Z) :
  m ∈ getScaleNotes rootKey scaleName
  ↔ 0 ≤ m < 127 ∧ (m - rootKey + 12) %% 12 ∈ default scale_Major (scales !! scaleName).
Proof.
  unfold getScaleNotes.
  generalize (default scale_Major (scales !! scaleName)). intros indices.
  rewrite elem_of_scale_loop, elem_of_seqZ, elem_of_empty. intuition lia.
Qed.

(** For a root in [0 .. 11] the JavaScript remainder is the pitch-class
    distance [(m - root) mod 12]. *)
Lemma interval_mod (m rootKey : Z) :
  0 ≤ m → 0 ≤ rootKey ≤ 11 → (m - rootKey + 12) %% 12 = (m - rootKey) `mod` 12.
Proof.
  intros Hm Hr. unfold js_rem. rewrite Z.rem_mod_nonneg by lia.
  replace (m - rootKey + 12) with (m - rootKey + 1 * 12) by lia.
  apply Z_mod_plus_full.
Qed.

(** Below 127 the set is the one the specification describes. *)
Lemma getScaleNotes_below_127 (rootKey : Z) (scaleName : string) (m : Z) :
  0 ≤ rootKey ≤ 11 → 0 ≤ m < 127 →
  m ∈ getScaleNotes rootKey scaleName
  ↔ (m - rootKey) `mod` 12 ∈ default scale_Major (scales !! scaleName).
Proof.
  intros Hr Hm. rewrite elem_of_getScaleNotes, interval_mod by lia. intuition lia.
Qed.

(** C1 (code defect).  [getScaleNotes] never contains MIDI 127, whatever the
    root and the scale: its loop stops at 126.  For root C and the major
    scale the pitch class of 127 is G, an offset of the scale, so the set
    misses a pitch the claim puts in it. *)
Theorem getScaleNotes_omits_127 :
  (∀ rootKey scaleName, 127 ∉ getScaleNotes rootKey scaleName)
  ∧ ((127 - 0) `mod` 12 ∈ default scale_Major (scales !! "Major")).
Proof.
  split.
  - intros rootKey scaleName. rewrite elem_of_getScaleNotes. lia.
  - vm_compute. set_solver.
Qed.

(** ** Structure wizard *)

Lemma structure_loop_length (parts : list Part) (acc : list string) :
  length (foldl (λ fullStructure p,
                   fullStructure ++ replicate (Z.to_nat (len p)) (part_type p))
                acc parts)
  = (length acc + sum_list (map (λ p, Z.to_nat (len p)) parts))%nat.
Proof.
  revert acc. induction parts as [|p parts IH]; intros acc; simpl.
  - lia.
  - rewrite IH, length_app, length_replicate. lia.
Qed.

(** Expanding a template yields one entry per bar of the template. *)
Lemma generateSongStructure_length (templateKey : string) :
  length (generateSongStructure templateKey)
  = totalBarsInTemplate (default template_POP_RADIO (songTemplates !! templateKey)).
Proof. unfold generateSongStructure. rewrite structure_loop_length. reflexivity. Qed.

Lemma assignChords_length (style : ProgressionStyle) (barStructure : list string) :
  length (assignChords style barStructure) = length barStructure.
Proof. apply length_imap. Qed.

(** Bar [b] gets element [b mod list.length] of the list its section
    resolves to. *)
Lemma assignChords_lookup (style : ProgressionStyle) (barStructure : list string)
    (b : nat) (sec : string) :
  barStructure !! b = Some sec →
  sectionChordsFor style sec ≠ [] →
  assignChords style barStructure !! b
  = sectionChordsFor style sec !! (b mod length (sectionChordsFor style sec))%nat.
Proof.
  intros Hsec Hne. unfold assignChords. rewrite list_lookup_imap, Hsec. simpl.
  unfold barChord.
  destruct (lookup_lt_is_Some_2 (sectionChordsFor style sec)
              (b mod length (sectionChordsFor style sec))%nat) as [c Hc].
  - apply Nat.mod_upper_bound. destruct (sectionChordsFor style sec); [done | simpl; lia].
  - rewrite Hc. reflexivity.
Qed.

(** The chord-degree tables have seven, or for the blues and pentatonic
    scales five, entries; 'Phrygian' has none. *)
Lemma chordDegrees_Phrygian : chordDegrees !! "Phrygian" = None.
Proof. reflexivity. Qed.

(** C2 (code defect).  Applying the 'TRAP' template with the first hip-hop
    style ('Dark Trap') does yield one chord per bar of the template, but the
    style's preferred scale 'Phrygian' has no chord-degree table, so no
    chord index it assigns is a valid index into the style's table. *)
Theorem darkTrap_chords_have_no_table :
  ∃ structure chords style,
    applyStructure "TRAP" "HIPHOP" 0 = Some (structure, chords)
    ∧ getStyleByVibe "HIPHOP" 0 = Some style
    ∧ length chords = totalBarsInTemplate template_TRAP
    ∧ chords !! 0%nat = Some 0
    ∧ ∀ c, c ∈ chords → ¬ validChordIndex style c.
Proof.
  eexists _, _, _. split; [reflexivity|]. split; [reflexivity|].
  split; [reflexivity|]. split; [reflexivity|].
  intros c _ (table & Htable & _). discriminate Htable.
Qed.

(** ** Random draws *)

(** A draw in [[0, 1)] scaled by a positive length and floored is an index
    below that length. *)
Lemma random_index_bounds (r : Q) (n : Z) :
  (0 <= r)%Q → (r < 1)%Q → 0 < n → 0 ≤ Math_floor (r * inject_Z n) < n.
Proof.
  intros H0 H1 Hn. unfold Math_floor.
  pose proof (Qfloor_le (r * inject_Z n)) as Hle.
  pose proof (Qlt_floor (r * inject_Z n)) as Hlt.
  assert (inject_Z 0 < inject_Z n)%Q as HnQ by (rewrite <- Zlt_Qlt; exact Hn).
  change (inject_Z 0) with 0%Q in HnQ.
  split.
  - assert (inject_Z 0 < inject_Z (Qfloor (r * inject_Z n) + 1))%Q as Hpos
      by (change (inject_Z 0) with 0%Q; nra).
    rewrite <- Zlt_Qlt in Hpos. lia.
  - assert (inject_Z (Qfloor (r * inject_Z n)) < inject_Z n)%Q as Hup by nra.
    rewrite <- Zlt_Qlt in Hup. exact Hup.
Qed.

Lemma js_index_is_Some {A : Type} (arr : list A) (i : Z) :
  0 ≤ i < Z.of_nat (length arr) → js_index arr i = arr !! Z.to_nat i ∧ is_Some (arr !! Z.to_nat i).
Proof.
  intros Hi. unfold js_index. rewrite bool_decide_eq_true_2 by lia.
  split; [reflexivity|]. apply lookup_lt_is_Some_2. lia.
Qed.

(** Drawing from a non-empty array yields one of its elements. *)
Lemma randomElement_returns {A : Type} (random : nat → Q) (arr : list A) (n : nat) :
  (0 <= random n)%Q → (random n < 1)%Q → (0 < length arr)%nat →
  ∃ x, arr !! Z.to_nat (Math_floor (random n * inject_Z (Z.of_nat (length arr)))) = Some x
       ∧ randomElement random arr n = Returns (Some x) (S n).
Proof.
  intros H0 H1 Hlen.
  pose proof (random_index_bounds (random n) (Z.of_nat (length arr)) H0 H1 ltac:(lia)) as Hb.
  destruct (js_index_is_Some arr _ Hb) as [Hidx [x Hx]].
  exists x. split; [exact Hx|].
  unfold randomElement, bind, Math_random, ret. rewrite Hidx, Hx. reflexivity.
Qed.

(** ** Progression selector *)

(** No table of the engine lists an inherited key. *)
Lemma tables_hold_no_inherited_key :
  Forall (λ key, progressionStyles !! key = None ∧ arpStyles !! key = None
                 ∧ motifs !! key = None ∧ vocalRanges !! key = None
                 ∧ scales !! key = None ∧ songTemplates !! key = None
                 ∧ patterns !! key = None) inheritedKeys.
Proof. repeat (apply Forall_cons; split; [repeat split; reflexivity|]). apply Forall_nil; exact I. Qed.

Lemma inheritedKey_true (key : string) : inheritedKey key = true ↔ key ∈ inheritedKeys.
Proof. unfold inheritedKey. apply bool_decide_eq_true. Qed.

Lemma inheritedKey_false (key : string) : inheritedKey key = false ↔ key ∉ inheritedKeys.
Proof. unfold inheritedKey. apply bool_decide_eq_false. Qed.

(** Looking up a key that is not inherited: the entry, or nothing. *)
Lemma js_get_plain {A : Type} (obj : gmap string A) (key : string) :
  inheritedKey key = false →
  js_get obj key = match obj !! key with Some a => Own a | None => Absent end.
Proof. intros Hkey. unfold js_get. rewrite Hkey. reflexivity. Qed.

Lemma js_get_progressionStyles_inherited (key : string) :
  inheritedKey key = true → js_get progressionStyles key = Inherited.
Proof.
  intros Hkey. pose proof tables_hold_no_inherited_key as Hall.
  rewrite Forall_forall in Hall.
  destruct (Hall key (proj1 (inheritedKey_true key) Hkey)) as (Hnone & _).
  unfold js_get. rewrite Hnone, Hkey. reflexivity.
Qed.

(** C3, counterexample.  With the draw [6/7] the POP list yields its seventh
    style ('Gen-Z Alternative'), which has no 'SOLO' entry but has a 'CHORUS'
    one.  The code answers the fixed default, not the Chorus list the
    fallback chain of the claim would give. *)
Lemma getChordProgression_skips_chorus :
  ∃ style,
    styles_POP !! 6%nat = Some style
    ∧ sections style !! "SOLO" = None
    ∧ run (getChordProgression (λ _, 6 # 7) "POP" "SOLO") = Some (Chords [0; 5; 3; 4])
    ∧ specFallbackChain style "SOLO" = [5; 2; 3; 4]
    ∧ run (getChordProgression (λ _, 6 # 7) "POP" "SOLO")
      ≠ Some (Chords (specFallbackChain style "SOLO")).
Proof.
  eexists. split; [reflexivity|]. repeat split; try reflexivity.
  vm_compute. discriminate.
Qed.

(** C3, as amended.  For a genre and a section that are no inherited keys
    and every draw in [[0, 1)], [getChordProgression] returns without
    throwing: the style is one of the genre's list, or of the POP list when
    the genre is unknown, and the result is that style's list for the
    section, or the fixed default [[0, 5, 3, 4]] when the style has no entry
    for it. *)
Theorem getChordProgression_total (random : nat → Q) (genreStyle section : string) :
  (∀ n, 0 <= random n ∧ random n < 1)%Q →
  inheritedKey genreStyle = false → inheritedKey section = false →
  ∃ selectedStyle,
    selectedStyle ∈ default styles_POP (progressionStyles !! genreStyle)
    ∧ run (getChordProgression random genreStyle section)
      = Some (Chords (default [0; 5; 3; 4] (sections selectedStyle !! section))).
Proof.
  intros Hrandom Hgenre Hsection. unfold run, getChordProgression.
  rewrite (js_get_plain progressionStyles genreStyle Hgenre).
  assert (0 < length (default styles_POP (progressionStyles !! genreStyle)))%nat as Hlen.
  { destruct (progressionStyles !! genreStyle) as [styles|] eqn:Hg; simpl.
    - eapply progressionStyles_nonempty; eassumption.
    - vm_compute. lia. }
  assert (∀ styles, (0 < length styles)%nat →
            ∃ selectedStyle,
              selectedStyle ∈ styles
              ∧ match progressionIn random styles section 0%nat with
                | Returns a _ => Some a
                | Throws _ => None
                end
                = Some (Chords (default [0; 5; 3; 4] (sections selectedStyle !! section))))
    as Hin.
  { intros styles Hpos. destruct (Hrandom 0%nat) as [H0 H1].
    destruct (randomElement_returns random styles 0 H0 H1 Hpos) as (style & Hstyle & Hrun).
    exists style. split; [exact (list_elem_of_lookup_2 _ _ _ Hstyle)|].
    unfold progressionIn, bind. rewrite Hrun.
    rewrite (js_get_plain (sections style) section Hsection).
    destruct (sections style !! section); reflexivity. }
  destruct (progressionStyles !! genreStyle) as [styles|]; apply Hin; exact Hlen.
Qed.

Lemma getChordProgression_total_witness :
  ∃ selectedStyle,
    selectedStyle ∈ styles_POP
    ∧ run (getChordProgression (λ _, 0%Q) "JAZZ" "DROP")
      = Some (Chords (default [0; 5; 3; 4] (sections selectedStyle !! "DROP"))).
Proof.
  destruct (getChordProgression_total (λ _, 0%Q) "JAZZ" "DROP") as (style & Hstyle & Hrun).
  - intros n. split; [apply Qle_refl | reflexivity].
  - reflexivity.
  - reflexivity.
  - exists style. split; [exact Hstyle | exact Hrun].
Defined.

(** What the amended claim leaves out.  For a genre that is an inherited
    key the call throws after one draw, whatever the section; for a section
    that is an inherited key, in a genre that is none, it returns the
    function or object found under the key, not a list. *)
Lemma getChordProgression_inherited (random : nat → Q) (genreStyle section : string)
    (n : nat) :
  (inheritedKey genreStyle = true →
   ∃ error, getChordProgression random genreStyle section n = Throws error)
  ∧ ((0 <= random n)%Q → (random n < 1)%Q →
     inheritedKey genreStyle = false → inheritedKey section = true →
     Forall (λ style, sections style !! section = None)
            (default styles_POP (progressionStyles !! genreStyle)) →
     getChordProgression random genreStyle section n = Returns ChordsBuiltIn (S n)).
Proof.
  split.
  - intros Hgenre. unfold getChordProgression.
    rewrite (js_get_progressionStyles_inherited genreStyle Hgenre).
    eexists. reflexivity.
  - intros H0 H1 Hgenre Hsection Hnone. unfold getChordProgression.
    rewrite (js_get_plain progressionStyles genreStyle Hgenre).
    assert (0 < length (default styles_POP (progressionStyles !! genreStyle)))%nat as Hlen.
    { destruct (progressionStyles !! genreStyle) as [styles|] eqn:Hg; simpl.
      - eapply progressionStyles_nonempty; eassumption.
      - vm_compute. lia. }
    assert (∀ styles, (0 < length styles)%nat →
              Forall (λ style, sections style !! section = None) styles →
              progressionIn random styles section n = Returns ChordsBuiltIn (S n)) as Hin.
    { intros styles Hpos Hall.
      destruct (randomElement_returns random styles n H0 H1 Hpos) as (style & Hstyle & Hrun).
      unfold progressionIn, bind. rewrite Hrun.
      rewrite Forall_forall in Hall.
      unfold js_get. rewrite (Hall style (list_elem_of_lookup_2 _ _ _ Hstyle)), Hsection.
      reflexivity. }
    destruct (progressionStyles !! genreStyle) as [styles|]; apply Hin; assumption.
Qed.

(** ** Arpeggiator *)

(** For a genre and a section that are no inherited keys [getArpPattern] is
    [null] exactly for 'INTRO' and 'OUTRO'.  For every other section, known
    or not, and every genre, known or not, it is a pattern: that of the
    remapped section in the genre's table (the POP table for an unknown
    genre), or else the genre's verse pattern, which every table has. *)
Lemma getArpPattern_null_iff (genre section : string) :
  inheritedKey genre = false → inheritedKey section = false →
  let genreStyles := default arp_POP (arpStyles !! genre) in
  let targetSection :=
    if bool_decide (section = "PRE_CHORUS") then "VERSE"
    else if bool_decide (section = "SOLO" ∨ section = "DROP") then "CHORUS"
    else section in
  (getArpPattern genre section = ArpNull ↔ section = "INTRO" ∨ section = "OUTRO")
  ∧ ∃ verse,
      genreStyles !! "VERSE" = Some verse
      ∧ getArpPattern genre section
        = if bool_decide (section = "INTRO" ∨ section = "OUTRO") then ArpNull
          else ArpPattern (default verse
                             (js_or (genreStyles !! targetSection)
                                    (js_or (genreStyles !! "VERSE")
                                           (genreStyles !! "CHORUS")))).
Proof.
  intros Hgenre Hsection genreStyles targetSection.
  assert (is_Some (genreStyles !! "VERSE")) as [verse Hverse].
  { subst genreStyles. destruct (arpStyles !! genre) as [gs|] eqn:Hg; simpl.
    - eapply arpStyles_have_verse; eassumption.
    - eexists. reflexivity. }
  assert (inheritedKey targetSection = false) as Htarget.
  { subst targetSection. repeat case_bool_decide; [reflexivity | reflexivity | exact Hsection]. }
  assert (arpStyleIn genreStyles targetSection
          = ArpPattern (default verse
                          (js_or (genreStyles !! targetSection)
                                 (js_or (genreStyles !! "VERSE") (genreStyles !! "CHORUS")))))
    as Hin.
  { unfold arpStyleIn. rewrite (js_get_plain genreStyles targetSection Htarget).
    destruct (genreStyles !! targetSection); [reflexivity|].
    rewrite Hverse. reflexivity. }
  assert (getArpPattern genre section
          = if bool_decide (section = "INTRO" ∨ section = "OUTRO") then ArpNull
            else arpStyleIn genreStyles targetSection) as Heq.
  { unfold getArpPattern. rewrite (js_get_plain arpStyles genre Hgenre).
    assert (∀ t, match match arpStyles !! genre with
                       | Some a => Own a
                       | None => Absent
                       end with
                 | Own gs => arpStyleIn gs t
                 | Inherited =>
                     if bool_decide (t ∈ sectionNames) then ArpUndefined else ArpNotModelled
                 | Absent => arpStyleIn arp_POP t
                 end = arpStyleIn genreStyles t) as Htable.
    { intros t. subst genreStyles. destruct (arpStyles !! genre); reflexivity. }
    rewrite Htable. subst targetSection.
    destruct (decide (section = "INTRO")) as [->|HnI]; [reflexivity|].
    destruct (decide (section = "OUTRO")) as [->|HnO]; [reflexivity|].
    rewrite (bool_decide_eq_false_2 (section = "INTRO")) by done.
    rewrite (bool_decide_eq_false_2 (section = "OUTRO")) by done.
    rewrite (bool_decide_eq_false_2 (section = "INTRO" ∨ section = "OUTRO")) by tauto.
    cbn [orb].
    destruct (decide (section = "PRE_CHORUS")) as [->|HnP]; [reflexivity|].
    rewrite (bool_decide_eq_false_2 (section = "PRE_CHORUS")) by done.
    destruct (decide (section = "SOLO")) as [->|HnS]; [reflexivity|].
    destruct (decide (section = "DROP")) as [->|HnD]; [reflexivity|].
    rewrite (bool_decide_eq_false_2 (section = "SOLO")) by done.
    rewrite (bool_decide_eq_false_2 (section = "DROP")) by done.
    rewrite (bool_decide_eq_false_2 (section = "SOLO" ∨ section = "DROP")) by tauto.
    reflexivity. }
  rewrite Hin in Heq.
  split.
  - rewrite Heq. case_bool_decide; split; try tauto; discriminate.
  - exists verse. split; [exact Hverse | exact Heq].
Qed.

(** C10 (code defect).  'constructor' is no genre of the arpeggio tables,
    yet the POP fallback is not reached for it: what the engine finds under
    that name is a function, which holds no pattern, and the result for a
    verse is [undefined], where another unknown genre gets the verse pattern
    of POP.  In a genre of the table, the section 'constructor' yields the
    function found under that name, not a pattern. *)
Theorem getArpPattern_misses_fallback :
  arpStyles !! "constructor" = None
  ∧ getArpPattern "constructor" "VERSE" = ArpUndefined
  ∧ (∃ verse, arp_POP !! "VERSE" = Some verse
              ∧ getArpPattern "NO_SUCH_GENRE" "VERSE" = ArpPattern verse)
  ∧ getArpPattern "POP" "constructor" = ArpBuiltIn.
Proof.
  split; [reflexivity|]. split; [reflexivity|]. split; [|reflexivity].
  eexists. split; reflexivity.
Qed.

(** ** Harmony analyzer *)

Lemma elem_of_allowedPCsOf (rootKey : Z) (chord : ChordDef) (pc : Z) :
  pc ∈ allowedPCsOf rootKey chord
  ↔ ∃ interval, interval ∈ intervals chord ∧ pc = (rootKey + interval) %% 12.
Proof.
  unfold allowedPCsOf. rewrite list_elem_of_fmap.
  split; intros (interval & H1 & H2); exists interval; split; assumption.
Qed.

(** The [forEach] counter counts the notes whose pitch class is allowed. *)
Lemma matchCount_filter (allowedPCs : list Z) (barNotes : list Note) (acc : Z) :
  foldl (λ matchCount note,
           if bool_decide (midi note %% 12 ∈ allowedPCs)
           then matchCount + 1 else matchCount) acc barNotes
  = acc + Z.of_nat (length (filter (λ note, midi note %% 12 ∈ allowedPCs) barNotes)).
Proof.
  revert acc. induction barNotes as [|note barNotes IH]; intros acc; simpl.
  - lia.
  - rewrite IH, filter_cons. case_bool_decide as Hpc.
    + rewrite decide_True by exact Hpc. simpl. lia.
    + rewrite decide_False by exact Hpc. reflexivity.
Qed.

(** For a chord definition that is not null, an empty bar scores 100, and
    a bar of [n > 0] notes of which [k] have their pitch class among
    [(rootKey + interval) % 12], for the intervals of the chord, scores
    [Math.round] of the double the code computes for [(k / n) * 100]. *)
Lemma analyzeBarHarmony_count (chord : ChordDef) (rootKey : Z) :
  score (analyzeBarHarmony [] (Some chord) rootKey) = 100
  ∧ ∀ (note : Note) (notes : list Note),
      let barNotes := note :: notes in
      let n := Z.of_nat (length barNotes) in
      let k := Z.of_nat (length (filter
                 (λ x, midi x %% 12
                       ∈ map (λ interval, (rootKey + interval) %% 12) (intervals chord))
                 barNotes)) in
      score (analyzeBarHarmony barNotes (Some chord) rootKey)
      = Math_round (js_mul (js_div (inject_Z k) (inject_Z n)) 100)
      ∧ 0 ≤ k ≤ n.
Proof.
  split; [reflexivity|].
  intros note notes barNotes n k. split.
  - unfold analyzeBarHarmony. rewrite bool_decide_eq_false_2 by discriminate.
    cbn [score]. rewrite matchCount_filter. reflexivity.
  - subst k n. split; [lia|]. apply inj_le, length_filter.
Qed.


(** ** Drum pattern engine *)




(** C4, counterexample.  Leaving a chorus for a verse, step 8 of the
    transition bar of a POP song is the steady-state kick and closed hat: no
    tom is played there. *)
Lemma chorus_exit_step8_is_steady :
  getDrumPattern "POP" "CHORUS" "VERSE" 8 16 true = [KICK; CHAT]
  ∧ getDrumPattern "POP" "CHORUS" "VERSE" 8 16 true
    = getDrumPattern "POP" "CHORUS" "VERSE" 8 16 false
  ∧ (HI_TOM ∉ getDrumPattern "POP" "CHORUS" "VERSE" 8 16 true)
  ∧ (MID_TOM ∉ getDrumPattern "POP" "CHORUS" "VERSE" 8 16 true)
  ∧ (LO_TOM ∉ getDrumPattern "POP" "CHORUS" "VERSE" 8 16 true).
Proof. repeat split; try reflexivity; compute_done. Qed.

(** C4, as amended.  For every genre, in a transition bar of 16 steps that
    leaves a chorus for a section other than chorus and outro, the tom
    cascade covers steps 12 to 15 only: high tom on 12, mid tom on 13, low tom
    on 14 and nothing on 15.  Steps 8 to 11 still get the steady-state
    pattern. *)
Theorem chorus_exit_fill (genre nextSection : string) (stepIndex : Z) :
  nextSection ≠ "CHORUS" → nextSection ≠ "OUTRO" → 8 ≤ stepIndex ≤ 15 →
  getDrumPattern genre "CHORUS" nextSection stepIndex 16 true
  = if stepIndex <? 12
    then getDrumPattern genre "CHORUS" nextSection stepIndex 16 false
    else if stepIndex =? 12 then [HI_TOM]
    else if stepIndex =? 13 then [MID_TOM]
    else if stepIndex =? 14 then [LO_TOM]
    else [].
Proof.
  intros HnC HnO Hstep. unfold getDrumPattern, transitionFill.
  rewrite (bool_decide_eq_false_2 (nextSection = "CHORUS")) by exact HnC.
  rewrite (bool_decide_eq_false_2 (nextSection = "OUTRO")) by exact HnO.
  generalize (default drums_POP (patterns !! genre)). intros pt.
  assert (stepIndex = 8 ∨ stepIndex = 9 ∨ stepIndex = 10 ∨ stepIndex = 11
          ∨ stepIndex = 12 ∨ stepIndex = 13 ∨ stepIndex = 14 ∨ stepIndex = 15)
    as Hcases by lia.
  destruct Hcases as [-> | [-> | [-> | [-> | [-> | [-> | [-> | ->]]]]]]]; reflexivity.
Qed.

Lemma chorus_exit_fill_witness :
  getDrumPattern "ROCK" "CHORUS" "VERSE" 13 16 true = [MID_TOM].
Proof.
  apply (chorus_exit_fill "ROCK" "VERSE" 13); [discriminate | discriminate | lia].
Defined.


(** The wizard asks for the pattern bar by bar with the step counted from
    the start of the bar, so the crash of a chorus falls on the first step of
    each of its bars: a POP song of two chorus bars has a crash at steps 0
    and 16. *)
Lemma crash_on_each_chorus_bar :
  filter (λ n, midi n = CRASH) (generateDrumsForWholeSong ["CHORUS"; "CHORUS"] 16 "POP")
  = [ {| midi := CRASH; time := 0; duration := 1; velocity := 0.9 |};
      {| midi := CRASH; time := 16; duration := 1; velocity := 0.9 |} ].
Proof. vm_compute. reflexivity. Qed.



(** ** Melody pitch selection, strategy A *)

Lemma elem_of_scaleTonesIn (scaleNotes : gset Z) (min max m : Z) :
  m ∈ scaleTonesIn scaleNotes min max ↔ min ≤ m ≤ max ∧ m ∈ scaleNotes.
Proof.
  unfold scaleTonesIn. rewrite list_elem_of_filter, elem_of_seqZ. intuition lia.
Qed.

Lemma elem_of_chordTonesIn (allowedPCs scaleTones : list Z) (m : Z) :
  m ∈ chordTonesIn allowedPCs scaleTones ↔ m %% 12 ∈ allowedPCs ∧ m ∈ scaleTones.
Proof. unfold chordTonesIn. rewrite list_elem_of_filter. reflexivity. Qed.

(** The chord tones are the in-range scale tones of an allowed pitch class,
    in ascending order. *)
Lemma chordTonesIn_filter (allowedPCs : list Z) (scaleNotes : gset Z) (min max : Z) :
  chordTonesIn allowedPCs (scaleTonesIn scaleNotes min max)
  = filter (λ m, m %% 12 ∈ allowedPCs ∧ m ∈ scaleNotes) (seqZ min (max - min + 1)).
Proof. unfold chordTonesIn, scaleTonesIn. apply list_filter_filter. Qed.

Lemma middle_is_Some {A : Type} (l : list A) :
  l ≠ [] → is_Some (l !! (length l / 2)%nat).
Proof.
  intros Hne. apply lookup_lt_is_Some_2.
  destruct l as [|x l]; [contradiction|].
  apply Nat.div_lt; simpl; lia.
Qed.

(** With a chord definition: if no pitch of [[min, max]] is a scale note,
    [pickSmoothNote] returns [null] without throwing and without drawing.
    If some pitch is, and the note starts a phrase or there is no previous
    note, it returns the middle element ([index floor(length / 2)]) of the
    in-range chord tones in ascending order (the scale notes whose pitch
    class is [(rootKey + interval) % 12] for an interval of the chord), or of
    the in-range scale tones when there is no chord tone in range. *)
Lemma pickSmoothNote_phrase_start (random : nat → Q) (lastMidi : Z)
    (chordDef : ChordDef) (rootKey : Z) (scaleNotes : gset Z) (min max : Z)
    (isStrongBeat isPhraseStart : bool) (n : nat) :
  let scaleTones := filter (λ m, m ∈ scaleNotes) (seqZ min (max - min + 1)) in
  let chordTones :=
    filter (λ m, m %% 12 ∈ map (λ interval, (rootKey + interval) %% 12) (intervals chordDef)
                 ∧ m ∈ scaleNotes)
           (seqZ min (max - min + 1)) in
  let result :=
    pickSmoothNote random lastMidi (Some chordDef) rootKey scaleNotes min max
                   isStrongBeat isPhraseStart n in
  ((∀ m, min ≤ m ≤ max → m ∉ scaleNotes) → result = Returns None n)
  ∧ ((∃ m, min ≤ m ≤ max ∧ m ∈ scaleNotes) →
     isPhraseStart = true ∨ lastMidi = -1 →
     ∃ note,
       result = Returns (Some note) n
       ∧ (if bool_decide (chordTones = [])
          then scaleTones !! (length scaleTones / 2)%nat = Some note
          else chordTones !! (length chordTones / 2)%nat = Some note)).
Proof.
  intros scaleTones chordTones result. subst result. unfold pickSmoothNote.
  rewrite chordTonesIn_filter.
  change (allowedPCsOf rootKey chordDef)
    with (map (λ interval, (rootKey + interval) %% 12) (intervals chordDef)).
  fold chordTones.
  change (scaleTonesIn scaleNotes min max) with scaleTones.
  split.
  - intros Hnone.
    assert (scaleTones = []) as ->.
    { apply elem_of_nil_inv. intros m Hm.
      apply (elem_of_scaleTonesIn scaleNotes min max) in Hm as [Hrange Hin].
      exact (Hnone m Hrange Hin). }
    reflexivity.
  - intros (m & Hrange & Hin) Hstart.
    assert (scaleTones ≠ []) as Hne.
    { intros Hnil. assert (m ∈ scaleTones) as Hm
        by (apply (elem_of_scaleTonesIn scaleNotes min max); split; assumption).
      rewrite Hnil in Hm. apply elem_of_nil in Hm. exact Hm. }
    rewrite bool_decide_eq_false_2
      by (intros Hlen; apply Hne, nil_length_inv; exact Hlen).
    assert (isPhraseStart || (lastMidi =? -1) = true) as ->.
    { destruct Hstart as [-> | ->]; [reflexivity | apply orb_true_r]. }
    destruct (decide (chordTones = [])) as [Hchord | Hchord].
    + rewrite (bool_decide_eq_true_2 (chordTones = [])) by exact Hchord.
      rewrite bool_decide_eq_false_2 by (rewrite Hchord; simpl; lia).
      destruct (middle_is_Some scaleTones Hne) as [note Hnote].
      exists note. rewrite Hnote. split; reflexivity.
    + rewrite (bool_decide_eq_false_2 (chordTones = [])) by exact Hchord.
      rewrite bool_decide_eq_true_2
        by (destruct chordTones; [contradiction | simpl; lia]).
      destruct (middle_is_Some chordTones Hchord) as [note Hnote].
      exists note. rewrite Hnote. split; reflexivity.
Qed.

(** C6 (code defect).  Without a chord definition ([params.chordDef] is
    [undefined], as [generateMelody] passes it for a bar whose chord index
    has no entry in the chord table of the scale) [pickSmoothNote] throws
    for every other argument, the empty range included: it reads
    [chordDef.intervals] before it looks at the range.  With a chord
    definition the same call on an empty range returns [null]. *)
Theorem pickSmoothNote_throws_without_chord (random : nat → Q) (lastMidi rootKey : Z)
    (scaleNotes : gset Z) (min max : Z) (isStrongBeat isPhraseStart : bool) (n : nat) :
  (∃ error,
     pickSmoothNote random lastMidi None rootKey scaleNotes min max
                    isStrongBeat isPhraseStart n = Throws error)
  ∧ ∀ chordDef,
      max < min →
      pickSmoothNote random lastMidi (Some chordDef) rootKey scaleNotes min max
                     isStrongBeat isPhraseStart n = Returns None n.
Proof.
  split; [eexists; reflexivity|].
  intros chordDef Hempty.
  apply (proj1 (pickSmoothNote_phrase_start random lastMidi chordDef rootKey scaleNotes
                  min max isStrongBeat isPhraseStart n)).
  intros m Hm. lia.
Qed.

(** ** Reasoning about generators *)

Lemma bind_Returns {A B : Type} (m : Gen A) (f : A → Gen B) (n n' : nat) (b : B) :
  bind m f n = Returns b n' → ∃ a n1, m n = Returns a n1 ∧ f a n1 = Returns b n'.
Proof.
  unfold bind. destruct (m n) as [a n1 | e]; [|discriminate].
  intros H. exists a, n1. split; [reflexivity | exact H].
Qed.

Lemma ret_Returns {A : Type} (a b : A) (n n' : nat) :
  ret a n = Returns b n' → a = b ∧ n = n'.
Proof. unfold ret. intros H. injection H as -> ->. split; reflexivity. Qed.

Lemma run_Some {A : Type} (m : Gen A) (a : A) :
  run m = Some a → ∃ n', m 0%nat = Returns a n'.
Proof.
  unfold run. destruct (m 0%nat) as [a' n' | e]; [|discriminate].
  intros H. injection H as ->. exists n'. reflexivity.
Qed.

Ltac gen_inv H :=
  lazymatch type of H with
  | bind _ _ _ = Returns _ _ =>
      let a := fresh "a" in let n1 := fresh "n" in
      let H1 := fresh "Hrun" in let H2 := fresh "Hk" in
      apply bind_Returns in H as (a & n1 & H1 & H2)
  | ret _ _ = Returns _ _ =>
      let E1 := fresh "E" in let E2 := fresh "E" in
      apply ret_Returns in H as [E1 E2]
  | throw _ _ = Returns _ _ => discriminate H
  end.

(** ** Rhythm patterns of [generateMelody] *)

Lemma motifs_positive (complexity : string) (list : list (list Z)) :
  motifs !! complexity = Some list → Forall (Forall (λ d, 0 < d)) list.
Proof.
  revert complexity list.
  change (map_Forall (λ (_ : string) (l : list (list Z)), Forall (Forall (λ d, 0 < d)) l)
                     motifs).
  compute_done.
Qed.

Lemma js_index_elem_of {A : Type} (arr : list A) (i : Z) (x : A) :
  js_index arr i = Some x → x ∈ arr.
Proof.
  unfold js_index. case_bool_decide; [|discriminate].
  apply list_elem_of_lookup_2.
Qed.

(** A rhythm that [generateMelodicRhythm] returns was drawn from the pool
    of the complexity, or from the MEDIUM pool. *)
Lemma generateMelodicRhythm_inv (random : nat → Q) (complexity : string)
    (n n' : nat) (mainRhythm : list RhythmEvent) :
  generateMelodicRhythm random complexity n = Returns mainRhythm n' →
  rhythmFrom random (default motifs_MEDIUM (motifs !! complexity)) n
  = Returns mainRhythm n'.
Proof.
  unfold generateMelodicRhythm, js_get.
  destruct (motifs !! complexity) as [motifList|]; [intros H; exact H|].
  destruct (inheritedKey complexity); [|intros H; exact H].
  intros H. gen_inv H. discriminate Hk.
Qed.

Lemma generateMelodicRhythm_nonneg (random : nat → Q) (complexity : string)
    (n n' : nat) (mainRhythm : list RhythmEvent) :
  generateMelodicRhythm random complexity n = Returns mainRhythm n' →
  nonnegDurations mainRhythm.
Proof.
  intros H. apply generateMelodicRhythm_inv in H. revert H. unfold rhythmFrom.
  assert (Forall (Forall (λ d, 0 < d)) (default motifs_MEDIUM (motifs !! complexity)))
    as Hpos.
  { destruct (motifs !! complexity) as [l|] eqn:Hc; simpl.
    - eapply motifs_positive; eassumption.
    - compute_done. }
  revert Hpos. generalize (default motifs_MEDIUM (motifs !! complexity)). intros list Hpos H.
  gen_inv H. unfold randomElement in Hrun. gen_inv Hrun. gen_inv Hk0. subst.
  destruct (js_index list _) as [base|] eqn:Hbase; [|discriminate Hk].
  gen_inv Hk. subst.
  apply js_index_elem_of in Hbase.
  rewrite Forall_forall in Hpos. specialize (Hpos base Hbase).
  unfold nonnegDurations. rewrite Forall_fmap.
  eapply Forall_impl; [exact Hpos|]. simpl. intros d Hd. lia.
Qed.

Lemma variateRhythmSimple_nonneg (pattern : list RhythmEvent) :
  nonnegDurations pattern → nonnegDurations (variateRhythmSimple pattern).
Proof.
  unfold nonnegDurations, variateRhythmSimple. intros H.
  destruct pattern as [|first p]; [constructor|].
  destruct (Z.leb_spec 4 (ev_duration first)) as [H4|_]; [|exact H].
  apply Forall_cons in H as [_ Hp].
  assert (0 ≤ ev_duration first `div` 2) by (apply Z.div_pos; lia).
  repeat (constructor; [simpl; assumption|]). exact Hp.
Qed.

(** The rhythm of a bar has no negative duration, unless the bar has no
    step at all. *)
Lemma rhythmForBar_nonneg (random : nat → Q) (state : State) (length b : Z)
    (currentSection : string) (mainRhythm pattern : list RhythmEvent) (n n' : nat) :
  nonnegDurations mainRhythm →
  rhythmForBar random state length b currentSection mainRhythm n = Returns pattern n' →
  stepsPerBar state ≤ 0 ∨ nonnegDurations pattern.
Proof.
  intros Hmain H. unfold rhythmForBar in H. gen_inv H. gen_inv Hk. subst.
  destruct (Z.le_gt_cases (stepsPerBar state) 0) as [Hspb | Hspb]; [left; exact Hspb|].
  right. case_bool_decide; [unfold nonnegDurations; compute_done|].
  destruct (b =? length - 1).
  { gen_inv Hrun. subst. constructor; [simpl; lia | constructor]. }
  destruct (b %% 4 =? 3).
  { gen_inv Hrun. gen_inv Hk. subst.
    constructor; [simpl; lia | constructor; [simpl; lia | constructor]]. }
  destruct (b %% 4 =? 2); gen_inv Hrun; subst.
  - apply variateRhythmSimple_nonneg. exact Hmain.
  - exact Hmain.
Qed.

(** ** Notes stay inside their bar *)

Lemma placeNotes_inBar (random : nat → Q) (state : State) (scaleNotes : gset Z)
    (targetMin targetMax currentBar : Z) (currentSection : string)
    (chordDef : option ChordDef) (positionInPhrase : Z)
    (pattern : list RhythmEvent) :
  ∀ (stepCursor lastMidi : Z) (newNotes : list Note) (n n' : nat)
    (res : Z * list Note),
    0 ≤ stepCursor →
    stepsPerBar state ≤ stepCursor ∨ nonnegDurations pattern →
    placeNotes random state scaleNotes targetMin targetMax currentBar currentSection
               chordDef positionInPhrase pattern stepCursor lastMidi newNotes n
    = Returns res n' →
    ∃ new, res.2 = newNotes ++ new ∧ Forall (inBar (stepsPerBar state) currentBar) new.
Proof.
  induction pattern as [|noteDef rest IH];
    intros stepCursor lastMidi newNotes n n' res Hcur Hpat H; simpl in H.
  - gen_inv H. subst. exists []. rewrite app_nil_r. split; [reflexivity | constructor].
  - destruct (Z.leb_spec (stepsPerBar state) stepCursor) as [Hend | Hin].
    { gen_inv H. subst. exists []. rewrite app_nil_r. split; [reflexivity | constructor]. }
    destruct Hpat as [Hbad | Hpat]; [lia|].
    apply Forall_cons in Hpat as [Hdur Hrest].
    set (dur := if stepsPerBar state <? stepCursor + ev_duration noteDef
                then stepsPerBar state - stepCursor else ev_duration noteDef) in *.
    assert (0 ≤ dur ∧ stepCursor + dur ≤ stepsPerBar state) as [Hdur0 Hfit].
    { subst dur. destruct (Z.ltb_spec (stepsPerBar state)
                             (stepCursor + ev_duration noteDef)); lia. }
    gen_inv H.
    assert (∃ mid, a.2 = newNotes ++ mid
                   ∧ Forall (inBar (stepsPerBar state) currentBar) mid)
      as (mid & Hmid & Hmid_in).
    { destruct (isRest noteDef); simpl in Hrun.
      - gen_inv Hrun. subst. exists []. rewrite app_nil_r. split; [reflexivity|constructor].
      - gen_inv Hrun. destruct a0 as [generatedMidi|].
        + destruct (generatedMidi =? 0); gen_inv Hk0; subst; simpl.
          * exists []. rewrite app_nil_r. split; [reflexivity|constructor].
          * eexists. split; [reflexivity|].
            constructor; [|constructor]. unfold inBar. simpl. lia.
        + gen_inv Hk0. subst. exists []. rewrite app_nil_r.
          split; [reflexivity|constructor]. }
    apply IH in Hk as (new & Hnew & Hnew_in); [| lia | right; exact Hrest].
    exists (mid ++ new). rewrite Hnew, Hmid, app_assoc. split; [reflexivity|].
    apply Forall_app. split; assumption.
Qed.

Lemma melodyBars_inBar (random : nat → Q) (state : State) (scaleNotes : gset Z)
    (targetMin targetMax startBar length : Z) (mainRhythm : list RhythmEvent)
    (bs : list Z) :
  nonnegDurations mainRhythm →
  ∀ (lastMidi : Z) (newNotes : list Note) (n n' : nat) (res : list Note),
    Forall (λ b, 0 ≤ b < length) bs →
    melodyBars random state scaleNotes targetMin targetMax startBar length mainRhythm
               bs lastMidi newNotes n
    = Returns res n' →
    ∃ new, res = newNotes ++ new
           ∧ Forall (λ note, ∃ b, 0 ≤ b < length
                                  ∧ inBar (stepsPerBar state) (startBar + b) note) new.
Proof.
  intros Hmain. induction bs as [|b bs IH];
    intros lastMidi newNotes n n' res Hbs H; simpl in H.
  - gen_inv H. subst. exists []. rewrite app_nil_r. split; [reflexivity | constructor].
  - destruct (totalBars state <=? startBar + b).
    { gen_inv H. subst. exists []. rewrite app_nil_r. split; [reflexivity | constructor]. }
    destruct (chordDegrees !! scaleName state) as [table|]; [|discriminate H].
    apply Forall_cons in Hbs as [Hb Hbs].
    gen_inv H. gen_inv Hk.
    pose proof (rhythmForBar_nonneg _ _ _ _ _ _ _ _ _ Hmain Hrun) as Hpat.
    apply placeNotes_inBar in Hrun0 as (mid & Hmid & Hmid_in); [| lia |].
    2:{ destruct Hpat as [Hspb | Hpat]; [left; lia | right; exact Hpat]. }
    apply IH in Hk0 as (new & Hnew & Hnew_in); [|exact Hbs].
    exists (mid ++ new). rewrite Hnew, Hmid, app_assoc. split; [reflexivity|].
    apply Forall_app. split; [|exact Hnew_in].
    eapply Forall_impl; [exact Hmid_in|]. intros note Hnote. exists b. split; assumption.
Qed.

Lemma generateMelody_inBar (random : nat → Q) (startBar length : Z)
    (complexity : string) (state : State) (n n' : nat) (notes : list Note) :
  generateMelody random startBar length complexity state n = Returns notes n' →
  Forall (λ note, ∃ b, 0 ≤ b < length
                       ∧ inBar (stepsPerBar state) (startBar + b) note) notes.
Proof.
  unfold generateMelody. destruct (inheritedKey (scaleName state)); [discriminate|].
  destruct (targetRange startBar state) as [targetMin targetMax].
  intros H. gen_inv H.
  apply generateMelodicRhythm_nonneg in Hrun.
  apply melodyBars_inBar in Hk as (new & -> & Hnew); [exact Hnew | exact Hrun |].
  apply Forall_forall. intros b Hb. apply elem_of_seqZ in Hb. lia.
Qed.

(** *** The Markov generator *)












(** ** When the generators return *)

Lemma pickBest_returns (random : nat → Q) (lastMidi : Z) (allowedPCs : list Z)
    (isStrongBeat : bool) (candidates : list Z) :
  ∀ (best : Z * option Q) (n : nat),
    ∃ best' n',
      pickBest random lastMidi allowedPCs isStrongBeat candidates best n
      = Returns best' n'
      ∧ (best'.1 = best.1 ∨ best'.1 ∈ candidates).
Proof.
  induction candidates as [|note candidates IH]; intros best n; simpl.
  - exists best, n. split; [reflexivity | left; reflexivity].
  - unfold bind, Math_random.
    match goal with
    | |- context [pickBest _ _ _ _ candidates ?b ?k] =>
        destruct (IH b k) as (best' & n' & Hrun & Hin)
    end.
    exists best', n'. split; [exact Hrun|].
    destruct (beats _ _); simpl in Hin; destruct Hin as [-> | Hin];
      [ right; apply list_elem_of_here | right; apply list_elem_of_further; exact Hin
      | left; reflexivity | right; apply list_elem_of_further; exact Hin ].
Qed.

(** With a chord definition [pickSmoothNote] never throws; it answers
    [null] only for an empty range and otherwise an in-range scale tone. *)
Lemma pickSmoothNote_returns (random : nat → Q) (lastMidi : Z) (chordDef : ChordDef)
    (rootKey : Z) (scaleNotes : gset Z) (min max : Z)
    (isStrongBeat isPhraseStart : bool) (n : nat) :
  ∃ r n',
    pickSmoothNote random lastMidi (Some chordDef) rootKey scaleNotes min max
                   isStrongBeat isPhraseStart n = Returns r n'
    ∧ match r with
      | None => scaleTonesIn scaleNotes min max = []
      | Some m => m ∈ scaleTonesIn scaleNotes min max
      end.
Proof.
  unfold pickSmoothNote.
  set (scaleTones := scaleTonesIn scaleNotes min max).
  set (chordTones := chordTonesIn (allowedPCsOf rootKey chordDef) scaleTones).
  case_bool_decide as Hlen.
  { exists None, n. split; [reflexivity | apply nil_length_inv; exact Hlen]. }
  assert (scaleTones ≠ []) as Hne by (intros Hnil; rewrite Hnil in Hlen; apply Hlen; reflexivity).
  destruct (isPhraseStart || (lastMidi =? -1)).
  - case_bool_decide as Hchord.
    + destruct (middle_is_Some chordTones) as [note Hnote].
      { intros Hnil. rewrite Hnil in Hchord. simpl in Hchord. lia. }
      exists (Some note), n. rewrite Hnote. split; [reflexivity|].
      apply list_elem_of_lookup_2 in Hnote.
      apply elem_of_chordTonesIn in Hnote as [_ Hnote]. exact Hnote.
    + destruct (middle_is_Some scaleTones Hne) as [note Hnote].
      exists (Some note), n. rewrite Hnote. split; [reflexivity|].
      apply list_elem_of_lookup_2 in Hnote. exact Hnote.
  - unfold bind.
    match goal with
    | |- context [pickBest _ _ _ _ scaleTones ?b n] =>
        destruct (pickBest_returns random lastMidi (allowedPCsOf rootKey chordDef)
                    isStrongBeat scaleTones b n) as (best' & n' & Hrun & Hin)
    end.
    rewrite Hrun. exists (Some best'.1), n'. split; [reflexivity|].
    destruct Hin as [-> | Hin]; [|exact Hin]. simpl.
    destruct scaleTones as [|t ts]; [contradiction|]. apply list_elem_of_here.
Qed.

Lemma placeNotes_returns (random : nat → Q) (state : State) (scaleNotes : gset Z)
    (targetMin targetMax currentBar : Z) (currentSection : string)
    (chordDef : ChordDef) (positionInPhrase : Z) (pattern : list RhythmEvent) :
  ∀ (stepCursor lastMidi : Z) (newNotes : list Note) (n : nat),
    ∃ res n',
      placeNotes random state scaleNotes targetMin targetMax currentBar currentSection
                 (Some chordDef) positionInPhrase pattern stepCursor lastMidi newNotes n
      = Returns res n'.
Proof.
  induction pattern as [|noteDef rest IH]; intros stepCursor lastMidi newNotes n;
    cbn [placeNotes].
  - eexists _, _. reflexivity.
  - destruct (stepsPerBar state <=? stepCursor); [eexists _, _; reflexivity|].
    unfold bind at 1.
    destruct (isRest noteDef); cbn [negb].
    + apply IH.
    + unfold bind at 1.
      match goal with
      | |- context [pickSmoothNote random ?l (Some ?c) ?r ?s ?a ?b ?x ?y n] =>
          destruct (pickSmoothNote_returns random l c r s a b x y n)
            as (generatedMidi & n1 & Hpick & _)
      end.
      rewrite Hpick.
      destruct generatedMidi as [generatedMidi|]; [destruct (generatedMidi =? 0)|];
        simpl; apply IH.
Qed.

Lemma rhythmForBar_returns (random : nat → Q) (state : State) (length b : Z)
    (currentSection : string) (mainRhythm : list RhythmEvent) (n : nat) :
  ∃ pattern n',
    rhythmForBar random state length b currentSection mainRhythm n = Returns pattern n'.
Proof.
  unfold rhythmForBar, bind.
  destruct (b =? length - 1); [eexists _, _; reflexivity|].
  destruct (b %% 4 =? 3); [eexists _, _; reflexivity|].
  destruct (b %% 4 =? 2); eexists _, _; reflexivity.
Qed.

Lemma harmonyScore_bounds (isChordTone isStrongBeat : bool) :
  -5 ≤ harmonyScore isChordTone isStrongBeat ≤ 15.
Proof. destruct isChordTone, isStrongBeat; simpl; lia. Qed.

Lemma isChordToneB_decide (allowedPCs : list Z) (note : Z) :
  isChordToneB allowedPCs note = bool_decide (note %% 12 ∈ allowedPCs).
Proof.
  unfold isChordToneB. generalize (note %% 12). intros pc.
  induction allowedPCs as [|a allowedPCs IH]; cbn [existsb].
  - symmetry. apply bool_decide_eq_false_2, not_elem_of_nil.
  - rewrite IH. destruct (Z.eqb_spec pc a) as [-> | Hne]; cbn [orb].
    + symmetry. apply bool_decide_eq_true_2, list_elem_of_here.
    + apply bool_decide_ext. rewrite elem_of_cons. intuition.
Qed.

(** The score of a candidate without its jitter, as [pickBest] computes it. *)
Lemma baseScore_flagged (lastMidi : Z) (allowedPCs : list Z) (isStrongBeat : bool) (c : Z) :
  baseScore lastMidi isStrongBeat (c, isChordToneB allowedPCs c)
  = proximityScore (Z.abs (c - lastMidi))
    + harmonyScore (bool_decide (c %% 12 ∈ allowedPCs)) isStrongBeat.
Proof. unfold baseScore. simpl. rewrite isChordToneB_decide. reflexivity. Qed.

Section PickBest.

Variable random : nat → Q.

Hypothesis random_range : ∀ n, (0 <= random n)%Q ∧ (random n < 1)%Q.
Variables (lastMidi : Z) (allowedPCs : list Z) (isStrongBeat : bool).

Lemma pickBest_bestOf (candidates : list Z) :
  ∀ (seen : list Z) (best best' : Z * option Q) (n n' : nat),
    bestOf lastMidi allowedPCs isStrongBeat seen best →
    pickBest random lastMidi allowedPCs isStrongBeat candidates best n = Returns best' n' →
    bestOf lastMidi allowedPCs isStrongBeat (seen ++ candidates) best'.
Proof.
  induction candidates as [|c candidates IH]; intros seen best best' n n' Hbest H; simpl in H.
  - gen_inv H. subst. rewrite app_nil_r. exact Hbest.
  - unfold bind, Math_random in H.
    replace (seen ++ c :: candidates) with ((seen ++ [c]) ++ candidates)
      by (rewrite <- app_assoc; reflexivity).
    eapply IH; [|exact H]. clear H IH.
    destruct (random_range n) as [Hj0 Hj1].
    set (score := (inject_Z (proximityScore (Z.abs (c - lastMidi))
                            + harmonyScore (bool_decide (c %% 12 ∈ allowedPCs)) isStrongBeat)
                   + random n * 8)%Q).
    assert (inject_Z (candidateScore lastMidi allowedPCs isStrongBeat c) <= score
            ∧ score < inject_Z (candidateScore lastMidi allowedPCs isStrongBeat c) + 8)%Q
      as [Hlo Hhi].
    { subst score. unfold candidateScore. rewrite baseScore_flagged. split; lra. }
    unfold bestOf in *. destruct best as [r [s|]]; simpl in *.
    + destruct Hbest as (Hr & Hs & Hall).
      destruct (Qlt_le_dec s score) as [Hbeat | Hkeep]; simpl.
      * split; [apply elem_of_app; right; apply list_elem_of_here|].
        split; [exact Hhi|]. intros c' Hc'. apply elem_of_app in Hc' as [Hc' | Hc'].
        -- specialize (Hall c' Hc'). lra.
        -- apply list_elem_of_singleton in Hc' as ->. exact Hlo.
      * split; [apply elem_of_app; left; exact Hr|].
        split; [exact Hs|]. intros c' Hc'. apply elem_of_app in Hc' as [Hc' | Hc'].
        -- exact (Hall c' Hc').
        -- apply list_elem_of_singleton in Hc' as ->. lra.
    + subst seen. simpl. split; [apply list_elem_of_here|]. split; [exact Hhi|].
      intros c' Hc'. apply list_elem_of_singleton in Hc' as ->. exact Hlo.
Qed.

(** The pick of the scoring loop is a candidate whose score without jitter
    is within 7 of every other one. *)
Lemma pickBest_winner (candidates : list Z) (first : Z) (best' : Z * option Q) (n n' : nat) :
  candidates ≠ [] →
  pickBest random lastMidi allowedPCs isStrongBeat candidates (first, None) n
  = Returns best' n' →
  best'.1 ∈ candidates
  ∧ ∀ c, c ∈ candidates →
         candidateScore lastMidi allowedPCs isStrongBeat c
         - candidateScore lastMidi allowedPCs isStrongBeat best'.1 ≤ 7.
Proof.
  intros Hne H. apply (pickBest_bestOf candidates [] (first, None)) in H; [|reflexivity].
  simpl in H. unfold bestOf in H. destruct best' as [r [s|]]; simpl in *.
  - destruct H as (Hr & Hs & Hall). split; [exact Hr|]. intros c Hc.
    specialize (Hall c Hc).
    assert (inject_Z (candidateScore lastMidi allowedPCs isStrongBeat c)
            < inject_Z (candidateScore lastMidi allowedPCs isStrongBeat r + 8))%Q as Hlt.
    { rewrite inject_Z_plus. change (inject_Z 8) with 8%Q. lra. }
    rewrite <- Zlt_Qlt in Hlt. lia.
  - contradiction.
Qed.

End PickBest.

Lemma allMotifs_positive :
  Forall (λ motif, motif ≠ [] ∧ Forall (λ d, 0 < d) motif) allMotifs.
Proof. compute_done. Qed.

Lemma motifs_in_allMotifs (complexity : string) (list : list (list Z)) :
  motifs !! complexity = Some list → Forall (λ motif, motif ∈ allMotifs) list.
Proof.
  revert complexity list.
  change (map_Forall (λ (_ : string) (l : list (list Z)),
                        Forall (λ motif, motif ∈ allMotifs) l) motifs).
  compute_done.
Qed.

(** The main rhythm of a request is one of the motifs of the pools. *)
Lemma generateMelodicRhythm_motif (random : nat → Q) (complexity : string)
    (n n' : nat) (mainRhythm : list RhythmEvent) :
  generateMelodicRhythm random complexity n = Returns mainRhythm n' →
  ∃ motif, motif ∈ allMotifs ∧ mainRhythm = toRhythm motif.
Proof.
  intros H. apply generateMelodicRhythm_inv in H. revert H. unfold rhythmFrom.
  assert (Forall (λ motif, motif ∈ allMotifs) (default motifs_MEDIUM (motifs !! complexity)))
    as Hall.
  { destruct (motifs !! complexity) as [l|] eqn:Hc; simpl.
    - eapply motifs_in_allMotifs; eassumption.
    - compute_done. }
  revert Hall. generalize (default motifs_MEDIUM (motifs !! complexity)). intros list Hall H.
  gen_inv H. unfold randomElement in Hrun. gen_inv Hrun. gen_inv Hk0. subst.
  destruct (js_index list _) as [base|] eqn:Hbase; [|discriminate Hk].
  gen_inv Hk. subst. apply js_index_elem_of in Hbase.
  rewrite Forall_forall in Hall. exists base. split; [apply Hall, Hbase | reflexivity].
Qed.

Lemma toRhythm_positive (motif : list Z) :
  motif ∈ allMotifs → toRhythm motif ≠ [] ∧ positiveNotes (toRhythm motif).
Proof.
  intros Hin. pose proof allMotifs_positive as Hall. rewrite Forall_forall in Hall.
  destruct (Hall motif Hin) as [Hne Hpos]. split.
  - destruct motif; [contradiction | discriminate].
  - unfold positiveNotes, toRhythm. rewrite Forall_fmap.
    eapply Forall_impl; [exact Hpos|]. simpl. intros d Hd. split; [exact Hd | reflexivity].
Qed.

Lemma positiveNotes_durations (pattern : list RhythmEvent) :
  positiveNotes pattern → positiveDurations pattern.
Proof. intros H. eapply Forall_impl; [exact H|]. intros e [He _]. exact He. Qed.

Lemma motifs_nonempty :
  map_Forall (λ (_ : string) (l : list (list Z)), (0 < length l)%nat) motifs.
Proof. compute_done. Qed.

Lemma generateMelodicRhythm_plain (random : nat → Q) (complexity : string) :
  inheritedKey complexity = false →
  generateMelodicRhythm random complexity
  = rhythmFrom random (default motifs_MEDIUM (motifs !! complexity)).
Proof.
  intros Hkey. unfold generateMelodicRhythm.
  rewrite (js_get_plain motifs complexity Hkey).
  destruct (motifs !! complexity); reflexivity.
Qed.

Lemma generateMelodicRhythm_returns (random : nat → Q) (complexity : string) (n : nat) :
  (∀ k, (0 <= random k)%Q ∧ (random k < 1)%Q) →
  inheritedKey complexity = false →
  ∃ mainRhythm, generateMelodicRhythm random complexity n = Returns mainRhythm (S n).
Proof.
  intros Hrange Hkey. rewrite (generateMelodicRhythm_plain random complexity Hkey).
  unfold rhythmFrom.
  assert (0 < length (default motifs_MEDIUM (motifs !! complexity)))%nat as Hlen.
  { destruct (motifs !! complexity) as [l|] eqn:Hc; simpl.
    - exact (motifs_nonempty complexity l Hc).
    - compute_done. }
  revert Hlen. generalize (default motifs_MEDIUM (motifs !! complexity)). intros list Hlen.
  destruct (Hrange n) as [H0 H1].
  destruct (randomElement_returns random list n H0 H1 Hlen) as (base & _ & Hbase).
  unfold bind. rewrite Hbase. eexists. reflexivity.
Qed.

(** C5 (code defect).  A request of four bars on [bluesState]: its last bar
    lies inside the song and is a chorus bar, and the range holds scale
    notes; yet [generateMelody] throws, for every sequence of draws and
    every complexity, and returns no note for the last bar nor for any
    other.  Bar 1 has the chord index 5, the chord table of Blues has five
    entries, and [pickSmoothNote] is called without a chord definition. *)
Theorem generateMelody_throws_without_chord :
  0 + (4 - 1) < totalBars bluesState
  ∧ sectionAt (barStructure bluesState) (0 + (4 - 1)) ≠ "INTRO"
  ∧ scaleTonesIn (getScaleNotes (rootKey bluesState) (scaleName bluesState))
                 (targetRange 0 bluesState).1 (targetRange 0 bluesState).2 ≠ []
  ∧ (∃ table, chordDegrees !! scaleName bluesState = Some table
              ∧ js_index (barChords bluesState) 1 = Some 5
              ∧ js_index table 5 = None)
  ∧ ∀ (random : nat → Q) (complexity : string),
      run (generateMelody random 0 4 complexity bluesState) = None.
Proof.
  split; [reflexivity|]. split; [vm_compute; discriminate|].
  split; [vm_compute; discriminate|].
  split; [eexists; split; [reflexivity|]; split; reflexivity|].
  intros random complexity. unfold run, generateMelody.
  change (inheritedKey (scaleName bluesState)) with false. cbv iota.
  change (targetRange 0 bluesState) with (0, 123). cbv iota beta.
  unfold bind at 1.
  destruct (generateMelodicRhythm random complexity 0%nat) as [mainRhythm n1 | error] eqn:Hmain;
    [|reflexivity].
  destruct (generateMelodicRhythm_motif _ _ _ _ _ Hmain) as (motif & Hmotif & ->).
  destruct (toRhythm_positive motif Hmotif) as [Hne Hpos].
  change (seqZ 0 4) with [0; 1; 2; 3].
  set (scaleNotes := getScaleNotes (rootKey bluesState) (scaleName bluesState)).
  cbn [melodyBars].
  change (totalBars bluesState <=? 0 + 0) with false. cbv iota.
  change (chordDegrees !! scaleName bluesState) with (Some chords_Blues).
  cbv iota beta.
  unfold bind at 1.
  destruct (rhythmForBar_returns random bluesState 4 0
              (sectionAt (barStructure bluesState) (0 + 0)) (toRhythm motif) n1)
    as (pattern0 & n2 & ->).
  unfold bind at 1.
  change (js_index chords_Blues (default 0 (js_index (barChords bluesState) (0 + 0))))
    with (chords_Blues !! 0%nat).
  change (chords_Blues !! 0%nat)
    with (Some {| name := "I7"; type := "Dom7"; intervals := [0; 4; 7]; func := "TONIC" |}).
  match goal with
  | |- context [placeNotes random ?st ?sn ?a ?b ?bar ?sec (Some ?cd) ?pos pattern0 ?c ?l ?nn n2] =>
      destruct (placeNotes_returns random st sn a b bar sec cd pos pattern0 c l nn n2)
        as (placed0 & n3 & ->)
  end.
  change (totalBars bluesState <=? 0 + 1) with false. cbv iota.
  change (js_index chords_Blues (default 0 (js_index (barChords bluesState) (0 + 1))))
    with (@None ChordDef).
  unfold bind at 1.
  assert (rhythmForBar random bluesState 4 1
            (sectionAt (barStructure bluesState) (0 + 1)) (toRhythm motif) n3
          = Returns (toRhythm motif) n3) as ->.
  { reflexivity. }
  unfold bind at 1.
  destruct motif as [|d motif]; [contradiction Hne; reflexivity|].
  cbn [toRhythm map placeNotes].
  change (stepsPerBar bluesState <=? 0) with false. cbv iota.
  unfold bind at 1. cbn [isRest negb]. unfold bind at 1.
  reflexivity.
Qed.

(** * Further properties of the engine *)

(** ** Scales *)

(** X1.  For a root in 0..11 and a scale name that is no inherited key,
    the set of [getScaleNotes] holds exactly the pitches 0..126 whose distance
    from the root, mod 12, is an offset of the scale; a scale name that is
    not in the table gives the major scale.  The set is closed under octaves
    as long as the pitch stays below 127. *)
Theorem getScaleNotes_members (rootKey : Z) (scaleName : string) (m : Z) :
  0 ≤ rootKey ≤ 11 → inheritedKey scaleName = false →
  (m ∈ getScaleNotes rootKey scaleName
   ↔ 0 ≤ m ≤ 126 ∧ (m - rootKey) `mod` 12 ∈ default scale_Major (scales !! scaleName))
  ∧ (scales !! scaleName = None → getScaleNotes rootKey scaleName = getScaleNotes rootKey "Major")
  ∧ (m ∈ getScaleNotes rootKey scaleName → m + 12 ≤ 126 →
     m + 12 ∈ getScaleNotes rootKey scaleName).
Proof.
  intros Hroot _.
  assert (∀ x, x ∈ getScaleNotes rootKey scaleName
               ↔ 0 ≤ x ≤ 126
                 ∧ (x - rootKey) `mod` 12 ∈ default scale_Major (scales !! scaleName))
    as Hmem.
  { intros x. split.
    - intros Hx. pose proof Hx as Hx'. apply elem_of_getScaleNotes in Hx' as [Hrange _].
      split; [lia|]. apply getScaleNotes_below_127; [exact Hroot | lia | exact Hx].
    - intros [Hrange Hx]. apply getScaleNotes_below_127; [exact Hroot | lia | exact Hx]. }
  split; [apply Hmem|]. split.
  - intros Hnone. unfold getScaleNotes. rewrite Hnone. reflexivity.
  - intros Hm Hle. apply Hmem in Hm as [Hrange Hm]. apply Hmem. split; [lia|].
    replace (m + 12 - rootKey) with (m - rootKey + 1 * 12) by lia.
    rewrite Z.mod_add by lia. exact Hm.
Qed.

Lemma getScaleNotes_members_witness :
  (64 ∈ getScaleNotes 0 "Major"
   ↔ 0 ≤ 64 ≤ 126 ∧ (64 - 0) `mod` 12 ∈ default scale_Major (scales !! "Major"))
  ∧ (scales !! "Major" = None → getScaleNotes 0 "Major" = getScaleNotes 0 "Major")
  ∧ (64 ∈ getScaleNotes 0 "Major" → 64 + 12 ≤ 126 → 64 + 12 ∈ getScaleNotes 0 "Major").
Proof. apply getScaleNotes_members; [lia | reflexivity]. Defined.

Lemma StronglySorted_filter_list {A : Type} (R : relation A) (P : A → Prop)
    `{!∀ x, Decision (P x)} (l : list A) :
  StronglySorted R l → StronglySorted R (filter P l).
Proof.
  induction 1 as [|x l Hl IH Hx]; [constructor|].
  rewrite filter_cons. destruct (decide (P x)); [|exact IH].
  constructor; [exact IH|]. apply Forall_forall. intros y Hy.
  apply list_elem_of_filter in Hy as [_ Hy]. rewrite Forall_forall in Hx. apply Hx, Hy.
Qed.

Lemma seqZ_ascending (m len : Z) : StronglySorted Z.lt (seqZ m len).
Proof.
  unfold seqZ. apply (StronglySorted_fmap _ lt); [intros x y Hxy; lia|].
  generalize (Z.to_nat len). intros k. generalize 0%nat.
  induction k as [|k IH]; intros start; simpl; constructor.
  - apply IH.
  - apply Forall_forall. intros i Hi. apply elem_of_seq in Hi. lia.
Qed.

(** X2.  For a scale name that is no inherited key, [getScaleNotesArr]
    lists, in strictly ascending order, exactly the pitches of
    [[minMidi, maxMidi]] that [getScaleNotes] holds; it is empty when
    [maxMidi < minMidi]. *)
Theorem getScaleNotesArr_ascending (root : Z) (scaleName : string) (minMidi maxMidi : Z) :
  inheritedKey scaleName = false →
  StronglySorted Z.lt (getScaleNotesArr root scaleName minMidi maxMidi)
  ∧ (∀ m, m ∈ getScaleNotesArr root scaleName minMidi maxMidi
          ↔ minMidi ≤ m ≤ maxMidi ∧ m ∈ getScaleNotes root scaleName)
  ∧ (maxMidi < minMidi → getScaleNotesArr root scaleName minMidi maxMidi = []).
Proof.
  intros _. unfold getScaleNotesArr. split; [|split].
  - apply StronglySorted_filter_list, seqZ_ascending.
  - intros m. rewrite list_elem_of_filter, elem_of_seqZ. intuition lia.
  - intros Hlt. rewrite seqZ_nil by lia. reflexivity.
Qed.

Lemma getScaleNotesArr_ascending_witness :
  StronglySorted Z.lt (getScaleNotesArr 0 "Minor" 55 84)
  ∧ (∀ m, m ∈ getScaleNotesArr 0 "Minor" 55 84
          ↔ 55 ≤ m ≤ 84 ∧ m ∈ getScaleNotes 0 "Minor")
  ∧ (84 < 55 → getScaleNotesArr 0 "Minor" 55 84 = []).
Proof. apply getScaleNotesArr_ascending. reflexivity. Defined.

(** ** Structure wizard *)

Lemma structure_loop_concat (parts : list Part) (acc : list string) :
  foldl (λ fullStructure p, fullStructure ++ replicate (Z.to_nat (len p)) (part_type p))
        acc parts
  = acc ++ concat (map (λ p, replicate (Z.to_nat (len p)) (part_type p)) parts).
Proof.
  revert acc. induction parts as [|p parts IH]; intros acc; simpl.
  - rewrite app_nil_r. reflexivity.
  - rewrite IH, <- app_assoc. reflexivity.
Qed.

Lemma elem_of_concat {A : Type} (x : A) (ls : list (list A)) :
  x ∈ concat ls ↔ ∃ l, x ∈ l ∧ l ∈ ls.
Proof.
  induction ls as [|l ls IH]; simpl.
  - split; [intros H; apply elem_of_nil in H; contradiction|].
    intros (l & _ & H). apply elem_of_nil in H. contradiction.
  - rewrite elem_of_app, IH. split.
    + intros [H | (l' & Hx & Hl')].
      * exists l. split; [exact H | apply list_elem_of_here].
      * exists l'. split; [exact Hx | apply list_elem_of_further, Hl'].
    + intros (l' & Hx & Hl'). apply elem_of_cons in Hl' as [-> | Hl'].
      * left. exact Hx.
      * right. exists l'. split; assumption.
Qed.

(** X3.  For a template key that is no inherited key,
    [generateSongStructure] decodes the run lengths of the template in
    order: the parts follow each other, each repeated [len] times (a part
    whose length is not positive gives no bar), so the structure has as many
    bars as the template counts, and every bar carries the section of a part
    of the template.  An unknown key gives the structure of 'POP_RADIO'. *)
Theorem generateSongStructure_runs (templateKey : string) :
  inheritedKey templateKey = false →
  let template := default template_POP_RADIO (songTemplates !! templateKey) in
  generateSongStructure templateKey
  = concat (map (λ p, replicate (Z.to_nat (len p)) (part_type p)) (structure template))
  ∧ length (generateSongStructure templateKey) = totalBarsInTemplate template
  ∧ (∀ sec, sec ∈ generateSongStructure templateKey →
            ∃ p, p ∈ structure template ∧ part_type p = sec ∧ 0 < len p)
  ∧ (songTemplates !! templateKey = None →
     generateSongStructure templateKey = generateSongStructure "POP_RADIO").
Proof.
  intros _ template.
  assert (generateSongStructure templateKey
          = concat (map (λ p, replicate (Z.to_nat (len p)) (part_type p))
                        (structure template))) as Heq.
  { unfold generateSongStructure. fold template. apply structure_loop_concat. }
  split; [exact Heq|]. split; [apply generateSongStructure_length|]. split.
  - intros sec Hsec. rewrite Heq in Hsec.
    apply elem_of_concat in Hsec as (run & Hin & Hrun).
    apply list_elem_of_fmap in Hrun as (p & -> & Hp).
    apply elem_of_replicate in Hin as [-> Hlen].
    exists p. split; [exact Hp|]. split; [reflexivity | lia].
  - intros Hnone. unfold generateSongStructure. rewrite Hnone. reflexivity.
Qed.

Lemma generateSongStructure_runs_witness :
  let template := default template_POP_RADIO (songTemplates !! "NO_SUCH_TEMPLATE") in
  generateSongStructure "NO_SUCH_TEMPLATE"
  = concat (map (λ p, replicate (Z.to_nat (len p)) (part_type p)) (structure template))
  ∧ length (generateSongStructure "NO_SUCH_TEMPLATE") = totalBarsInTemplate template
  ∧ (∀ sec, sec ∈ generateSongStructure "NO_SUCH_TEMPLATE" →
            ∃ p, p ∈ structure template ∧ part_type p = sec ∧ 0 < len p)
  ∧ (songTemplates !! "NO_SUCH_TEMPLATE" = None →
     generateSongStructure "NO_SUCH_TEMPLATE" = generateSongStructure "POP_RADIO").
Proof. apply generateSongStructure_runs. reflexivity. Defined.

Lemma style_chords_in_range :
  map_Forall (λ (_ : string) (styles : list ProgressionStyle),
     Forall (λ style,
        map_Forall (λ (_ : string) (chords : list Z),
                      chords ≠ [] ∧ Forall (λ c, 0 ≤ c ≤ 6) chords)
                   (sections style)) styles) progressionStyles.
Proof. compute_done. Qed.

Lemma getStyleByVibe_elem (genreKey : string) (vibeIndex : Z) (style : ProgressionStyle) :
  getStyleByVibe genreKey vibeIndex = Some style →
  style ∈ default styles_POP (progressionStyles !! genreKey).
Proof.
  assert (∀ styles, js_or (js_index styles vibeIndex) (js_index styles 0) = Some style →
                    style ∈ styles) as Hin.
  { intros styles H. destruct (js_index styles vibeIndex) as [st|] eqn:Hidx; simpl in H.
    - injection H as <-. eapply js_index_elem_of, Hidx.
    - eapply js_index_elem_of, H. }
  unfold getStyleByVibe, js_get.
  destruct (progressionStyles !! genreKey) as [styles|]; simpl.
  - apply Hin.
  - destruct (inheritedKey genreKey); [discriminate | apply Hin].
Qed.

Lemma table_style_sections (genreKey : string) (style : ProgressionStyle) :
  style ∈ default styles_POP (progressionStyles !! genreKey) →
  map_Forall (λ (_ : string) (chords : list Z),
                chords ≠ [] ∧ Forall (λ c, 0 ≤ c ≤ 6) chords) (sections style).
Proof.
  intros Hin.
  assert (Forall (λ style,
            map_Forall (λ (_ : string) (chords : list Z),
                          chords ≠ [] ∧ Forall (λ c, 0 ≤ c ≤ 6) chords)
                       (sections style))
                 (default styles_POP (progressionStyles !! genreKey))) as Hall.
  { destruct (progressionStyles !! genreKey) as [styles|] eqn:Hg; simpl.
    - exact (style_chords_in_range genreKey styles Hg).
    - exact (style_chords_in_range "POP" styles_POP eq_refl). }
  rewrite Forall_forall in Hall. apply Hall, Hin.
Qed.

Lemma sectionChordsFor_in_range (style : ProgressionStyle) (currentSection : string) :
  map_Forall (λ (_ : string) (chords : list Z),
                chords ≠ [] ∧ Forall (λ c, 0 ≤ c ≤ 6) chords) (sections style) →
  sectionChordsFor style currentSection ≠ []
  ∧ Forall (λ c, 0 ≤ c ≤ 6) (sectionChordsFor style currentSection).
Proof.
  intros Hall. unfold sectionChordsFor.
  destruct (sections style !! _) as [l|] eqn:Hl; [exact (Hall _ l Hl)|].
  destruct (sections style !! "CHORUS") as [l1|] eqn:H1; simpl; [exact (Hall _ l1 H1)|].
  destruct (sections style !! "VERSE") as [l2|] eqn:H2; simpl; [exact (Hall _ l2 H2)|].
  split; [discriminate|]. repeat constructor; lia.
Qed.

(** X4.  The "apply structure" handler, for every template, genre and vibe
    index: it gives each bar of the new structure one chord index, the
    element [b mod length] of the list its section resolves to in the style
    (Solo and Drop read the Chorus list), and every index it assigns lies in
    0..6, so it addresses an entry of each seven-chord table. *)
Theorem applyStructure_chords (templateKey genreKey : string) (vibeIndex : Z)
    (structure : list string) (chords : list Z) :
  applyStructure templateKey genreKey vibeIndex = Some (structure, chords) →
  ∃ style,
    getStyleByVibe genreKey vibeIndex = Some style
    ∧ structure = generateSongStructure templateKey
    ∧ length chords = length structure
    ∧ ∀ (b : nat) (sec : string),
        structure !! b = Some sec →
        ∃ c, chords !! b = Some c
             ∧ sectionChordsFor style sec
               !! (b mod length (sectionChordsFor style sec))%nat = Some c
             ∧ 0 ≤ c ≤ 6.
Proof.
  unfold applyStructure. intros H.
  destruct (songTemplates !! templateKey) as [t|]; [|discriminate].
  destruct (getStyleByVibe genreKey vibeIndex) as [style|] eqn:Hstyle; [|discriminate].
  simpl in H. injection H as <- <-.
  exists style. split; [reflexivity|]. split; [reflexivity|].
  split; [apply assignChords_length|].
  intros b sec Hb.
  destruct (sectionChordsFor_in_range style sec
              (table_style_sections genreKey style (getStyleByVibe_elem _ _ _ Hstyle)))
    as [Hne Hrange].
  rewrite (assignChords_lookup style _ b sec Hb Hne).
  destruct (lookup_lt_is_Some_2 (sectionChordsFor style sec)
              (b mod length (sectionChordsFor style sec))%nat) as [c Hc].
  { apply Nat.mod_upper_bound. destruct (sectionChordsFor style sec); [contradiction|].
    simpl. lia. }
  exists c. split; [exact Hc|]. split; [exact Hc|].
  rewrite Forall_forall in Hrange. apply Hrange. eapply list_elem_of_lookup_2, Hc.
Qed.

Lemma applyStructure_chords_witness :
  ∃ structure chords,
    applyStructure "POP_SHORT" "POP" 0 = Some (structure, chords)
    ∧ ∃ style,
        getStyleByVibe "POP" 0 = Some style
        ∧ structure = generateSongStructure "POP_SHORT"
        ∧ length chords = length structure
        ∧ ∀ (b : nat) (sec : string),
            structure !! b = Some sec →
            ∃ c, chords !! b = Some c
                 ∧ sectionChordsFor style sec
                   !! (b mod length (sectionChordsFor style sec))%nat = Some c
                 ∧ 0 ≤ c ≤ 6.
Proof.
  assert (is_Some (applyStructure "POP_SHORT" "POP" 0)) as [[structure chords] H]
    by (eexists; reflexivity).
  exists structure, chords. split; [exact H|].
  exact (applyStructure_chords "POP_SHORT" "POP" 0 structure chords H).
Defined.

(** X5.  For a genre that is no inherited key [getStyleByVibe] finds a
    style: the style at [vibeIndex] of the genre's list (the POP list for an
    unknown genre) when the index is inside the list, and the first style of
    the list otherwise. *)
Theorem getStyleByVibe_fallback (genreKey : string) (vibeIndex : Z) :
  inheritedKey genreKey = false →
  let styles := default styles_POP (progressionStyles !! genreKey) in
  ∃ first,
    styles !! 0%nat = Some first
    ∧ getStyleByVibe genreKey vibeIndex
      = Some (if bool_decide (0 ≤ vibeIndex < Z.of_nat (length styles))
              then default first (styles !! Z.to_nat vibeIndex) else first).
Proof.
  intros Hgenre styles.
  assert (0 < length styles)%nat as Hlen.
  { subst styles. destruct (progressionStyles !! genreKey) as [l|] eqn:Hg; simpl.
    - eapply progressionStyles_nonempty, Hg.
    - compute_done. }
  assert (getStyleByVibe genreKey vibeIndex
          = js_or (js_index styles vibeIndex) (js_index styles 0)) as ->.
  { unfold getStyleByVibe. rewrite (js_get_plain _ _ Hgenre). subst styles.
    destruct (progressionStyles !! genreKey); reflexivity. }
  clearbody styles.
  destruct styles as [|first rest]; [simpl in Hlen; lia|].
  exists first. split; [reflexivity|]. unfold js_index. cbn [length].
  destruct (decide (0 ≤ vibeIndex < Z.of_nat (S (length rest)))) as [Hin | Hout].
  - rewrite (bool_decide_eq_true_2 _ Hin), bool_decide_eq_true_2 by lia.
    destruct (lookup_lt_is_Some_2 (first :: rest) (Z.to_nat vibeIndex)) as [st Hst];
      [cbn [length]; lia|].
    rewrite Hst. reflexivity.
  - rewrite (bool_decide_eq_false_2 _ Hout).
    destruct (decide (0 ≤ vibeIndex)) as [Hnonneg | Hneg].
    + rewrite (bool_decide_eq_true_2 _ Hnonneg).
      rewrite lookup_ge_None_2 by (cbn [length]; lia). reflexivity.
    + rewrite (bool_decide_eq_false_2 _ Hneg). reflexivity.
Qed.

Lemma getStyleByVibe_fallback_witness :
  let styles := default styles_POP (progressionStyles !! "NO_SUCH_GENRE") in
  ∃ first,
    styles !! 0%nat = Some first
    ∧ getStyleByVibe "NO_SUCH_GENRE" 99
      = Some (if bool_decide (0 ≤ 99 < Z.of_nat (length styles))
              then default first (styles !! Z.to_nat 99) else first).
Proof. apply getStyleByVibe_fallback. reflexivity. Defined.

(** ** The note picker *)

(** X6.  [pickSmoothNote] throws when the chord definition is [undefined],
    and only then.  Given a chord definition it returns, whatever the draws:
    it answers [null] exactly when no pitch of [[min, max]] is a scale note,
    and every pitch it answers, at a phrase start or from the scoring loop,
    is a scale note of [[min, max]]. *)
Theorem pickSmoothNote_stays_in_scale (random : nat → Q) (lastMidi : Z)
    (chordDef : option ChordDef) (rootKey : Z) (scaleNotes : gset Z) (min max : Z)
    (isStrongBeat isPhraseStart : bool) (n : nat) :
  match chordDef with
  | None =>
      ∃ error,
        pickSmoothNote random lastMidi chordDef rootKey scaleNotes min max
                       isStrongBeat isPhraseStart n = Throws error
  | Some _ =>
      ∃ r n',
        pickSmoothNote random lastMidi chordDef rootKey scaleNotes min max
                       isStrongBeat isPhraseStart n = Returns r n'
        ∧ (r = None ↔ ∀ m, min ≤ m ≤ max → m ∉ scaleNotes)
        ∧ ∀ m, r = Some m → min ≤ m ≤ max ∧ m ∈ scaleNotes
  end.
Proof.
  destruct chordDef as [chordDef|]; [|eexists; reflexivity].
  destruct (pickSmoothNote_returns random lastMidi chordDef rootKey scaleNotes min max
              isStrongBeat isPhraseStart n) as (r & n' & Hrun & Hr).
  exists r, n'. split; [exact Hrun|]. split.
  - destruct r as [m|].
    + split; [discriminate|]. intros Hnone. apply elem_of_scaleTonesIn in Hr as [Hrange Hin].
      exfalso. exact (Hnone m Hrange Hin).
    + split; [|reflexivity]. intros _ m Hrange Hin.
      assert (m ∈ scaleTonesIn scaleNotes min max) as Hm
        by (apply elem_of_scaleTonesIn; split; assumption).
      rewrite Hr in Hm. apply elem_of_nil in Hm. exact Hm.
  - intros m ->. apply elem_of_scaleTonesIn in Hr. exact Hr.
Qed.

Lemma proximityScore_step (absDist : Z) : 1 ≤ absDist ≤ 2 → proximityScore absDist = 20.
Proof.
  intros H. unfold proximityScore.
  destruct (Z.eqb_spec absDist 0); [lia|].
  destruct (Z.leb_spec absDist 2); [reflexivity | lia].
Qed.

Lemma proximityScore_leap (absDist : Z) : 5 < absDist → proximityScore absDist ≤ -12.
Proof.
  intros H. unfold proximityScore.
  destruct (Z.eqb_spec absDist 0); [lia|].
  destruct (Z.leb_spec absDist 2); [lia|].
  destruct (Z.leb_spec absDist 4); [lia|].
  destruct (Z.leb_spec absDist 5); lia.
Qed.

(** X7.  After a previous note and away from a phrase start, when some
    scale note of the range lies one or two semitones from the previous
    pitch, the scoring loop never leaps: the pitch it picks is at most five
    semitones (a fourth) from the previous one, for every sequence of draws
    in [[0, 1)]. *)
Theorem pickSmoothNote_no_leap (random : nat → Q) (lastMidi : Z)
    (chordDef : ChordDef) (rootKey : Z) (scaleNotes : gset Z) (min max : Z)
    (isStrongBeat : bool) (n : nat) (step : Z) :
  (∀ k, (0 <= random k)%Q ∧ (random k < 1)%Q) →
  lastMidi ≠ -1 →
  min ≤ step ≤ max → step ∈ scaleNotes → 1 ≤ Z.abs (step - lastMidi) ≤ 2 →
  ∃ m n',
    pickSmoothNote random lastMidi (Some chordDef) rootKey scaleNotes min max
                   isStrongBeat false n = Returns (Some m) n'
    ∧ Z.abs (m - lastMidi) ≤ 5.
Proof.
  intros Hrandom Hlast Hrange Hscale Hstep.
  assert (step ∈ scaleTonesIn scaleNotes min max) as Hin
    by (apply elem_of_scaleTonesIn; split; assumption).
  destruct (pickSmoothNote_returns random lastMidi chordDef rootKey scaleNotes min max
              isStrongBeat false n) as (r & n' & Hrun & Hr).
  destruct r as [m|]; [|rewrite Hr in Hin; apply elem_of_nil in Hin; contradiction].
  exists m, n'. split; [exact Hrun|].
  unfold pickSmoothNote in Hrun.
  assert (scaleTonesIn scaleNotes min max ≠ []) as Hne
    by (intros Hnil; rewrite Hnil in Hin; apply elem_of_nil in Hin; exact Hin).
  rewrite bool_decide_eq_false_2 in Hrun by (intros Hlen; apply Hne, nil_length_inv, Hlen).
  destruct (Z.eqb_spec lastMidi (-1)) as [|_]; [contradiction|]. simpl in Hrun.
  gen_inv Hrun. gen_inv Hk. injection E as <-.
  apply (pickBest_winner random Hrandom) in Hrun0 as [_ Hwin]; [|exact Hne].
  specialize (Hwin step Hin). unfold candidateScore in Hwin.
  rewrite !baseScore_flagged in Hwin.
  rewrite (proximityScore_step _ Hstep) in Hwin.
  pose proof (harmonyScore_bounds
                (bool_decide (step %% 12 ∈ allowedPCsOf rootKey chordDef)) isStrongBeat).
  pose proof (harmonyScore_bounds
                (bool_decide (a.1 %% 12 ∈ allowedPCsOf rootKey chordDef)) isStrongBeat).
  destruct (Z.le_gt_cases (Z.abs (a.1 - lastMidi)) 5) as [Hle | Hgt]; [exact Hle|].
  pose proof (proximityScore_leap _ Hgt). lia.
Qed.

Lemma pickSmoothNote_no_leap_witness :
  ∃ m n',
    pickSmoothNote (λ _, 1 # 2)%Q 60 (Some {| name := "I"; type := "Major"; intervals := [0; 4; 7]; func := "TONIC" |}) 0 (getScaleNotes 0 "Major")
                   48 84 true false 0%nat = Returns (Some m) n'
    ∧ Z.abs (m - 60) ≤ 5.
Proof.
  apply (pickSmoothNote_no_leap (λ _, 1 # 2)%Q 60 {| name := "I"; type := "Major"; intervals := [0; 4; 7]; func := "TONIC" |} 0
           (getScaleNotes 0 "Major") 48 84 true 0%nat 62).
  - intros k. split; [discriminate | reflexivity].
  - lia.
  - lia.
  - compute_done.
  - simpl. lia.
Defined.

(** ** Drum patterns *)

Lemma pushIf_cases (c : bool) (x : Z) : pushIf c x = [] ∨ pushIf c x = [x].
Proof. destruct c; [right | left]; reflexivity. Qed.

Ltac split_ifs :=
  repeat match goal with
         | |- context [pushIf ?c ?x] => destruct (pushIf_cases c x) as [-> | ->]
         | |- context [if ?c then _ else _] => destruct c
         end.

Lemma basePattern_drums (genre currentSection : string) (pt : DrumTable) (s stepIndex : Z) :
  NoDup (basePattern genre currentSection pt s stepIndex)
  ∧ Forall (λ d, d ∈ [KICK; SNARE; CHAT; OHAT; CRASH; LO_TOM; MID_TOM; HI_TOM])
           (basePattern genre currentSection pt s stepIndex).
Proof.
  unfold basePattern. destruct (bool_decide (currentSection = "PRE_CHORUS")).
  { split_ifs; split; compute_done. }
  match goal with
  | |- context [?k ++ ?sn ++ ?h ++ pushIf ?c CRASH] =>
      assert (k = [] ∨ k = [KICK]) as Hk by (split_ifs; auto);
      assert (sn = [] ∨ sn = [SNARE]) as Hsn by (split_ifs; auto);
      assert (h = [] ∨ h = [CHAT] ∨ h = [OHAT]) as Hh by (split_ifs; auto);
      destruct Hk as [-> | ->], Hsn as [-> | ->], Hh as [-> | [-> | ->]],
               (pushIf_cases c CRASH) as [-> | ->]
  end; split; compute_done.
Qed.

Lemma fill_steps (s : Z) :
  s ∈ [8; 9; 10; 11; 12; 13; 14; 15]
  ∨ ((s =? 8) = false ∧ (s =? 9) = false ∧ (s =? 10) = false ∧ (s =? 11) = false
     ∧ (s =? 12) = false ∧ (s =? 13) = false ∧ (s =? 14) = false ∧ (s =? 15) = false).
Proof.
  destruct (decide (8 ≤ s ≤ 15)) as [Hin | Hout].
  - left. assert (s = 8 ∨ s = 9 ∨ s = 10 ∨ s = 11 ∨ s = 12 ∨ s = 13 ∨ s = 14 ∨ s = 15)
      as Hs by lia.
    repeat (destruct Hs as [-> | Hs]; [compute_done|]). subst s. compute_done.
  - right. repeat split; apply Z.eqb_neq; lia.
Qed.

Ltac prune_decisions :=
  repeat (cbn [orb andb negb pushIf app];
          match goal with
          | |- context [if bool_decide ?P then _ else _] => destruct (bool_decide P)
          | |- context [bool_decide ?P || _] => destruct (bool_decide P)
          | |- context [bool_decide ?P && _] => destruct (bool_decide P)
          end).

Lemma transitionFill_drums (genre currentSection nextSection : string) (s : Z)
    (notes : list Z) :
  transitionFill genre currentSection nextSection s = Some notes →
  NoDup notes
  ∧ Forall (λ d, d ∈ [KICK; SNARE; CHAT; OHAT; CRASH; LO_TOM; MID_TOM; HI_TOM]) notes.
Proof.
  unfold transitionFill, buildupFill, buildupFallback.
  destruct (fill_steps s) as [Hs | (H8 & H9 & H10 & H11 & H12 & H13 & H14 & H15)].
  - repeat (apply elem_of_cons in Hs as [-> | Hs];
            [prune_decisions; cbn; intros H; first [discriminate H | injection H as <-];
             split; compute_done|]).
    apply elem_of_nil in Hs. contradiction.
  - rewrite H8, H9, H10, H11, H12, H13, H14, H15.
    destruct (12 <=? s), (14 <=? s), (8 <=? s), (s %% 2 =? 0);
      prune_decisions; cbn; intros H; first [discriminate H | injection H as <-];
      split; compute_done.
Qed.

Lemma getDrumPattern_pitches (genre currentSection nextSection : string)
    (stepIndex stepsPerBar : Z) (isTransition : bool) :
  NoDup (getDrumPattern genre currentSection nextSection stepIndex stepsPerBar isTransition)
  ∧ Forall (λ d, d ∈ [KICK; SNARE; CHAT; OHAT; CRASH; LO_TOM; MID_TOM; HI_TOM])
      (getDrumPattern genre currentSection nextSection stepIndex stepsPerBar isTransition).
Proof.
  unfold getDrumPattern.
  destruct (stepsPerBar =? 0); [split; constructor|].
  destruct ((16 * stepIndex) `mod` stepsPerBar =? 0).
  - rewrite andb_true_r. destruct isTransition; [|apply basePattern_drums].
    destruct (transitionFill genre currentSection nextSection _) as [fill|] eqn:Hfill.
    + eapply transitionFill_drums, Hfill.
    + apply basePattern_drums.
  - rewrite andb_false_r. split; constructor.
Qed.

(** X8.  For a genre that is no inherited key, and whatever the other
    arguments, [getDrumPattern] answers a list without repetition of the
    eight drum pitches of the engine (kick 36, snare 38, closed hat 42, open
    hat 46, crash 49 and the toms 41, 45, 48); a step that does not fall on
    the sixteenth-note grid of the bar gets nothing, and so does every step
    when [stepsPerBar] is 0. *)
Theorem getDrumPattern_drums (genre currentSection nextSection : string)
    (stepIndex stepsPerBar : Z) (isTransition : bool) :
  inheritedKey genre = false →
  let notes :=
    getDrumPattern genre currentSection nextSection stepIndex stepsPerBar isTransition in
  NoDup notes
  ∧ Forall (λ d, d ∈ [KICK; SNARE; CHAT; OHAT; CRASH; LO_TOM; MID_TOM; HI_TOM]) notes
  ∧ ((16 * stepIndex) `mod` stepsPerBar ≠ 0 ∨ stepsPerBar = 0 → notes = []).
Proof.
  intros _ notes.
  destruct (getDrumPattern_pitches genre currentSection nextSection stepIndex stepsPerBar
              isTransition) as [Hnodup Hall].
  split; [exact Hnodup|]. split; [exact Hall|].
  subst notes. unfold getDrumPattern. intros [Hoff | ->]; [|reflexivity].
  destruct (stepsPerBar =? 0); [reflexivity|].
  destruct (Z.eqb_spec ((16 * stepIndex) `mod` stepsPerBar) 0) as [Hgrid | _];
    [contradiction|].
  rewrite andb_false_r. reflexivity.
Qed.

Lemma getDrumPattern_drums_witness :
  let notes := getDrumPattern "ROCK" "CHORUS" "VERSE" 8 16 true in
  NoDup notes
  ∧ Forall (λ d, d ∈ [KICK; SNARE; CHAT; OHAT; CRASH; LO_TOM; MID_TOM; HI_TOM]) notes
  ∧ ((16 * 8) `mod` 16 ≠ 0 ∨ 16 = 0 → notes = []).
Proof. apply getDrumPattern_drums. reflexivity. Defined.

(** X9.  In steady state a genre that has no row table and is no inherited
    key plays the rows of POP: its pattern is that of POP at every step. *)
Theorem getDrumPattern_unknown_genre (genre currentSection nextSection : string)
    (stepIndex stepsPerBar : Z) :
  inheritedKey genre = false →
  patterns !! genre = None →
  getDrumPattern genre currentSection nextSection stepIndex stepsPerBar false
  = getDrumPattern "POP" currentSection nextSection stepIndex stepsPerBar false.
Proof.
  intros _ Hnone. unfold getDrumPattern. rewrite Hnone. cbn [andb].
  destruct (stepsPerBar =? 0); [reflexivity|].
  destruct ((16 * stepIndex) `mod` stepsPerBar =? 0); [|reflexivity].
  unfold basePattern.
  assert (genre ≠ "TECHNO") as Hgenre by (intros ->; discriminate Hnone).
  rewrite (bool_decide_eq_false_2 (genre = "TECHNO")) by exact Hgenre.
  rewrite (bool_decide_eq_false_2 ("POP" = "TECHNO")) by discriminate.
  reflexivity.
Qed.

Lemma getDrumPattern_unknown_genre_witness :
  getDrumPattern "JAZZ" "VERSE" "VERSE" 4 16 false
  = getDrumPattern "POP" "VERSE" "VERSE" 4 16 false.
Proof. apply getDrumPattern_unknown_genre; reflexivity. Defined.

(** ** Tracks *)

Lemma elem_of_addNoteToTrack (notes : list Note) (n m : Note) :
  m ∈ addNoteToTrack notes n
  ↔ m = n ∨ (m ∈ notes ∧ (midi m ≠ midi n ∨ time m ≠ time n)).
Proof.
  unfold addNoteToTrack. rewrite elem_of_app, list_elem_of_filter, list_elem_of_singleton.
  tauto.
Qed.

Lemma addNoteToTrack_keys (notes : list Note) (n : Note) :
  NoDup (map (λ m, (midi m, time m)) notes) →
  NoDup (map (λ m, (midi m, time m)) (addNoteToTrack notes n)).
Proof.
  intros Hnodup. unfold addNoteToTrack. rewrite map_app. apply NoDup_app. split; [|split].
  - induction notes as [|x notes IH]; [constructor|].
    simpl in Hnodup. apply NoDup_cons in Hnodup as [Hx Hnodup].
    rewrite filter_cons. destruct (decide _); [|apply IH, Hnodup].
    simpl. apply NoDup_cons. split; [|apply IH, Hnodup].
    intros Hin. apply Hx. apply list_elem_of_fmap in Hin as (y & Hy & Hin).
    apply list_elem_of_filter in Hin as [_ Hin].
    apply list_elem_of_fmap. exists y. split; assumption.
  - intros key Hkey Hn. simpl in Hn. apply list_elem_of_singleton in Hn as ->.
    apply list_elem_of_fmap in Hkey as (y & Hy & Hin).
    apply list_elem_of_filter in Hin as [Hdiff _]. injection Hy as Hmidi Htime.
    destruct Hdiff as [Hdiff | Hdiff]; apply Hdiff; congruence.
  - simpl. apply NoDup_singleton.
Qed.

(** X10.  [addNoteToTrack] on a track that exists: the new note is on the
    track afterwards, a note already there is kept exactly when its pitch or
    its start differs from the new note's, so the track grows by at most one
    note, and a track on which no two notes share pitch and start stays
    such a track.  Adding the same note twice is adding it once. *)
Theorem addNoteToTrack_replaces (notes : list Note) (n : Note) :
  n ∈ addNoteToTrack notes n
  ∧ (∀ m, m ∈ addNoteToTrack notes n
          ↔ m = n ∨ (m ∈ notes ∧ (midi m ≠ midi n ∨ time m ≠ time n)))
  ∧ (length (addNoteToTrack notes n) ≤ S (length notes))%nat
  ∧ (NoDup (map (λ m, (midi m, time m)) notes) →
     NoDup (map (λ m, (midi m, time m)) (addNoteToTrack notes n)))
  ∧ addNoteToTrack (addNoteToTrack notes n) n = addNoteToTrack notes n.
Proof.
  split; [apply elem_of_addNoteToTrack; left; reflexivity|].
  split; [intros m; apply elem_of_addNoteToTrack|].
  split.
  { unfold addNoteToTrack. rewrite length_app. simpl.
    pose proof (length_filter (λ m, midi m ≠ midi n ∨ time m ≠ time n) notes). lia. }
  split; [apply addNoteToTrack_keys|].
  unfold addNoteToTrack. rewrite filter_app. f_equal.
  - rewrite filter_cons, filter_nil.
    destruct (decide (midi n ≠ midi n ∨ time n ≠ time n)) as [[H | H] | _];
      [contradiction | contradiction |].
    rewrite app_nil_r.
    induction notes as [|x notes IH]; [reflexivity|].
    rewrite filter_cons. destruct (decide (midi x ≠ midi n ∨ time x ≠ time n)) as [Hx | Hx].
    + rewrite filter_cons. destruct (decide _); [|contradiction]. f_equal. exact IH.
    + exact IH.
Qed.

Lemma foldl_invariant {A B : Type} (I : A → Prop) (Q : B → Prop) (f : A → B → A) :
  (∀ a b, I a → Q b → I (f a b)) →
  ∀ (l : list B) (a : A), Forall Q l → I a → I (foldl f a l).
Proof.
  intros Hstep l. induction l as [|b l IH]; intros a Hl Ha; simpl; [exact Ha|].
  apply Forall_cons in Hl as [Hb Hl]. apply IH; [exact Hl|]. apply Hstep; assumption.
Qed.

Lemma drumHit_velocity (drumGenre : string) (midi time : Z) :
  (0 < velocity (drumHit drumGenre midi time))%Q
  ∧ (velocity (drumHit drumGenre midi time) <= 1)%Q.
Proof.
  unfold drumHit. cbn [velocity].
  destruct (midi =? 36), (midi =? 42), (bool_decide (drumGenre = "LOFI"));
    split; vm_compute; reflexivity || discriminate.
Qed.

(** X11.  The drum track the wizard writes for a song of [length
    barStructure] bars: every hit is one of the eight drum pitches, lasts one
    step, starts inside the song, and has a velocity in [(0, 1]]; no two hits
    share pitch and step. *)
Theorem generateDrumsForWholeSong_hits (barStructure : list string) (stepsPerBar : Z)
    (genre : string) :
  let notes := generateDrumsForWholeSong barStructure stepsPerBar genre in
  NoDup (map (λ m, (midi m, time m)) notes)
  ∧ Forall (λ hit,
       midi hit ∈ [KICK; SNARE; CHAT; OHAT; CRASH; LO_TOM; MID_TOM; HI_TOM]
       ∧ duration hit = 1
       ∧ 0 ≤ time hit < Z.of_nat (length barStructure) * stepsPerBar
       ∧ (0 < velocity hit)%Q ∧ (velocity hit <= 1)%Q) notes.
Proof.
  intros notes. subst notes. unfold generateDrumsForWholeSong.
  set (drumGenre := if bool_decide (genre = "") then "POP" else genre).
  set (I := λ notes : list Note,
         NoDup (map (λ m, (midi m, time m)) notes)
         ∧ Forall (λ hit,
              midi hit ∈ [KICK; SNARE; CHAT; OHAT; CRASH; LO_TOM; MID_TOM; HI_TOM]
              ∧ duration hit = 1
              ∧ 0 ≤ time hit < Z.of_nat (length barStructure) * stepsPerBar
              ∧ (0 < velocity hit)%Q ∧ (velocity hit <= 1)%Q) notes).
  change (I (foldl
               (λ notes bar,
                  foldl (λ notes s,
                           foldl (λ notes midi,
                                    addNoteToTrack notes
                                      (drumHit drumGenre midi (Z.of_nat bar * stepsPerBar + s)))
                                 notes
                                 (getDrumPattern drumGenre
                                    (default "" (barStructure !! bar))
                                    (if bool_decide (bar < length barStructure - 1)%nat
                                     then default "" (barStructure !! S bar) else "OUTRO")
                                    s stepsPerBar
                                    (negb (bool_decide
                                             (default "" (barStructure !! bar)
                                              = (if bool_decide (bar < length barStructure - 1)%nat
                                                 then default "" (barStructure !! S bar)
                                                 else "OUTRO")))
                                     || bool_decide (bar = (length barStructure - 1)%nat))))
                        notes (seqZ 0 stepsPerBar))
               [] (seq 0 (length barStructure)))).
  apply (foldl_invariant I (λ bar, (bar < length barStructure)%nat)).
  - intros notes bar Hnotes Hbar.
    apply (foldl_invariant I (λ s, 0 ≤ s < stepsPerBar)); [| |exact Hnotes].
    + intros notes1 s Hnotes1 Hs.
      match goal with
      | |- I (foldl _ _ ?hits) =>
          apply (foldl_invariant I
                   (λ d, d ∈ [KICK; SNARE; CHAT; OHAT; CRASH; LO_TOM; MID_TOM; HI_TOM]));
            [| apply getDrumPattern_pitches | exact Hnotes1]
      end.
      intros notes2 d [Hnodup Hall] Hd. split.
      * apply addNoteToTrack_keys, Hnodup.
      * unfold addNoteToTrack. apply Forall_app. split.
        -- apply Forall_forall. intros x Hx. apply list_elem_of_filter in Hx as [_ Hx].
           rewrite Forall_forall in Hall. apply Hall, Hx.
        -- apply Forall_singleton. split; [exact Hd|]. split; [reflexivity|].
           split; [cbn [time drumHit]; nia|]. apply drumHit_velocity.
    + apply Forall_forall. intros s Hs. apply elem_of_seqZ in Hs. lia.
  - apply Forall_forall. intros bar Hbar. apply elem_of_seq in Hbar. lia.
  - split; constructor.
Qed.

(** ** Helper methods *)

Lemma closest_fold (target : Z) (rest : list Z) :
  ∀ (seen : list Z) (prev : Z),
    prev ∈ seen →
    (∀ o, o ∈ seen → Z.abs (prev - target) ≤ Z.abs (o - target)) →
    (∀ i o, seen !! i = Some o → Z.abs (o - target) = Z.abs (prev - target) →
            ∃ j, (j ≤ i)%nat ∧ seen !! j = Some prev) →
    let r := foldl (λ prev curr,
                      if Z.abs (curr - target) <? Z.abs (prev - target) then curr else prev)
                   prev rest in
    r ∈ seen ++ rest
    ∧ (∀ o, o ∈ seen ++ rest → Z.abs (r - target) ≤ Z.abs (o - target))
    ∧ (∀ i o, (seen ++ rest) !! i = Some o → Z.abs (o - target) = Z.abs (r - target) →
              ∃ j, (j ≤ i)%nat ∧ (seen ++ rest) !! j = Some r).
Proof.
  induction rest as [|curr rest IH]; intros seen prev Hin Hmin Hfirst; cbn [foldl].
  - rewrite app_nil_r. split; [exact Hin|]. split; [exact Hmin | exact Hfirst].
  - replace (seen ++ curr :: rest) with ((seen ++ [curr]) ++ rest)
      by (rewrite <- app_assoc; reflexivity).
    apply IH.
    + destruct (Z.ltb_spec (Z.abs (curr - target)) (Z.abs (prev - target))).
      * apply elem_of_app. right. apply list_elem_of_here.
      * apply elem_of_app. left. exact Hin.
    + intros o Ho. apply elem_of_app in Ho as [Ho | Ho].
      * specialize (Hmin o Ho).
        destruct (Z.ltb_spec (Z.abs (curr - target)) (Z.abs (prev - target))); lia.
      * apply list_elem_of_singleton in Ho as ->.
        destruct (Z.ltb_spec (Z.abs (curr - target)) (Z.abs (prev - target))); lia.
    + intros i o Hi Ho.
      destruct (Z.ltb_spec (Z.abs (curr - target)) (Z.abs (prev - target))) as [Hlt | Hge].
      * destruct (decide (i < length seen)%nat) as [Hseen | Hnew].
        -- rewrite lookup_app_l in Hi by exact Hseen.
           apply list_elem_of_lookup_2 in Hi. specialize (Hmin o Hi). lia.
        -- exists (length seen). split; [lia|].
           rewrite lookup_app_r by lia. rewrite Nat.sub_diag. reflexivity.
      * destruct (decide (i < length seen)%nat) as [Hseen | Hnew].
        -- rewrite lookup_app_l in Hi by exact Hseen.
           destruct (Hfirst i o Hi Ho) as (j & Hj & Hlook). exists j. split; [exact Hj|].
           rewrite lookup_app_l by (apply lookup_lt_Some in Hlook; exact Hlook).
           exact Hlook.
        -- apply list_elem_of_lookup_1 in Hin as [j Hj]. exists j.
           pose proof (lookup_lt_Some _ _ _ Hj). split; [lia|].
           rewrite lookup_app_l by lia. exact Hj.
Qed.

(** X12.  [findClosestNote] answers the target itself for an empty list of
    options.  Otherwise it answers an option at the least distance from the
    target, and among the options at that distance the one that comes first
    in the list. *)
Theorem findClosestNote_nearest (target first : Z) (rest : list Z) :
  let options := first :: rest in
  let r := findClosestNote target options in
  findClosestNote target [] = target
  ∧ r ∈ options
  ∧ (∀ o, o ∈ options → Z.abs (r - target) ≤ Z.abs (o - target))
  ∧ (∀ i o, options !! i = Some o → Z.abs (o - target) = Z.abs (r - target) →
            ∃ j, (j ≤ i)%nat ∧ options !! j = Some r).
Proof.
  intros options r. split; [reflexivity|].
  subst r options. unfold findClosestNote.
  apply (closest_fold target rest [first] first).
  - apply list_elem_of_here.
  - intros o Ho. apply list_elem_of_singleton in Ho as ->. lia.
  - intros i o Hi _. exists 0%nat. split; [lia | reflexivity].
Qed.

Lemma role_intervals (d : Z) :
  0 ≤ d < 12 →
  (if d =? 0 then "ROOT"
   else if d =? 7 then "FIFTH"
   else if (d =? 3) || (d =? 4) then "THIRD"
   else if (d =? 10) || (d =? 11) then "SEVENTH"
   else if (d =? 2) || (d =? 5) || (d =? 9) then "EXTENSION"
   else "NON_CHORD")
  = (if bool_decide (d ∈ [1; 6; 8]) then "NON_CHORD"
     else if bool_decide (d ∈ [2; 5; 9]) then "EXTENSION"
     else if bool_decide (d ∈ [10; 11]) then "SEVENTH"
     else if bool_decide (d ∈ [3; 4]) then "THIRD"
     else if d =? 7 then "FIFTH" else "ROOT").
Proof.
  intros Hd.
  assert (d = 0 ∨ d = 1 ∨ d = 2 ∨ d = 3 ∨ d = 4 ∨ d = 5 ∨ d = 6 ∨ d = 7 ∨ d = 8
          ∨ d = 9 ∨ d = 10 ∨ d = 11) as Hcases by lia.
  repeat (destruct Hcases as [-> | Hcases]; [reflexivity|]). subst d. reflexivity.
Qed.

(** X13.  For a pitch that is not negative and a chord root in 0..11,
    [getNoteRole] depends only on the distance [d] from the root to the
    pitch, mod 12: 0 is the root, 7 the fifth, 3 and 4 a third, 10 and 11 a
    seventh, 2, 5 and 9 an extension, and 1, 6 and 8 a non-chord tone.  The
    chord definition is only tested for being there, so the role is the same
    for every chord quality, and it is the same in every octave. *)
Theorem getNoteRole_by_interval (midi : Z) (chordDef chordDef' : ChordDef)
    (scaleRoot scaleRoot' currentBarRootIdx : Z) :
  0 ≤ midi → 0 ≤ currentBarRootIdx ≤ 11 →
  let d := (midi - currentBarRootIdx) `mod` 12 in
  getNoteRole midi (Some chordDef) scaleRoot currentBarRootIdx
  = (if bool_decide (d ∈ [1; 6; 8]) then "NON_CHORD"
     else if bool_decide (d ∈ [2; 5; 9]) then "EXTENSION"
     else if bool_decide (d ∈ [10; 11]) then "SEVENTH"
     else if bool_decide (d ∈ [3; 4]) then "THIRD"
     else if d =? 7 then "FIFTH" else "ROOT")
  ∧ getNoteRole midi (Some chordDef') scaleRoot' currentBarRootIdx
    = getNoteRole midi (Some chordDef) scaleRoot currentBarRootIdx
  ∧ getNoteRole (midi + 12) (Some chordDef) scaleRoot currentBarRootIdx
    = getNoteRole midi (Some chordDef) scaleRoot currentBarRootIdx
  ∧ getNoteRole midi None scaleRoot currentBarRootIdx = "UNKNOWN".
Proof.
  intros Hmidi Hroot d.
  assert (∀ m, 0 ≤ m → (m %% 12 - currentBarRootIdx + 12) %% 12
                       = (m - currentBarRootIdx) `mod` 12) as Hinterval.
  { intros m Hm. unfold js_rem. rewrite (Z.rem_mod_nonneg m) by lia.
    pose proof (Z.mod_pos_bound m 12 ltac:(lia)).
    rewrite Z.rem_mod_nonneg by lia.
    replace (m `mod` 12 - currentBarRootIdx + 12)
      with (m `mod` 12 + (12 - currentBarRootIdx)) by lia.
    rewrite Zplus_mod_idemp_l.
    replace (m + (12 - currentBarRootIdx)) with (m - currentBarRootIdx + 1 * 12) by lia.
    apply Z.mod_add. lia. }
  split; [|split; [reflexivity|split; [|reflexivity]]].
  - unfold getNoteRole. rewrite (Hinterval midi Hmidi). fold d.
    apply role_intervals. apply Z.mod_pos_bound. lia.
  - unfold getNoteRole. rewrite (Hinterval midi Hmidi), (Hinterval (midi + 12)) by lia.
    replace (midi + 12 - currentBarRootIdx) with (midi - currentBarRootIdx + 1 * 12) by lia.
    rewrite Z.mod_add by lia. reflexivity.
Qed.

Lemma getNoteRole_by_interval_witness :
  getNoteRole 64 (Some {| name := "I"; type := "Major"; intervals := [0; 4; 7];
                          func := "TONIC" |}) 0 0 = "THIRD".
Proof.
  exact (proj1 (getNoteRole_by_interval 64
                  {| name := "I"; type := "Major"; intervals := [0; 4; 7];
                     func := "TONIC" |}
                  {| name := "I"; type := "Major"; intervals := [0; 4; 7];
                     func := "TONIC" |}
                  0 0 0 ltac:(lia) ltac:(lia))).
Defined.

Lemma interval_quality_table :
  Forall (λ interval,
     let quality := default {| quality_score := 50; quality_mood := "Unknown" |}
                            (intervalQualities !! interval) in
     quality_score quality
     = quality_score (default {| quality_score := 50; quality_mood := "Neutral" |}
                              (intervalQualities !! interval))
     ∧ 55 ≤ Z.min 100 (Math_round (50 + inject_Z (quality_score quality) / 2)) ≤ 100
     ∧ ((if Qlt_le_dec 80 (50 + inject_Z (quality_score quality) / 2)
         then "Harmonious" else "Tense")
        = if bool_decide (interval ∈ [0; 3; 4; 5; 7; 9]) then "Harmonious" else "Tense"))
    (seqZ 0 12).
Proof.
  change (seqZ 0 12) with [0; 1; 2; 3; 4; 5; 6; 7; 8; 9; 10; 11].
  repeat (apply Forall_cons; split; [cbv beta zeta; split; [reflexivity|]; split; [vm_compute; split; discriminate | vm_compute; reflexivity]|]).
  constructor.
Qed.

(** X14.  [analyzeNote] gives a pitch outside the scale set the fixed
    verdict "Out of Key" with score 10.  A pitch of the set is scored by the
    interval class to the previous note, or to the root above middle C when
    there is none: the score lies between 55 and 100, and the mood is
    "Harmonious" exactly for the classes 0, 3, 4, 5, 7 and 9 and "Tense" for
    the others, the minor sixth and minor seventh (8, 10) included, which the
    interval table does not list. *)
Theorem analyzeNote_verdict (targetMidi rootKey : Z) (scaleSet : gset Z)
    (lastNoteMidi : option Z) :
  let reference := default (60 + rootKey) lastNoteMidi in
  let interval := Z.abs (targetMidi - reference) `mod` 12 in
  let analysis := analyzeNote targetMidi rootKey scaleSet lastNoteMidi in
  ((targetMidi ∉ scaleSet) →
   analysis = {| note_score := 10; mood := "Out of Key"; note_details := ["Accidental"] |})
  ∧ (targetMidi ∈ scaleSet →
     55 ≤ note_score analysis ≤ 100
     ∧ mood analysis
       = (if bool_decide (interval ∈ [0; 3; 4; 5; 7; 9]) then "Harmonious" else "Tense")
     ∧ length (note_details analysis) = 2%nat).
Proof.
  intros reference interval analysis. subst analysis. unfold analyzeNote. split.
  - intros Hout. rewrite bool_decide_eq_false_2 by exact Hout. reflexivity.
  - intros Hin. rewrite bool_decide_eq_true_2 by exact Hin.
    assert (Z.abs (targetMidi - reference) %% 12 = interval) as Hrem.
    { unfold js_rem. apply Z.rem_mod_nonneg; lia. }
    assert (interval ∈ seqZ 0 12) as Hinterval.
    { apply elem_of_seqZ. subst interval.
      pose proof (Z.mod_pos_bound (Z.abs (targetMidi - reference)) 12 ltac:(lia)). lia. }
    pose proof interval_quality_table as Htable. rewrite Forall_forall in Htable.
    specialize (Htable interval Hinterval). cbv zeta in Htable.
    destruct Htable as (Hsame & Hscore & Hmood).
    destruct lastNoteMidi as [lastNote|].
    + change reference with lastNote in Hrem. rewrite Hrem.
      cbn [note_score mood note_details length].
      split; [exact Hscore|]. split; [exact Hmood | reflexivity].
    + change reference with (60 + rootKey) in Hrem. rewrite Hrem.
      cbn [note_score mood note_details length].
      rewrite <- Hsame. split; [exact Hscore|]. split; [exact Hmood | reflexivity].
Qed.

(** ** Rounding to doubles *)

Lemma pow2_pos (e : Z) : (0 < 2 ^ e)%Q.
Proof. apply Qpower_0_lt. reflexivity. Qed.

Lemma pow2_plus (x y : Z) : (2 ^ (x + y) == 2 ^ x * 2 ^ y)%Q.
Proof. apply Qpower_plus. discriminate. Qed.

Lemma pow2_inject (a : Z) : 0 ≤ a → (inject_Z (2 ^ a) == 2 ^ a)%Q.
Proof. intros Ha. apply (Zpower_Qpower 2 a Ha). Qed.

Lemma Qfloor_unique (q : Q) (z : Z) :
  (inject_Z z <= q)%Q → (q < inject_Z (z + 1))%Q → Qfloor q = z.
Proof.
  intros Hlo Hhi.
  pose proof (Qfloor_resp_le _ _ Hlo) as H1. rewrite Qfloor_Z in H1.
  pose proof (Qfloor_le q) as H2.
  assert (inject_Z (Qfloor q) < inject_Z (z + 1))%Q as H3 by lra.
  rewrite <- Zlt_Qlt in H3. lia.
Qed.

Lemma roundHalfEven_bounds (q : Q) : Qfloor q ≤ roundHalfEven q ≤ Qfloor q + 1.
Proof.
  unfold roundHalfEven.
  destruct (q - inject_Z (Qfloor q) ?= 1 # 2)%Q; [destruct (Z.even (Qfloor q))|..]; lia.
Qed.

Lemma roundHalfEven_integer (q : Q) (z : Z) : (q == inject_Z z)%Q → roundHalfEven q = z.
Proof.
  intros Hq. unfold roundHalfEven.
  assert (Qfloor q = z) as -> by (rewrite (Qfloor_comp _ _ Hq); apply Qfloor_Z).
  destruct (Qcompare_spec (q - inject_Z z) (1 # 2)) as [H | H | H];
    [exfalso; lra | reflexivity | exfalso; lra].
Qed.

Lemma roundHalfEven_mono (x y : Q) : (x <= y)%Q → roundHalfEven x ≤ roundHalfEven y.
Proof.
  intros Hxy. pose proof (Qfloor_resp_le _ _ Hxy) as Hfloor.
  destruct (Z.eq_dec (Qfloor x) (Qfloor y)) as [Heq | Hne].
  - unfold roundHalfEven. rewrite Heq.
    destruct (Qcompare_spec (x - inject_Z (Qfloor y)) (1 # 2)) as [Hx | Hx | Hx];
      destruct (Qcompare_spec (y - inject_Z (Qfloor y)) (1 # 2)) as [Hy | Hy | Hy];
      try (exfalso; lra); destruct (Z.even (Qfloor y)); lia.
  - pose proof (roundHalfEven_bounds x). pose proof (roundHalfEven_bounds y). lia.
Qed.

Lemma roundHalfEven_opp (q : Q) : roundHalfEven (- q) = - roundHalfEven q.
Proof.
  pose proof (Qfloor_le q) as Hlo. pose proof (Qlt_floor q) as Hhi.
  set (f := Qfloor q) in *.
  assert (inject_Z (f + 1) == inject_Z f + 1)%Q as Hsucc by (rewrite inject_Z_plus; reflexivity).
  destruct (Qcompare_spec q (inject_Z f)) as [Hint | Hlt | Hgt]; [|exfalso; lra|].
  - assert (- q == inject_Z (- f))%Q as Hneg by (rewrite inject_Z_opp; lra).
    rewrite (roundHalfEven_integer _ _ Hneg), (roundHalfEven_integer _ _ Hint).
    reflexivity.
  - assert (Qfloor (- q) = - f - 1) as Hfloor.
    { apply Qfloor_unique.
      - unfold Z.sub. rewrite inject_Z_plus, inject_Z_opp, inject_Z_opp.
        change (inject_Z 1) with 1%Q. lra.
      - replace (- f - 1 + 1) with (- f) by lia. rewrite inject_Z_opp. lra. }
    unfold roundHalfEven. fold f. rewrite Hfloor.
    assert (inject_Z (- f - 1) == - inject_Z f - 1)%Q as Hpred.
    { unfold Z.sub. rewrite inject_Z_plus, inject_Z_opp, inject_Z_opp.
      change (inject_Z 1) with 1%Q. lra. }
    destruct (Qcompare_spec (q - inject_Z f) (1 # 2)) as [Hx | Hx | Hx];
      destruct (Qcompare_spec (- q - inject_Z (- f - 1)) (1 # 2)) as [Hy | Hy | Hy];
      try (exfalso; lra); try lia.
    replace (Z.even (- f - 1)) with (negb (Z.even f)).
    + destruct (Z.even f); simpl; lia.
    + replace (- f - 1) with (- Z.succ f) by lia.
      rewrite Z.even_opp, Z.even_succ, <- Z.negb_even. reflexivity.
Qed.

(** [binade] is the exponent of the binade. *)
Lemma binade_spec (q : Q) :
  ¬ (q == 0)%Q → (2 ^ binade q <= Qabs q)%Q ∧ (Qabs q < 2 ^ (binade q + 1))%Q.
Proof.
  intros Hq. destruct q as [n d].
  assert (0 < Z.abs n) as Hn.
  { destruct (Z.eq_dec n 0) as [-> | Hn]; [exfalso; apply Hq; reflexivity | lia]. }
  unfold binade. cbn [Qnum Qden].
  set (a := Z.log2 (Z.abs n)). set (b := Z.log2 (Z.pos d)).
  pose proof (Z.log2_spec (Z.abs n) Hn) as [Ha1 Ha2]. fold a in Ha1, Ha2.
  pose proof (Z.log2_spec (Z.pos d) (Pos2Z.is_pos d)) as [Hb1 Hb2]. fold b in Hb1, Hb2.
  pose proof (Z.log2_nonneg (Z.abs n)) as Ha0. fold a in Ha0.
  pose proof (Z.log2_nonneg (Z.pos d)) as Hb0. fold b in Hb0.
  assert (Qabs (n # d) == inject_Z (Z.abs n) / inject_Z (Z.pos d))%Q as Habs.
  { rewrite <- Zabs_Qabs. apply Qmake_Qdiv. }
  assert (0 < inject_Z (Z.pos d))%Q as Hdpos by (rewrite <- (Zlt_Qlt 0); lia).
  assert (2 ^ a <= inject_Z (Z.abs n))%Q as HA1
    by (rewrite <- (pow2_inject a Ha0), <- Zle_Qle; exact Ha1).
  assert (inject_Z (Z.abs n) < 2 ^ (a + 1))%Q as HA2.
  { rewrite <- (pow2_inject (a + 1)) by lia. rewrite <- Zlt_Qlt.
    replace (a + 1) with (Z.succ a) by lia. exact Ha2. }
  assert (2 ^ b <= inject_Z (Z.pos d))%Q as HB1
    by (rewrite <- (pow2_inject b Hb0), <- Zle_Qle; exact Hb1).
  assert (inject_Z (Z.pos d) < 2 ^ (b + 1))%Q as HB2.
  { rewrite <- (pow2_inject (b + 1)) by lia. rewrite <- Zlt_Qlt.
    replace (b + 1) with (Z.succ b) by lia. exact Hb2. }
  assert (Qabs (n # d) < 2 ^ (a - b + 1))%Q as Hupper.
  { rewrite Habs. apply Qlt_shift_div_r; [exact Hdpos|].
    pose proof (pow2_plus (a - b + 1) b) as Hsplit.
    replace (a - b + 1 + b) with (a + 1) in Hsplit by lia.
    pose proof (pow2_pos (a - b + 1)) as Hpos.
    assert (2 ^ (a - b + 1) * 2 ^ b <= 2 ^ (a - b + 1) * inject_Z (Z.pos d))%Q
      by (apply Qmult_le_l; assumption).
    lra. }
  assert (2 ^ (a - b - 1) <= Qabs (n # d))%Q as Hlower.
  { rewrite Habs. apply Qle_shift_div_l; [exact Hdpos|].
    pose proof (pow2_plus (a - b - 1) (b + 1)) as Hsplit.
    replace (a - b - 1 + (b + 1)) with a in Hsplit by lia.
    pose proof (pow2_pos (a - b - 1)) as Hpos.
    assert (2 ^ (a - b - 1) * inject_Z (Z.pos d) <= 2 ^ (a - b - 1) * 2 ^ (b + 1))%Q
      by (apply Qmult_le_l; [assumption | lra]).
    lra. }
  destruct (Qle_bool (2 ^ (a - b)) (Qabs (n # d))) eqn:Hle.
  - apply Qle_bool_iff in Hle. split; [exact Hle | exact Hupper].
  - split; [exact Hlower|].
    replace (a - b - 1 + 1) with (a - b) by lia.
    apply Qnot_le_lt. intros Hge. apply Qle_bool_iff in Hge. congruence.
Qed.

Lemma binade_unique (q : Q) (e : Z) :
  (2 ^ e <= Qabs q)%Q → (Qabs q < 2 ^ (e + 1))%Q → binade q = e.
Proof.
  intros Hlo Hhi.
  assert (¬ (q == 0)%Q) as Hq.
  { intros H0. rewrite (Qabs_wd _ _ H0) in Hlo. pose proof (pow2_pos e).
    change (Qabs 0) with 0%Q in Hlo. lra. }
  destruct (binade_spec q Hq) as [Hlo' Hhi'].
  assert (2 ^ e < 2 ^ (binade q + 1))%Q as H1 by lra.
  assert (2 ^ binade q < 2 ^ (e + 1))%Q as H2 by lra.
  apply Qpower_lt_compat_l_inv in H1; [|reflexivity].
  apply Qpower_lt_compat_l_inv in H2; [|reflexivity]. lia.
Qed.

Lemma binade_comp (x y : Q) : (x == y)%Q → ¬ (x == 0)%Q → binade x = binade y.
Proof.
  intros Hxy Hx. destruct (binade_spec x Hx) as [Hlo Hhi].
  symmetry. apply binade_unique; rewrite <- (Qabs_wd _ _ Hxy); assumption.
Qed.

Lemma binade_opp (q : Q) : ¬ (q == 0)%Q → binade (- q) = binade q.
Proof.
  intros Hq. destruct (binade_spec q Hq) as [Hlo Hhi].
  apply binade_unique; rewrite Qabs_opp; assumption.
Qed.

(** The significand of a double has 53 bits. *)
Lemma double_significand (q : Q) :
  (0 < q)%Q →
  let ulp := (2 ^ (binade q - 52))%Q in
  let m := roundHalfEven (q / ulp) in
  (double q == inject_Z m * ulp)%Q ∧ 2 ^ 52 ≤ m ≤ 2 ^ 53.
Proof.
  intros Hq ulp m.
  assert (¬ (q == 0)%Q) as Hne by lra.
  destruct (binade_spec q Hne) as [Hlo Hhi]. rewrite (Qabs_pos q) in Hlo, Hhi by lra.
  pose proof (pow2_pos (binade q - 52)) as Hulp. fold ulp in Hulp.
  split.
  - unfold double. destruct (Qeq_bool q 0) eqn:H0.
    + apply Qeq_bool_eq in H0. contradiction.
    + apply Qred_correct.
  - pose proof (pow2_plus 52 (binade q - 52)) as H52.
    replace (52 + (binade q - 52)) with (binade q) in H52 by lia.
    pose proof (pow2_plus 53 (binade q - 52)) as H53.
    replace (53 + (binade q - 52)) with (binade q + 1) in H53 by lia.
    fold ulp in H52, H53.
    assert (inject_Z (2 ^ 52) <= q / ulp)%Q as Hlow.
    { apply Qle_shift_div_l; [exact Hulp|]. change (inject_Z (2 ^ 52)) with (2 ^ 52)%Q. lra. }
    assert (q / ulp <= inject_Z (2 ^ 53))%Q as Hhigh.
    { apply Qle_shift_div_r; [exact Hulp|]. change (inject_Z (2 ^ 53)) with (2 ^ 53)%Q. lra. }
    apply roundHalfEven_mono in Hlow, Hhigh.
    rewrite (roundHalfEven_integer _ _ (Qeq_refl _)) in Hlow.
    rewrite (roundHalfEven_integer _ _ (Qeq_refl _)) in Hhigh.
    subst m. lia.
Qed.

Lemma double_zero (q : Q) : (q == 0)%Q → double q = 0%Q.
Proof. intros Hq. unfold double. rewrite (Qeq_eq_bool _ _ Hq). reflexivity. Qed.

(** A positive number rounds into its binade, ends included. *)
Lemma double_in_binade (q : Q) :
  (0 < q)%Q → (2 ^ binade q <= double q)%Q ∧ (double q <= 2 ^ (binade q + 1))%Q.
Proof.
  intros Hq. destruct (double_significand q Hq) as [Heq [Hlo Hhi]].
  set (ulp := (2 ^ (binade q - 52))%Q) in *. set (m := roundHalfEven (q / ulp)) in *.
  pose proof (pow2_pos (binade q - 52)) as Hulp. fold ulp in Hulp.
  pose proof (pow2_plus 52 (binade q - 52)) as H52.
  replace (52 + (binade q - 52)) with (binade q) in H52 by lia.
  pose proof (pow2_plus 53 (binade q - 52)) as H53.
  replace (53 + (binade q - 52)) with (binade q + 1) in H53 by lia.
  fold ulp in H52, H53.
  rewrite Zle_Qle in Hlo, Hhi.
  change (inject_Z (2 ^ 52)) with (2 ^ 52)%Q in Hlo.
  change (inject_Z (2 ^ 53)) with (2 ^ 53)%Q in Hhi.
  assert (2 ^ 52 * ulp <= inject_Z m * ulp)%Q by (apply Qmult_le_compat_r; lra).
  assert (inject_Z m * ulp <= 2 ^ 53 * ulp)%Q by (apply Qmult_le_compat_r; lra).
  split; lra.
Qed.

Lemma double_pos (q : Q) : (0 < q)%Q → (0 < double q)%Q.
Proof.
  intros Hq. destruct (double_in_binade q Hq) as [Hlo _].
  pose proof (pow2_pos (binade q)). lra.
Qed.

Lemma double_nonneg (q : Q) : (0 <= q)%Q → (0 <= double q)%Q.
Proof.
  intros Hq. destruct (Qeq_dec q 0) as [H0 | Hne].
  - rewrite (double_zero q H0). lra.
  - apply Qlt_le_weak, double_pos. lra.
Qed.

(** Rounding is symmetric ... *)
Lemma double_opp (q : Q) : (double (- q) == - double q)%Q.
Proof.
  destruct (Qeq_dec q 0) as [H0 | Hne].
  - rewrite (double_zero q H0), (double_zero (- q)) by lra. reflexivity.
  - unfold double.
    destruct (Qeq_bool q 0) eqn:Hq; [apply Qeq_bool_eq in Hq; contradiction|].
    destruct (Qeq_bool (- q) 0) eqn:Hq'; [apply Qeq_bool_eq in Hq'; exfalso; lra|].
    rewrite !Qred_correct, (binade_opp q Hne).
    set (ulp := (2 ^ (binade q - 52))%Q).
    assert (- q / ulp == - (q / ulp))%Q as Hdiv by (unfold Qdiv; ring).
    assert (roundHalfEven (- q / ulp) = - roundHalfEven (q / ulp)) as ->.
    { rewrite <- roundHalfEven_opp. unfold roundHalfEven.
      rewrite (Qfloor_comp _ _ Hdiv). rewrite Hdiv. reflexivity. }
    rewrite inject_Z_opp. ring.
Qed.

(** ... and monotone. *)
Lemma double_mono_pos (x y : Q) : (0 < x)%Q → (x <= y)%Q → (double x <= double y)%Q.
Proof.
  intros Hx Hxy. assert (0 < y)%Q as Hy by lra.
  destruct (binade_spec x) as [Hxlo Hxhi]; [lra|].
  destruct (binade_spec y) as [Hylo Hyhi]; [lra|].
  rewrite (Qabs_pos x) in Hxlo, Hxhi by lra. rewrite (Qabs_pos y) in Hylo, Hyhi by lra.
  assert (binade x ≤ binade y) as Hbin.
  { assert (2 ^ binade x < 2 ^ (binade y + 1))%Q as H by lra.
    apply Qpower_lt_compat_l_inv in H; [lia | reflexivity]. }
  destruct (Z.eq_dec (binade x) (binade y)) as [Heq | Hne].
  - destruct (double_significand x Hx) as [-> _].
    destruct (double_significand y Hy) as [-> _]. rewrite Heq.
    pose proof (pow2_pos (binade y - 52)) as Hulp.
    apply Qmult_le_compat_r; [|lra]. rewrite <- Zle_Qle.
    apply roundHalfEven_mono. apply Qmult_le_compat_r; [exact Hxy|].
    apply Qlt_le_weak, Qinv_lt_0_compat, Hulp.
  - destruct (double_in_binade x Hx) as [_ Hxup].
    destruct (double_in_binade y Hy) as [Hylow _].
    assert (2 ^ (binade x + 1) <= 2 ^ binade y)%Q
      by (apply Qpower_le_compat_l; [lia | discriminate]).
    lra.
Qed.

Lemma double_mono (x y : Q) : (x <= y)%Q → (double x <= double y)%Q.
Proof.
  intros Hxy.
  destruct (Qlt_le_dec 0 x) as [Hx | Hx]; [apply double_mono_pos; assumption|].
  destruct (Qlt_le_dec 0 y) as [Hy | Hy].
  - pose proof (double_pos y Hy). pose proof (double_nonneg (- x)) as Hnx.
    rewrite double_opp in Hnx. lra.
  - destruct (Qeq_dec y 0) as [Hy0 | Hyne].
    + rewrite (double_zero y Hy0). pose proof (double_nonneg (- x)) as Hnx.
      rewrite double_opp in Hnx. lra.
    + pose proof (double_mono_pos (- y) (- x)) as H.
      rewrite !double_opp in H. lra.
Qed.

Lemma roundHalfEven_comp (x y : Q) : (x == y)%Q → roundHalfEven x = roundHalfEven y.
Proof.
  intros Hxy. unfold roundHalfEven. rewrite (Qfloor_comp _ _ Hxy).
  assert (x - inject_Z (Qfloor y) == y - inject_Z (Qfloor y))%Q as Hfrac by lra.
  rewrite (Qcompare_comp _ _ Hfrac _ _ (Qeq_refl (1 # 2))). reflexivity.
Qed.

Lemma double_comp (x y : Q) : (x == y)%Q → double x = double y.
Proof.
  intros Hxy. destruct (Qeq_dec x 0) as [H0 | Hne].
  - rewrite (double_zero x H0), (double_zero y) by lra. reflexivity.
  - unfold double. rewrite <- (Qeqb_comp _ _ Hxy _ _ (Qeq_refl 0)).
    destruct (Qeq_bool x 0); [reflexivity|].
    rewrite <- (binade_comp x y Hxy Hne).
    rewrite (roundHalfEven_comp (y / 2 ^ (binade x - 52)) (x / 2 ^ (binade x - 52)));
      [reflexivity|].
    unfold Qdiv. apply Qmult_comp; [symmetry; exact Hxy | reflexivity].
Qed.

Lemma double_canonical (q : Q) : Qred (double q) = double q.
Proof.
  unfold double. destruct (Qeq_bool q 0); [reflexivity|].
  apply Qred_complete, Qred_correct.
Qed.

(** A double rounds to itself. *)
Lemma double_idempotent_pos (q : Q) : (0 < q)%Q → (double (double q) == double q)%Q.
Proof.
  intros Hq. destruct (double_significand q Hq) as [Heq [Hlo Hhi]].
  pose proof (double_pos q Hq) as Hd.
  set (e := binade q) in *. set (d := double q) in *.
  destruct (double_significand d Hd) as [Heq' _].
  pose proof (pow2_pos (e - 52)) as Hulp.
  destruct (Z.eq_dec (roundHalfEven (q / 2 ^ (e - 52))) (2 ^ 53)) as [Htop | Hin].
  - rewrite Htop in Heq. change (inject_Z (2 ^ 53)) with (2 ^ 53)%Q in Heq.
    pose proof (pow2_plus 53 (e - 52)) as H53.
    replace (53 + (e - 52)) with (e + 1) in H53 by lia.
    assert (binade d = e + 1) as Hbin.
    { apply binade_unique; rewrite (Qabs_pos d) by lra; [lra|].
      assert (2 ^ (e + 1) < 2 ^ (e + 1 + 1))%Q
        by (apply Qpower_lt_compat_l; [lia | reflexivity]).
      lra. }
    rewrite Hbin in Heq'. replace (e + 1 - 52) with (e - 51) in Heq' by lia.
    pose proof (pow2_pos (e - 51)) as Hulp'.
    pose proof (pow2_plus 52 (e - 51)) as H52.
    replace (52 + (e - 51)) with (e + 1) in H52 by lia.
    assert (d / 2 ^ (e - 51) == inject_Z (2 ^ 52))%Q as Hm.
    { change (inject_Z (2 ^ 52)) with (2 ^ 52)%Q.
      apply Qmult_inj_r with (z := (2 ^ (e - 51))%Q); [lra|].
      unfold Qdiv. rewrite <- Qmult_assoc, (Qmult_comm (/ _)), Qmult_inv_r by lra. lra. }
    rewrite (roundHalfEven_integer _ _ Hm) in Heq'.
    change (inject_Z (2 ^ 52)) with (2 ^ 52)%Q in Heq'. lra.
  - set (m := roundHalfEven (q / 2 ^ (e - 52))) in *.
    assert (inject_Z (2 ^ 52) <= inject_Z m)%Q as Hlo' by (rewrite <- Zle_Qle; lia).
    assert (inject_Z m <= inject_Z (2 ^ 53 - 1))%Q as Hhi' by (rewrite <- Zle_Qle; lia).
    change (inject_Z (2 ^ 52)) with (2 ^ 52)%Q in Hlo'.
    change (inject_Z (2 ^ 53 - 1)) with (2 ^ 53 - 1)%Q in Hhi'.
    pose proof (pow2_plus 52 (e - 52)) as H52.
    replace (52 + (e - 52)) with e in H52 by lia.
    pose proof (pow2_plus 53 (e - 52)) as H53.
    replace (53 + (e - 52)) with (e + 1) in H53 by lia.
    assert (2 ^ 52 * 2 ^ (e - 52) <= inject_Z m * 2 ^ (e - 52))%Q
      by (apply Qmult_le_compat_r; lra).
    assert (inject_Z m * 2 ^ (e - 52) <= (2 ^ 53 - 1) * 2 ^ (e - 52))%Q
      by (apply Qmult_le_compat_r; lra).
    assert (binade d = e) as Hbin.
    { apply binade_unique; rewrite (Qabs_pos d) by lra; [lra|].
      assert ((2 ^ 53 - 1) * 2 ^ (e - 52) == 2 ^ (e + 1) - 2 ^ (e - 52))%Q
        by (rewrite H53; ring).
      lra. }
    rewrite Hbin in Heq'.
    assert (d / 2 ^ (e - 52) == inject_Z m)%Q as Hm.
    { apply Qmult_inj_r with (z := (2 ^ (e - 52))%Q); [lra|].
      unfold Qdiv. rewrite <- Qmult_assoc, (Qmult_comm (/ _)), Qmult_inv_r by lra. lra. }
    rewrite (roundHalfEven_integer _ _ Hm) in Heq'. lra.
Qed.

Lemma double_idempotent (q : Q) : double (double q) = double q.
Proof.
  transitivity (Qred (double (double q))); [symmetry; apply double_canonical|].
  transitivity (Qred (double q)); [|apply double_canonical].
  apply Qred_complete.
  destruct (Qlt_le_dec 0 q) as [Hpos | Hle]; [apply double_idempotent_pos, Hpos|].
  destruct (Qeq_dec q 0) as [H0 | Hne].
  - rewrite (double_zero q H0). reflexivity.
  - assert (0 < - q)%Q as Hneg by lra.
    pose proof (double_idempotent_pos (- q) Hneg) as Hidem.
    assert (double q == - double (- q))%Q as Hq.
    { rewrite <- double_opp. rewrite (double_comp (- - q) q) by ring. reflexivity. }
    rewrite (double_comp _ _ Hq), double_opp, Hidem. symmetry. exact Hq.
Qed.

(** ** Weighted choice *)





(** Rounding shows in the choice: with the weights 0.1, 0.2 and 0.3 the draw
    one half, scaled to the double above 0.3, passes the first two weights
    and picks the third value; the largest draw runs past every weight and
    gets the first value. *)
Lemma weightedChoice_rounding :
  run (weightedChoice (λ _, 1 # 2)%Q ["a"; "b"; "c"] [0.1; 0.2; 0.3]%Q) = Some (Some "c")
  ∧ run (weightedChoice (λ _, 1 - (1 # 2) ^ 53)%Q ["a"; "b"; "c"] [0.1; 0.2; 0.3]%Q)
    = Some (Some "a").
Proof. split; vm_compute; reflexivity. Qed.

(** ** Track generators *)

Lemma foldl_addNoteToTrack_elem (new notes : list Note) (x : Note) :
  x ∈ foldl addNoteToTrack notes new → x ∈ notes ∨ x ∈ new.
Proof.
  revert notes. induction new as [|n new IH]; intros notes Hx; cbn [foldl] in Hx.
  - left. exact Hx.
  - apply IH in Hx as [Hx | Hx].
    + apply elem_of_addNoteToTrack in Hx as [-> | [Hx _]].
      * right. apply list_elem_of_here.
      * left. exact Hx.
    + right. apply list_elem_of_further, Hx.
Qed.

Lemma foldl_addNoteToTrack_keys (new notes : list Note) :
  NoDup (map (λ m, (midi m, time m)) notes) →
  NoDup (map (λ m, (midi m, time m)) (foldl addNoteToTrack notes new)).
Proof.
  revert notes. induction new as [|n new IH]; intros notes Hnotes; cbn [foldl].
  - exact Hnotes.
  - apply IH, addNoteToTrack_keys, Hnotes.
Qed.

Lemma leadBlocks_notes (random : nat → Q) (state : State) (bars : list Z) :
  ∀ (notes : list Note) (n n' : nat) (res : list Note),
    leadBlocks random state bars notes n = Returns res n' →
    (NoDup (map (λ m, (midi m, time m)) notes) → NoDup (map (λ m, (midi m, time m)) res))
    ∧ ∀ x, x ∈ res →
           x ∈ notes
           ∨ ∃ bar b,
               bar ∈ bars
               ∧ js_index (barStructure state) bar ∈ [Some "CHORUS"; Some "DROP"; Some "SOLO"]
               ∧ 0 ≤ b < 4
               ∧ inBar (stepsPerBar state) (bar + b) x.
Proof.
  induction bars as [|bar bars IH]; intros notes n n' res H; cbn [leadBlocks] in H.
  - gen_inv H. subst. split; [tauto|]. intros x Hx. left. exact Hx.
  - destruct (bool_decide (js_index (barStructure state) bar = Some "CHORUS")
              || bool_decide (js_index (barStructure state) bar = Some "DROP")
              || bool_decide (js_index (barStructure state) bar = Some "SOLO")) eqn:Hgen.
    + gen_inv H. apply IH in Hk as [Hkeys Hk]. split.
      * intros Hnodup. apply Hkeys, foldl_addNoteToTrack_keys, Hnodup.
      * intros x Hx. apply Hk in Hx as [Hx | (bar' & b & Hbar' & Hrest)].
        -- apply foldl_addNoteToTrack_elem in Hx as [Hx | Hx]; [left; exact Hx|].
           right. apply generateMelody_inBar in Hrun. rewrite Forall_forall in Hrun.
           destruct (Hrun x Hx) as (b & Hb & Hin). exists bar, b.
           split; [apply list_elem_of_here|]. split; [|split; [exact Hb | exact Hin]].
           rewrite !orb_true_iff in Hgen.
           destruct Hgen as [[Hs | Hs] | Hs]; apply bool_decide_eq_true_1 in Hs;
             rewrite Hs; compute_done.
        -- right. exists bar', b. split; [apply list_elem_of_further, Hbar' | exact Hrest].
    + apply IH in H as [Hkeys Hk]. split; [exact Hkeys|].
      intros x Hx. apply Hk in Hx as [Hx | (bar' & b & Hbar' & Hrest)]; [left; exact Hx|].
      right. exists bar', b. split; [apply list_elem_of_further, Hbar' | exact Hrest].
Qed.

(** X16.  The lead track the wizard writes, whenever [generateMelody] does
    not throw: a melody is asked for only at the bars 0, 4, 8, ... of the
    song whose own section is chorus, drop or solo, so every lead note lies
    in one of the four bars that start at such a bar, inside one bar of the
    grid; no two notes of the track share pitch and start. *)
Theorem generateLeadForWholeSong_blocks (random : nat → Q) (state : State)
    (notes : list Note) :
  run (generateLeadForWholeSong random state) = Some notes →
  NoDup (map (λ m, (midi m, time m)) notes)
  ∧ ∀ note, note ∈ notes →
      ∃ bar b,
        0 ≤ bar < totalBars state ∧ bar `mod` 4 = 0
        ∧ js_index (barStructure state) bar ∈ [Some "CHORUS"; Some "DROP"; Some "SOLO"]
        ∧ 0 ≤ b < 4
        ∧ (bar + b) * stepsPerBar state ≤ time note
        ∧ time note + duration note ≤ (bar + b + 1) * stepsPerBar state.
Proof.
  intros Hrun. apply run_Some in Hrun as [n' Hrun]. unfold generateLeadForWholeSong in Hrun.
  apply leadBlocks_notes in Hrun as [Hkeys Hnotes].
  split; [apply Hkeys; constructor|].
  intros note Hnote. apply Hnotes in Hnote as [Hnote | (bar & b & Hbar & Hsec & Hb & Hin)].
  { apply elem_of_nil in Hnote. contradiction. }
  apply list_elem_of_fmap in Hbar as (k & -> & Hk). apply elem_of_seqZ in Hk.
  exists (4 * k), b. split.
  { pose proof (Z.mul_div_le (totalBars state + 3) 4 ltac:(lia)). lia. }
  split; [rewrite Z.mul_comm; apply Z.mod_mul; lia|].
  split; [exact Hsec|]. split; [exact Hb | exact Hin].
Qed.

Lemma generateLeadForWholeSong_blocks_witness :
  ∃ notes,
    run (generateLeadForWholeSong (λ _, 1 # 2)%Q
           {| rootKey := 0; scaleName := "Major"; vocalRangeType := "NONE";
              stepsPerBar := 16; totalBars := 4; barChords := [0; 5; 3; 4];
              barStructure := ["CHORUS"; "CHORUS"; "CHORUS"; "CHORUS"] |}) = Some notes
    ∧ notes ≠ []
    ∧ NoDup (map (λ m, (midi m, time m)) notes)
    ∧ ∀ note, note ∈ notes →
        ∃ bar b,
          0 ≤ bar < 4 ∧ bar `mod` 4 = 0
          ∧ js_index ["CHORUS"; "CHORUS"; "CHORUS"; "CHORUS"] bar
            ∈ [Some "CHORUS"; Some "DROP"; Some "SOLO"]
          ∧ 0 ≤ b < 4
          ∧ (bar + b) * 16 ≤ time note
          ∧ time note + duration note ≤ (bar + b + 1) * 16.
Proof.
  assert (∃ first rest,
            run (generateLeadForWholeSong (λ _, 1 # 2)%Q
                   {| rootKey := 0; scaleName := "Major"; vocalRangeType := "NONE";
                      stepsPerBar := 16; totalBars := 4; barChords := [0; 5; 3; 4];
                      barStructure := ["CHORUS"; "CHORUS"; "CHORUS"; "CHORUS"] |})
            = Some (first :: rest)) as (first & rest & Hrun)
    by (vm_compute; eexists _, _; reflexivity).
  exists (first :: rest). split; [exact Hrun|]. split; [discriminate|].
  exact (generateLeadForWholeSong_blocks _ _ _ Hrun).
Defined.

Lemma chord_intervals_in_octave :
  map_Forall (λ (_ : string) (table : list ChordDef),
     Forall (λ chordDef, Forall (λ interval, 0 ≤ interval ≤ 11) (intervals chordDef)) table)
    chordDegrees.
Proof. compute_done. Qed.

Lemma Forall_merge_sort (P : Z → Prop) (l : list Z) :
  Forall P l → Forall P (merge_sort Z.le l).
Proof. intros H. rewrite merge_sort_Permutation. exact H. Qed.

(** The voicing of a pad chord for a root in 0..11 and intervals in 0..11:
    the pitches lie in 44..78, so the guard against pitches above 80 never
    fires, and each is an interval of the chord above the root, up to
    octaves. *)
Lemma padVoicing_range (useSpread : bool) (rootKey : Z) (chordDef : ChordDef) :
  0 ≤ rootKey ≤ 11 →
  Forall (λ interval, 0 ≤ interval ≤ 11) (intervals chordDef) →
  Forall (λ note, 44 ≤ note ≤ 78
                  ∧ ∃ interval, interval ∈ intervals chordDef
                                ∧ note `mod` 12 = (rootKey + interval) `mod` 12)
         (padVoicing useSpread rootKey chordDef).
Proof.
  intros Hroot Hintervals. unfold padVoicing.
  set (P := λ hi note, 44 ≤ note ≤ hi
                       ∧ ∃ interval, interval ∈ intervals chordDef
                                     ∧ note `mod` 12 = (rootKey + interval) `mod` 12).
  assert (Forall (P 66)
            (map (λ interval,
                    let note := rootKey + 48 + interval in
                    if 7 <? interval then note - 12 else note) (intervals chordDef)))
    as Hbase.
  { apply Forall_fmap, Forall_forall. intros interval Hin.
    rewrite Forall_forall in Hintervals. specialize (Hintervals interval Hin).
    cbv zeta. unfold P. simpl.
    destruct (Z.ltb_spec 7 interval).
    - split; [lia|]. exists interval. split; [exact Hin|].
      replace (rootKey + 48 + interval - 12) with (rootKey + interval + 3 * 12) by lia.
      apply Z.mod_add. lia.
    - split; [lia|]. exists interval. split; [exact Hin|].
      replace (rootKey + 48 + interval) with (rootKey + interval + 4 * 12) by lia.
      apply Z.mod_add. lia. }
  assert (∀ l, Forall (P 78) l →
               Forall (P 78) (map (λ note, if 80 <? note then note - 12 else note) l))
    as Hguard.
  { intros l Hl. apply Forall_fmap. eapply Forall_impl; [exact Hl|].
    intros note [Hrange Hpc]. simpl.
    destruct (Z.ltb_spec 80 note); [lia|]. split; assumption. }
  assert (∀ l, Forall (P 66) l → Forall (P 78) l) as Hwiden.
  { intros l Hl. eapply Forall_impl; [exact Hl|]. intros note [Hrange Hpc].
    split; [lia | exact Hpc]. }
  apply Hguard.
  destruct (useSpread && bool_decide (3 ≤ length _)%nat); [|apply Hwiden, Hbase].
  apply Forall_merge_sort, Forall_alter.
  - apply Hwiden, Forall_merge_sort, Hbase.
  - intros note Hlook _.
    assert (P 66 note) as [Hrange (interval & Hin & Hpc)].
    { apply list_elem_of_lookup_2 in Hlook.
      pose proof (Forall_merge_sort _ _ Hbase) as Hsorted.
      rewrite Forall_forall in Hsorted. apply Hsorted, Hlook. }
    split; [lia|]. exists interval. split; [exact Hin|].
    replace (note + 12) with (note + 1 * 12) by lia. rewrite Z.mod_add by lia. exact Hpc.
Qed.

Lemma foldl_addNotes_elem {A : Type} (mk : A → Note) (items : list A) :
  ∀ (notes : list Note) (x : Note),
    x ∈ foldl (λ notes item, addNoteToTrack notes (mk item)) notes items →
    x ∈ notes ∨ ∃ item, item ∈ items ∧ x = mk item.
Proof.
  induction items as [|item items IH]; intros notes x Hx; cbn [foldl] in Hx.
  - left. exact Hx.
  - apply IH in Hx as [Hx | (item' & Hitem' & ->)].
    + apply elem_of_addNoteToTrack in Hx as [-> | [Hx _]].
      * right. exists item. split; [apply list_elem_of_here | reflexivity].
      * left. exact Hx.
    + right. exists item'. split; [apply list_elem_of_further, Hitem' | reflexivity].
Qed.

Lemma padBars_notes (useSpread : bool) (state : State) (bars : list Z) :
  0 ≤ rootKey state ≤ 11 →
  ∀ (notes res : list Note),
    padBars useSpread state bars notes = Some res →
    (NoDup (map (λ m, (midi m, time m)) notes) → NoDup (map (λ m, (midi m, time m)) res))
    ∧ ∀ x, x ∈ res →
           x ∈ notes
           ∨ ∃ bar chordIdx table chordDef interval,
               bar ∈ bars
               ∧ js_index (barChords state) bar = Some chordIdx
               ∧ js_index (barStructure state) bar ≠ Some "DROP"
               ∧ chordDegrees !! scaleName state = Some table
               ∧ js_index table chordIdx = Some chordDef
               ∧ interval ∈ intervals chordDef
               ∧ midi x `mod` 12 = (rootKey state + interval) `mod` 12
               ∧ 44 ≤ midi x ≤ 78
               ∧ time x = bar * stepsPerBar state
               ∧ duration x = 16 ∧ velocity x = 0.6%Q.
Proof.
  intros Hroot. induction bars as [|bar bars IH]; intros notes res H; cbn [padBars] in H.
  - injection H as <-. split; [tauto|]. intros x Hx. left. exact Hx.
  - assert (∀ res', padBars useSpread state bars notes = Some res' →
              (NoDup (map (λ m, (midi m, time m)) notes)
               → NoDup (map (λ m, (midi m, time m)) res'))
              ∧ ∀ x, x ∈ res' →
                  x ∈ notes
                  ∨ ∃ bar' chordIdx table chordDef interval,
                      bar' ∈ bar :: bars
                      ∧ js_index (barChords state) bar' = Some chordIdx
                      ∧ js_index (barStructure state) bar' ≠ Some "DROP"
                      ∧ chordDegrees !! scaleName state = Some table
                      ∧ js_index table chordIdx = Some chordDef
                      ∧ interval ∈ intervals chordDef
                      ∧ midi x `mod` 12 = (rootKey state + interval) `mod` 12
                      ∧ 44 ≤ midi x ≤ 78
                      ∧ time x = bar' * stepsPerBar state
                      ∧ duration x = 16 ∧ velocity x = 0.6%Q) as Hskip.
    { intros res' H'. apply IH in H' as [Hkeys Hk]. split; [exact Hkeys|].
      intros x Hx. apply Hk in Hx as [Hx | (bar' & c & t & cd & i & Hbar' & Hrest)];
        [left; exact Hx|].
      right. exists bar', c, t, cd, i. split; [apply list_elem_of_further, Hbar' | exact Hrest]. }
    destruct (js_index (barChords state) bar) as [chordIdx|] eqn:Hchord; [|apply Hskip, H].
    destruct (chordIdx =? -1); [apply Hskip, H|].
    case_bool_decide as Hdrop; [apply Hskip, H|].
    destruct (chordDegrees !! scaleName state) as [table|] eqn:Htable in H;
      [|discriminate H].
    destruct (js_index table chordIdx) as [chordDef|] eqn:Hdef; [|apply Hskip, H].
    apply IH in H as [Hkeys Hk]. split.
    + intros Hnodup. apply Hkeys.
      apply (foldl_invariant (λ l, NoDup (map (λ m, (midi m, time m)) l)) (λ _, True));
        [| apply Forall_true; tauto | exact Hnodup].
      intros l note Hl _. apply addNoteToTrack_keys, Hl.
    + intros x Hx. apply Hk in Hx as [Hx | (bar' & c & t & cd & i & Hbar' & Hrest)].
      * assert (x ∈ notes
                ∨ ∃ note, note ∈ padVoicing useSpread (rootKey state) chordDef
                          ∧ x = {| midi := note; time := bar * stepsPerBar state;
                                   duration := 16; velocity := 0.6 |}) as [Hold | Hnew].
        { apply (foldl_addNotes_elem
                   (λ note, {| midi := note; time := bar * stepsPerBar state;
                               duration := 16; velocity := 0.6 |})) in Hx.
          exact Hx. }
        -- left. exact Hold.
        -- destruct Hnew as (note & Hnote & ->). right.
           pose proof (padVoicing_range useSpread (rootKey state) chordDef Hroot) as Hrange.
           assert (Forall (λ interval, 0 ≤ interval ≤ 11) (intervals chordDef)) as Hint.
           { pose proof (chord_intervals_in_octave _ table Htable) as Hall.
             rewrite Forall_forall in Hall. apply Hall. eapply js_index_elem_of, Hdef. }
           specialize (Hrange Hint). rewrite Forall_forall in Hrange.
           destruct (Hrange note Hnote) as [Hr (interval & Hin & Hpc)].
           exists bar, chordIdx, table, chordDef, interval. cbn [midi time duration velocity].
           split; [apply list_elem_of_here|]. split; [first [reflexivity | exact Hchord]|].
           split; [exact Hdrop|]. split; [exact Htable|].
           split; [first [reflexivity | exact Hdef]|].
           split; [exact Hin|]. split; [exact Hpc|]. split; [exact Hr|].
           split; [reflexivity|]. split; reflexivity.
      * right. exists bar', c, t, cd, i.
        split; [apply list_elem_of_further, Hbar' | exact Hrest].
Qed.

(** X17.  The pad track the wizard writes for a root in 0..11, when the
    scale has a chord table: every pad note holds for 16 steps from the first
    step of a bar of the song that is not a drop, at velocity 0.6; its pitch
    lies in 44..78 (so the guard against pitches above 80 never moves a
    note) and is, up to octaves, the root plus an interval of the chord of
    that bar.  No two notes of the track share pitch and start. *)
Theorem generatePadForWholeSong_notes (useSpread : bool) (state : State)
    (notes : list Note) :
  0 ≤ rootKey state ≤ 11 →
  generatePadForWholeSong useSpread state = Some notes →
  NoDup (map (λ m, (midi m, time m)) notes)
  ∧ ∀ note, note ∈ notes →
      ∃ bar chordIdx table chordDef interval,
        0 ≤ bar < totalBars state
        ∧ js_index (barChords state) bar = Some chordIdx
        ∧ js_index (barStructure state) bar ≠ Some "DROP"
        ∧ chordDegrees !! scaleName state = Some table
        ∧ js_index table chordIdx = Some chordDef
        ∧ interval ∈ intervals chordDef
        ∧ midi note `mod` 12 = (rootKey state + interval) `mod` 12
        ∧ 44 ≤ midi note ≤ 78
        ∧ time note = bar * stepsPerBar state
        ∧ duration note = 16 ∧ velocity note = 0.6%Q.
Proof.
  intros Hroot H. unfold generatePadForWholeSong in H.
  apply (padBars_notes useSpread state _ Hroot) in H as [Hkeys Hnotes].
  split; [apply Hkeys; constructor|].
  intros note Hnote. apply Hnotes in Hnote as [Hnote | (bar & c & t & cd & i & Hbar & Hrest)].
  { apply elem_of_nil in Hnote. contradiction. }
  exists bar, c, t, cd, i. split; [apply elem_of_seqZ in Hbar; lia | exact Hrest].
Qed.

Lemma generatePadForWholeSong_notes_witness :
  ∃ notes,
    generatePadForWholeSong true demoState = Some notes
    ∧ length notes = 12%nat
    ∧ NoDup (map (λ m, (midi m, time m)) notes)
    ∧ ∀ note, note ∈ notes →
        ∃ bar chordIdx table chordDef interval,
          0 ≤ bar < totalBars demoState
          ∧ js_index (barChords demoState) bar = Some chordIdx
          ∧ js_index (barStructure demoState) bar ≠ Some "DROP"
          ∧ chordDegrees !! scaleName demoState = Some table
          ∧ js_index table chordIdx = Some chordDef
          ∧ interval ∈ intervals chordDef
          ∧ midi note `mod` 12 = (rootKey demoState + interval) `mod` 12
          ∧ 44 ≤ midi note ≤ 78
          ∧ time note = bar * stepsPerBar demoState
          ∧ duration note = 16 ∧ velocity note = 0.6%Q.
Proof.
  assert (∃ notes, generatePadForWholeSong true demoState = Some notes
                   ∧ length notes = 12%nat) as (notes & Hrun & Hlen)
    by (vm_compute; eexists; split; reflexivity).
  exists notes. split; [exact Hrun|]. split; [exact Hlen|].
  apply (generatePadForWholeSong_notes true demoState notes); [simpl; lia | exact Hrun].
Defined.

(** ** The melody generator *)

Lemma variateRhythmSimple_positive (pattern : list RhythmEvent) :
  positiveDurations pattern → positiveDurations (variateRhythmSimple pattern).
Proof.
  unfold positiveDurations, variateRhythmSimple. intros H.
  destruct pattern as [|first p]; [constructor|].
  destruct (Z.leb_spec 4 (ev_duration first)) as [H4|_]; [|exact H].
  apply Forall_cons in H as [_ Hp].
  assert (0 < ev_duration first `div` 2) by (apply Z.div_str_pos; lia).
  repeat (constructor; [simpl; assumption|]). exact Hp.
Qed.

Lemma rhythmForBar_positive (random : nat → Q) (state : State) (length b : Z)
    (currentSection : string) (mainRhythm pattern : list RhythmEvent) (n n' : nat) :
  positiveDurations mainRhythm →
  rhythmForBar random state length b currentSection mainRhythm n = Returns pattern n' →
  stepsPerBar state ≤ 0 ∨ positiveDurations pattern.
Proof.
  intros Hmain H. unfold rhythmForBar in H. gen_inv H. gen_inv Hk. subst.
  destruct (Z.le_gt_cases (stepsPerBar state) 0) as [Hspb | Hspb]; [left; exact Hspb|].
  right. case_bool_decide; [unfold positiveDurations; compute_done|].
  destruct (b =? length - 1).
  { gen_inv Hrun. subst. constructor; [simpl; lia | constructor]. }
  destruct (b %% 4 =? 3).
  { gen_inv Hrun. gen_inv Hk. subst.
    constructor; [simpl; lia | constructor; [simpl; lia | constructor]]. }
  destruct (b %% 4 =? 2); gen_inv Hrun; subst.
  - apply variateRhythmSimple_positive. exact Hmain.
  - exact Hmain.
Qed.

Lemma StronglySorted_app_2 {A : Type} (R : relation A) (l1 l2 : list A) :
  StronglySorted R l1 → StronglySorted R l2 →
  (∀ x y, x ∈ l1 → y ∈ l2 → R x y) →
  StronglySorted R (l1 ++ l2).
Proof.
  intros H1 H2 H12. induction H1 as [|x l1 Hl1 IH Hx]; simpl; [exact H2|].
  constructor.
  - apply IH. intros a b Ha Hb. apply H12; [apply list_elem_of_further, Ha | exact Hb].
  - apply Forall_app. split; [exact Hx|]. apply Forall_forall. intros y Hy.
    apply H12; [apply list_elem_of_here | exact Hy].
Qed.

(** What one bar adds: scale notes of the range at one of the three
    velocities, one after the other inside the bar. *)
Lemma placeNotes_trace (random : nat → Q) (state : State) (scaleNotes : gset Z)
    (targetMin targetMax currentBar : Z) (currentSection : string)
    (chordDef : option ChordDef) (positionInPhrase : Z)
    (pattern : list RhythmEvent) :
  ∀ (stepCursor lastMidi : Z) (newNotes : list Note) (n n' : nat)
    (res : Z * list Note),
    0 ≤ stepCursor →
    stepsPerBar state ≤ stepCursor ∨ positiveDurations pattern →
    placeNotes random state scaleNotes targetMin targetMax currentBar currentSection
               chordDef positionInPhrase pattern stepCursor lastMidi newNotes n
    = Returns res n' →
    ∃ new,
      res.2 = newNotes ++ new
      ∧ Forall (λ x, midi x ∈ scaleTonesIn scaleNotes targetMin targetMax
                     ∧ midi x ≠ 0 ∧ 0 < duration x
                     ∧ velocity x ∈ melodyVelocities) new
      ∧ Forall (λ x, currentBar * stepsPerBar state + stepCursor ≤ time x
                     ∧ time x + duration x ≤ (currentBar + 1) * stepsPerBar state) new
      ∧ StronglySorted (λ a b, time a + duration a ≤ time b) new.
Proof.
  induction pattern as [|noteDef rest IH];
    intros stepCursor lastMidi newNotes n n' res Hcur Hpat H; simpl in H.
  - gen_inv H. subst. exists []. rewrite app_nil_r.
    split; [reflexivity|]. repeat split; constructor.
  - destruct (Z.leb_spec (stepsPerBar state) stepCursor) as [Hend | Hin].
    { gen_inv H. subst. exists []. rewrite app_nil_r.
      split; [reflexivity|]. repeat split; constructor. }
    destruct Hpat as [Hbad | Hpat]; [lia|].
    apply Forall_cons in Hpat as [Hdur Hrest].
    set (dur := if stepsPerBar state <? stepCursor + ev_duration noteDef
                then stepsPerBar state - stepCursor else ev_duration noteDef) in *.
    assert (0 < dur ∧ stepCursor + dur ≤ stepsPerBar state) as [Hdur0 Hfit].
    { subst dur. destruct (Z.ltb_spec (stepsPerBar state)
                             (stepCursor + ev_duration noteDef)); lia. }
    gen_inv H.
    assert (a.2 = newNotes
            ∨ ∃ note, a.2 = newNotes ++ [note]
                      ∧ midi note ∈ scaleTonesIn scaleNotes targetMin targetMax
                      ∧ midi note ≠ 0
                      ∧ velocity note ∈ melodyVelocities
                      ∧ time note = currentBar * stepsPerBar state + stepCursor
                      ∧ duration note = dur) as Hmid.
    { destruct (isRest noteDef); simpl in Hrun.
      - gen_inv Hrun. subst. left. reflexivity.
      - gen_inv Hrun.
        destruct chordDef as [cd|]; [|discriminate Hrun0].
        match type of Hrun0 with
        | pickSmoothNote ?r ?l (Some ?c) ?k ?s ?lo ?hi ?x ?y ?m = _ =>
            destruct (pickSmoothNote_returns r l c k s lo hi x y m)
              as (picked & m' & Hpick & Hpicked)
        end.
        rewrite Hpick in Hrun0. injection Hrun0 as <- <-.
        destruct picked as [generatedMidi|].
        + destruct (Z.eqb_spec generatedMidi 0) as [Hzero | Hnonzero]; gen_inv Hk0; subst.
          * left. reflexivity.
          * right. eexists. split; [reflexivity|]. cbn [midi velocity time duration].
            split; [exact Hpicked|]. split; [exact Hnonzero|].
            split; [|split; reflexivity].
            destruct (bool_decide (currentSection = "CHORUS")), (stepCursor %% 4 =? 0);
              cbn [negb]; vm_compute; set_solver.
        + gen_inv Hk0. subst. left. reflexivity. }
    apply IH in Hk as (new & Hnew & Hgood & Hin_bar & Hsorted); [| lia | right; exact Hrest].
    destruct Hmid as [Hmid | (note & Hmid & Htone & Hnz & Hvel & Htime & Hd)].
    + exists new. rewrite Hnew, Hmid. split; [reflexivity|]. split; [exact Hgood|].
      split; [|exact Hsorted].
      eapply Forall_impl; [exact Hin_bar|]. intros x [Hx1 Hx2]. split; [lia | exact Hx2].
    + exists (note :: new). rewrite Hnew, Hmid, <- app_assoc. split; [reflexivity|].
      split; [constructor; [|exact Hgood]|split; [constructor|constructor]].
      * split; [exact Htone|]. split; [exact Hnz|]. split; [lia | exact Hvel].
      * rewrite Htime, Hd. nia.
      * eapply Forall_impl; [exact Hin_bar|]. intros x [Hx1 Hx2]. split; [lia | exact Hx2].
      * exact Hsorted.
      * eapply Forall_impl; [exact Hin_bar|]. intros x [Hx1 _]. rewrite Htime, Hd. lia.
Qed.

Lemma melodyBars_trace (random : nat → Q) (state : State) (scaleNotes : gset Z)
    (targetMin targetMax startBar length : Z) (mainRhythm : list RhythmEvent)
    (bs : list Z) :
  positiveDurations mainRhythm →
  StronglySorted Z.lt bs →
  ∀ (lo lastMidi : Z) (newNotes : list Note) (n n' : nat) (res : list Note),
    Forall (λ b, lo ≤ b) bs →
    melodyBars random state scaleNotes targetMin targetMax startBar length mainRhythm
               bs lastMidi newNotes n
    = Returns res n' →
    ∃ new,
      res = newNotes ++ new
      ∧ Forall (λ x, midi x ∈ scaleTonesIn scaleNotes targetMin targetMax
                     ∧ midi x ≠ 0 ∧ 0 < duration x
                     ∧ velocity x ∈ melodyVelocities) new
      ∧ Forall (λ x, 0 < stepsPerBar state
                     ∧ (startBar + lo) * stepsPerBar state ≤ time x) new
      ∧ StronglySorted (λ a b, time a + duration a ≤ time b) new.
Proof.
  intros Hmain Hbs. induction Hbs as [|b bs Hsorted IH Hb];
    intros lo lastMidi newNotes n n' res Hlo H; simpl in H.
  - gen_inv H. subst. exists []. rewrite app_nil_r.
    split; [reflexivity|]. repeat split; constructor.
  - destruct (totalBars state <=? startBar + b).
    { gen_inv H. subst. exists []. rewrite app_nil_r.
      split; [reflexivity|]. repeat split; constructor. }
    destruct (chordDegrees !! scaleName state) as [table|]; [|discriminate H].
    apply Forall_cons in Hlo as [Hlob Hlo].
    gen_inv H. gen_inv Hk.
    pose proof (rhythmForBar_positive _ _ _ _ _ _ _ _ _ Hmain Hrun) as Hpat.
    destruct (Z.le_gt_cases (stepsPerBar state) 0) as [Hspb | Hspb].
    + apply placeNotes_trace in Hrun0 as (mid & Hmid & Hgood & Hin & Hmsorted);
        [| lia | left; lia].
      apply (IH (b + 1)) in Hk0 as (new & Hnew & Hngood & Hnlo & Hnsorted).
      2:{ eapply Forall_impl; [exact Hb|]. simpl. intros x Hx. lia. }
      assert (mid = []) as ->.
      { destruct mid as [|x mid]; [reflexivity|].
        apply Forall_cons in Hin as [[Hx1 Hx2] _].
        apply Forall_cons in Hgood as [(_ & _ & Hd & _) _]. nia. }
      exists new. rewrite Hnew, Hmid, app_nil_r. split; [reflexivity|].
      split; [exact Hngood|]. split; [|exact Hnsorted].
      eapply Forall_impl; [exact Hnlo|]. simpl. intros x Hx. nia.
    + apply placeNotes_trace in Hrun0 as (mid & Hmid & Hgood & Hin & Hmsorted); [| lia |].
      2:{ destruct Hpat as [Hbad | Hpat]; [lia | right; exact Hpat]. }
      apply (IH (b + 1)) in Hk0 as (new & Hnew & Hngood & Hnlo & Hnsorted).
      2:{ eapply Forall_impl; [exact Hb|]. simpl. intros x Hx. lia. }
      exists (mid ++ new). rewrite Hnew, Hmid, app_assoc. split; [reflexivity|].
      split; [apply Forall_app; split; assumption|]. split.
      * apply Forall_app. split.
        -- eapply Forall_impl; [exact Hin|]. simpl. intros x [Hx _]. split; [lia | nia].
        -- eapply Forall_impl; [exact Hnlo|]. simpl. intros x Hx. split; [lia | nia].
      * apply StronglySorted_app_2; [exact Hmsorted | exact Hnsorted|].
        intros x y Hx Hy. rewrite Forall_forall in Hin, Hnlo.
        destruct (Hin x Hx) as [_ Hend]. specialize (Hnlo y Hy). simpl in Hnlo. nia.
Qed.

Lemma generateMelody_trace (random : nat → Q) (startBar length : Z)
    (complexity : string) (state : State) (n n' : nat) (notes : list Note) :
  generateMelody random startBar length complexity state n = Returns notes n' →
  Forall (λ x, midi x ∈ scaleTonesIn (getScaleNotes (rootKey state) (scaleName state))
                                     (targetRange startBar state).1
                                     (targetRange startBar state).2
               ∧ midi x ≠ 0 ∧ 0 < duration x
               ∧ velocity x ∈ melodyVelocities) notes
  ∧ StronglySorted (λ a b, time a + duration a ≤ time b) notes.
Proof.
  unfold generateMelody. destruct (inheritedKey (scaleName state)); [discriminate|].
  destruct (targetRange startBar state) as [targetMin targetMax].
  intros H. gen_inv H.
  destruct (generateMelodicRhythm_motif _ _ _ _ _ Hrun) as (motif & Hmotif & ->).
  destruct (toRhythm_positive motif Hmotif) as [_ Hpos].
  apply (melodyBars_trace _ _ _ _ _ _ _ _ _ (positiveNotes_durations _ Hpos)
           (seqZ_ascending 0 length) 0) in Hk as (new & -> & Hgood & _ & Hsorted).
  - split; [exact Hgood | exact Hsorted].
  - apply Forall_forall. intros b Hb. apply elem_of_seqZ in Hb. lia.
Qed.

(** X18.  Every note [generateMelody] returns is a scale note of the
    adjusted vocal range and is not pitch 0; it lasts at least one step, and
    its velocity is one of four doubles: that of 0.95 (chorus, on a beat),
    that of 0.8 (another section, on a beat), the double just below it,
    0.7999999999999999, which is what [0.95 - 0.15] comes to (chorus, off
    the beat), or that of 0.65 (another section, off the beat). *)
Theorem generateMelody_pitches (random : nat → Q) (startBar length : Z)
    (complexity : string) (state : State) (notes : list Note) (note : Note) :
  run (generateMelody random startBar length complexity state) = Some notes →
  note ∈ notes →
  midi note ∈ getScaleNotes (rootKey state) (scaleName state)
  ∧ (targetRange startBar state).1 ≤ midi note ≤ (targetRange startBar state).2
  ∧ midi note ≠ 0
  ∧ 1 ≤ duration note
  ∧ (velocity note = double 0.95
     ∨ velocity note = double 0.8
     ∨ velocity note = (7205759403792793 # 9007199254740992)%Q
     ∨ velocity note = double 0.65).
Proof.
  intros Hrun Hnote. apply run_Some in Hrun as [n' Hrun].
  apply generateMelody_trace in Hrun as [Hgood _]. rewrite Forall_forall in Hgood.
  destruct (Hgood note Hnote) as (Htone & Hnz & Hdur & Hvel).
  apply elem_of_scaleTonesIn in Htone as [Hrange Hscale].
  split; [exact Hscale|]. split; [exact Hrange|]. split; [exact Hnz|].
  split; [lia|].
  apply elem_of_cons in Hvel as [-> | Hvel]; [left; reflexivity|].
  apply elem_of_cons in Hvel as [-> | Hvel]; [right; left; reflexivity|].
  apply elem_of_cons in Hvel as [-> | Hvel]; [right; right; left; reflexivity|].
  apply elem_of_cons in Hvel as [-> | Hvel]; [right; right; right; reflexivity|].
  apply elem_of_nil in Hvel. contradiction.
Qed.


Lemma melodyBars_returns (random : nat → Q) (state : State) (scaleNotes : gset Z)
    (targetMin targetMax startBar length : Z) (mainRhythm : list RhythmEvent)
    (table : list ChordDef) (bs : list Z) :
  chordDegrees !! scaleName state = Some table →
  Forall (λ b, is_Some (js_index table
                          (default 0 (js_index (barChords state) (startBar + b))))) bs →
  ∀ (lastMidi : Z) (newNotes : list Note) (n : nat),
    ∃ res n',
      melodyBars random state scaleNotes targetMin targetMax startBar length mainRhythm
                 bs lastMidi newNotes n = Returns res n'.
Proof.
  intros Htable Hbs. induction Hbs as [|b bs [chordDef Hchord] Hbs IH];
    intros lastMidi newNotes n; simpl.
  - eexists _, _. reflexivity.
  - destruct (totalBars state <=? startBar + b); [eexists _, _; reflexivity|].
    rewrite Htable, Hchord. unfold bind at 1.
    destruct (rhythmForBar_returns random state length b
                (sectionAt (barStructure state) (startBar + b)) mainRhythm n)
      as (pattern & n1 & ->).
    unfold bind at 1.
    destruct (placeNotes_returns random state scaleNotes targetMin targetMax (startBar + b)
                (sectionAt (barStructure state) (startBar + b)) chordDef (b %% 4) pattern
                0 lastMidi newNotes n1) as (placed & n2 & ->).
    apply IH.
Qed.

Lemma generateMelodicRhythm_inherited (random : nat → Q) (complexity : string) (n : nat) :
  inheritedKey complexity = true →
  ∃ error, generateMelodicRhythm random complexity n = Throws error.
Proof.
  intros Hkey. pose proof tables_hold_no_inherited_key as Hall.
  rewrite Forall_forall in Hall.
  destruct (Hall complexity (proj1 (inheritedKey_true complexity) Hkey))
    as (_ & _ & Hnone & _).
  unfold generateMelodicRhythm, js_get. rewrite Hnone, Hkey. eexists. reflexivity.
Qed.

(** X20.  What a call of [generateMelody] comes to, for draws in [[0, 1)].
    It throws when the scale name or the complexity is an inherited key.
    Otherwise: it returns whenever the chord table of the scale has an entry
    for the chord of every requested bar; it throws when the scale has no
    chord table and the first requested bar lies inside the song; and it
    returns no note when no bar is requested or the first requested bar lies
    past the end of the song. *)
Theorem generateMelody_outcome (random : nat → Q) (startBar length : Z)
    (complexity : string) (state : State) :
  (∀ n, (0 <= random n)%Q ∧ (random n < 1)%Q) →
  (inheritedKey (scaleName state) = true ∨ inheritedKey complexity = true →
   run (generateMelody random startBar length complexity state) = None)
  ∧ (inheritedKey (scaleName state) = false → inheritedKey complexity = false →
     (chordsDefined state startBar length →
      is_Some (run (generateMelody random startBar length complexity state)))
     ∧ (chordDegrees !! scaleName state = None → 1 ≤ length →
        startBar < totalBars state →
        run (generateMelody random startBar length complexity state) = None)
     ∧ (length ≤ 0 ∨ totalBars state ≤ startBar →
        run (generateMelody random startBar length complexity state) = Some [])).
Proof.
  intros Hrandom. unfold run, generateMelody. split.
  { intros Hkey. destruct (inheritedKey (scaleName state)); [reflexivity|].
    destruct Hkey as [Hkey | Hkey]; [discriminate Hkey|].
    destruct (targetRange startBar state) as [targetMin targetMax].
    destruct (generateMelodicRhythm_inherited random complexity 0 Hkey) as [error Herr].
    unfold bind. rewrite Herr. reflexivity. }
  intros -> Hcomplexity.
  destruct (targetRange startBar state) as [targetMin targetMax].
  destruct (generateMelodicRhythm_returns random complexity 0 Hrandom Hcomplexity)
    as [mainRhythm Hmain].
  unfold bind. rewrite Hmain. split; [|split].
  - intros (table & Htable & Hchords).
    destruct (melodyBars_returns random state
                (getScaleNotes (rootKey state) (scaleName state)) targetMin targetMax
                startBar length mainRhythm table (seqZ 0 length) Htable) with (-1) (@nil Note) 1%nat
      as (res & n' & ->).
    + apply Forall_forall. intros b Hb. apply elem_of_seqZ in Hb. apply Hchords. lia.
    + eexists. reflexivity.
  - intros Hnone Hlen Hstart. rewrite seqZ_cons by lia. simpl.
    destruct (Z.leb_spec (totalBars state) (startBar + 0)) as [Hbreak | _]; [lia|].
    rewrite Hnone. reflexivity.
  - intros [Hlen | Hstart].
    + rewrite seqZ_nil by lia. reflexivity.
    + destruct (Z.le_gt_cases length 0) as [Hlen | Hlen].
      * rewrite seqZ_nil by lia. reflexivity.
      * rewrite seqZ_cons by lia. simpl.
        destruct (Z.leb_spec (totalBars state) (startBar + 0)) as [_ | Hin]; [reflexivity|].
        lia.
Qed.

Lemma generateMelody_outcome_witness :
  (inheritedKey (scaleName demoState) = true ∨ inheritedKey "LOW" = true →
   run (generateMelody (λ _, 1 # 2)%Q 0 4 "LOW" demoState) = None)
  ∧ (inheritedKey (scaleName demoState) = false → inheritedKey "LOW" = false →
     (chordsDefined demoState 0 4 →
      is_Some (run (generateMelody (λ _, 1 # 2)%Q 0 4 "LOW" demoState)))
     ∧ (chordDegrees !! scaleName demoState = None → 1 ≤ 4 → 0 < totalBars demoState →
        run (generateMelody (λ _, 1 # 2)%Q 0 4 "LOW" demoState) = None)
     ∧ (4 ≤ 0 ∨ totalBars demoState ≤ 0 →
        run (generateMelody (λ _, 1 # 2)%Q 0 4 "LOW" demoState) = Some [])).
Proof.
  apply generateMelody_outcome. intros n. split; [discriminate | reflexivity].
Defined.

Lemma generateMelody_pitches_witness :
  ∃ notes note,
    run (generateMelody (λ _, 1 # 2)%Q 0 4 "LOW" demoState) = Some notes
    ∧ note ∈ notes
    ∧ midi note ∈ getScaleNotes (rootKey demoState) (scaleName demoState)
    ∧ (targetRange 0 demoState).1 ≤ midi note ≤ (targetRange 0 demoState).2
    ∧ midi note ≠ 0
    ∧ 1 ≤ duration note
    ∧ (velocity note = double 0.95
       ∨ velocity note = double 0.8
       ∨ velocity note = (7205759403792793 # 9007199254740992)%Q
       ∨ velocity note = double 0.65).
Proof.
  assert (∃ first rest,
            run (generateMelody (λ _, 1 # 2)%Q 0 4 "LOW" demoState) = Some (first :: rest))
    as (first & rest & Hrun) by (vm_compute; eexists _, _; reflexivity).
  exists (first :: rest), first. split; [exact Hrun|].
  split; [apply list_elem_of_here|].
  apply (generateMelody_pitches _ _ _ _ _ _ _ Hrun). apply list_elem_of_here.
Defined.


Lemma motif_sums :
  Forall (λ motif,
            foldr Z.add 0 (map ev_duration (toRhythm motif)) = 16
            ∧ foldr Z.add 0 (map ev_duration (variateRhythmSimple (toRhythm motif))) = 16)
         allMotifs.
Proof. compute_done. Qed.

(** X21.  For a draw in [[0, 1)] and a complexity that is no inherited key,
    [generateMelodicRhythm] returns one of the motifs of the pool of the
    complexity (the MEDIUM pool for an unknown complexity): notes only, each
    of at least one step, sixteen steps in all.  Its variation by
    [variateRhythmSimple] also counts sixteen steps: splitting the first
    note leaves the length of the bar as it is. *)
Theorem generateMelodicRhythm_fills_bar (random : nat → Q) (complexity : string) (n : nat) :
  (0 <= random n)%Q → (random n < 1)%Q →
  inheritedKey complexity = false →
  ∃ motif mainRhythm,
    generateMelodicRhythm random complexity n = Returns mainRhythm (S n)
    ∧ motif ∈ default motifs_MEDIUM (motifs !! complexity)
    ∧ mainRhythm = map (λ d, {| ev_duration := d; isRest := false |}) motif
    ∧ Forall (λ d, 1 ≤ d) motif
    ∧ foldr Z.add 0 (map ev_duration mainRhythm) = 16
    ∧ foldr Z.add 0 (map ev_duration (variateRhythmSimple mainRhythm)) = 16.
Proof.
  intros H0 H1 Hkey. rewrite (generateMelodicRhythm_plain random complexity Hkey).
  unfold rhythmFrom.
  assert (0 < length (default motifs_MEDIUM (motifs !! complexity)))%nat as Hlen.
  { destruct (motifs !! complexity) as [l|] eqn:Hc; simpl.
    - exact (motifs_nonempty complexity l Hc).
    - compute_done. }
  assert (Forall (λ motif, motif ∈ allMotifs) (default motifs_MEDIUM (motifs !! complexity)))
    as Hall.
  { destruct (motifs !! complexity) as [l|] eqn:Hc; simpl.
    - eapply motifs_in_allMotifs; eassumption.
    - compute_done. }
  revert Hlen Hall. generalize (default motifs_MEDIUM (motifs !! complexity)).
  intros list Hlen Hall.
  destruct (randomElement_returns random list n H0 H1 Hlen) as (motif & Hlook & Hbase).
  unfold bind. rewrite Hbase.
  assert (motif ∈ list) as Hin by (eapply list_elem_of_lookup_2, Hlook).
  rewrite Forall_forall in Hall. specialize (Hall motif Hin).
  pose proof allMotifs_positive as Hpos. rewrite Forall_forall in Hpos.
  destruct (Hpos motif Hall) as [_ Hpositive].
  pose proof motif_sums as Hsums. rewrite Forall_forall in Hsums.
  destruct (Hsums motif Hall) as [Hsum Hvar].
  exists motif, (toRhythm motif). split; [reflexivity|]. split; [exact Hin|].
  split; [reflexivity|]. split.
  { eapply Forall_impl; [exact Hpositive|]. simpl. intros d Hd. lia. }
  split; [exact Hsum | exact Hvar].
Qed.

Lemma generateMelodicRhythm_fills_bar_witness :
  ∃ motif mainRhythm,
    generateMelodicRhythm (λ _, 1 # 2)%Q "LOW" 0%nat = Returns mainRhythm 1%nat
    ∧ motif ∈ default motifs_MEDIUM (motifs !! "LOW")
    ∧ mainRhythm = map (λ d, {| ev_duration := d; isRest := false |}) motif
    ∧ Forall (λ d, 1 ≤ d) motif
    ∧ foldr Z.add 0 (map ev_duration mainRhythm) = 16
    ∧ foldr Z.add 0 (map ev_duration (variateRhythmSimple mainRhythm)) = 16.
Proof.
  apply (generateMelodicRhythm_fills_bar (λ _, 1 # 2)%Q "LOW" 0%nat);
    [discriminate | reflexivity | reflexivity].
Defined.

(** ** The Markov generator *)

Lemma elem_of_insertBy (key : Z → Z) (x y : Z) (l : list Z) :
  y ∈ insertBy key x l ↔ y = x ∨ y ∈ l.
Proof.
  induction l as [|z l IH]; simpl.
  - rewrite list_elem_of_singleton, elem_of_nil. tauto.
  - destruct (key x <=? key z).
    + rewrite elem_of_cons. tauto.
    + rewrite !elem_of_cons, IH. tauto.
Qed.

Lemma elem_of_sortBy (key : Z → Z) (y : Z) (l : list Z) : y ∈ sortBy key l ↔ y ∈ l.
Proof.
  unfold sortBy. induction l as [|x l IH]; simpl; [tauto|].
  rewrite elem_of_insertBy, IH, elem_of_cons. tauto.
Qed.

Lemma smoothFrom_app (prev : option Z) (l1 l2 : list MarkovNote) :
  smoothFrom prev (l1 ++ l2)
  ↔ smoothFrom prev l1 ∧ smoothFrom (foldl (λ _ note, m_midi note) prev l1) l2.
Proof.
  revert prev. induction l1 as [|x l1 IH]; intros prev; simpl; [tauto|].
  rewrite IH. tauto.
Qed.

Lemma smoothFrom_lookup (l : list MarkovNote) :
  ∀ (prev : option Z) (i : nat) (x y : MarkovNote),
    smoothFrom prev l → l !! i = Some x → l !! S i = Some y →
    leapWithinOctave (m_midi x) (m_midi y).
Proof.
  induction l as [|z l IH]; intros prev i x y Hsmooth Hx Hy; [discriminate Hx|].
  destruct Hsmooth as [_ Hsmooth]. destruct i as [|i].
  - injection Hx as <-. destruct l as [|w l]; [discriminate Hy|].
    injection Hy as <-. destruct Hsmooth as [Hstep _]. exact Hstep.
  - exact (IH _ i x y Hsmooth Hx Hy).
Qed.

(** The pitch of a note of the Markov melody: a note of [allScaleNotes] at
    most an octave from the previous pitch, or the previous pitch again. *)
Lemma markovPitch_step (random : nat → Q) (allScaleNotes chordClasses : list Z)
    (currentSection : string) (isStrongBeat : bool) (lastMidi r : option Z) (n n' : nat) :
  lastMidi = Some (-1) ∨ lastMidi = None ∨ (∃ l, lastMidi = Some l ∧ l ∈ allScaleNotes) →
  markovPitch random allScaleNotes chordClasses currentSection isStrongBeat lastMidi n
  = Returns r n' →
  (r = None ∨ ∃ m, r = Some m ∧ m ∈ allScaleNotes)
  ∧ leapWithinOctave lastMidi r.
Proof.
  intros Hinv H. unfold markovPitch in H.
  set (validRangeNotes :=
         if bool_decide (currentSection = "CHORUS")
         then filter (λ n, 65 ≤ n) allScaleNotes else allScaleNotes) in *.
  assert (∀ m, m ∈ validRangeNotes → m ∈ allScaleNotes) as Hvalid.
  { intros m Hm. subst validRangeNotes. case_bool_decide; [|exact Hm].
    apply list_elem_of_filter in Hm as [_ Hm]. exact Hm. }
  clearbody validRangeNotes.
  case_bool_decide as Hfirst.
  - (* first note *)
    subst lastMidi. split; [|destruct r; [left; reflexivity | exact I]].
    unfold randomElement in H. gen_inv H. gen_inv Hk. subst.
    match goal with
    | |- js_index ?l ?i = None ∨ _ => destruct (js_index l i) as [m|] eqn:Hm
    end; [|left; reflexivity].
    right. exists m. split; [reflexivity|]. apply js_index_elem_of in Hm.
    apply Hvalid.
    repeat match type of Hm with
           | _ ∈ (if ?c then _ else _) => destruct c
           | _ ∈ filter _ _ => apply list_elem_of_filter in Hm as [_ Hm]
           end; exact Hm.
  - (* after a note *)
    match type of H with
    | (if bool_decide (0 < length ?c)%nat then _ else _) _ = _ =>
        set (candidates := c) in *;
        assert (∀ m, m ∈ candidates →
                     m ∈ validRangeNotes ∧ within lastMidi 12 m = true) as Hcand
    end.
    { intros m Hm. subst candidates.
      assert (∀ x, x ∈ filter (λ n, within lastMidi 7 n = true) validRangeNotes →
                   x ∈ validRangeNotes ∧ within lastMidi 12 x = true) as Hnear.
      { intros x Hx. apply list_elem_of_filter in Hx as [Hw Hx]. split; [exact Hx|].
        unfold within in *. destruct lastMidi as [l|]; [|discriminate Hw].
        apply Z.leb_le in Hw. apply Z.leb_le. lia. }
      repeat match type of Hm with
             | _ ∈ (if ?c then _ else _) => destruct c
             end;
        first [ apply Hnear; exact Hm
              | apply list_elem_of_filter in Hm as [Hw Hm]; split; assumption
              | apply list_elem_of_filter in Hm as [_ Hm]; apply Hnear; exact Hm
              | apply elem_of_nil in Hm; contradiction ]. }
    clearbody candidates.
    case_bool_decide as Hlen.
    + gen_inv H. gen_inv Hk. subst.
      match goal with
      | |- (js_index ?l ?i = None ∨ _) ∧ _ => destruct (js_index l i) as [m|] eqn:Hm
      end; [|split; [left; reflexivity | destruct lastMidi; exact I]].
      apply js_index_elem_of, elem_of_sortBy, Hcand in Hm as [Hm Hw].
      split; [right; exists m; split; [reflexivity | apply Hvalid, Hm]|].
      unfold within in Hw. destruct lastMidi as [l|]; [|discriminate Hw].
      apply Z.leb_le in Hw. right. exact Hw.
    + gen_inv H. subst.
      destruct Hinv as [Hinv | [-> | (l & -> & Hl)]]; [contradiction | |].
      * split; [left; reflexivity | exact I].
      * split; [right; exists l; split; [reflexivity | exact Hl]|].
        right. rewrite Z.sub_diag. simpl. lia.
Qed.

Lemma markovNotes_smooth (random : nat → Q) (stepsPerBar : Z)
    (allScaleNotes chordClasses : list Z) (absoluteBar : Z) (currentSection : string)
    (pattern : list MotifEvent) :
  ∀ (currentStepInBar : Q) (lastMidi : option Z) (generatedNotes : list MarkovNote)
    (n n' : nat) (res : option Z * list MarkovNote),
    lastMidi = Some (-1) ∨ lastMidi = None ∨ (∃ l, lastMidi = Some l ∧ l ∈ allScaleNotes) →
    markovNotes random stepsPerBar allScaleNotes chordClasses absoluteBar currentSection
                pattern currentStepInBar lastMidi generatedNotes n
    = Returns res n' →
    ∃ new,
      res.2 = generatedNotes ++ new
      ∧ smoothFrom lastMidi new
      ∧ Forall (λ note, ∀ a, m_midi note = Some a → a ∈ allScaleNotes) new
      ∧ (res.1 = Some (-1) ∨ res.1 = None ∨ (∃ l, res.1 = Some l ∧ l ∈ allScaleNotes))
      ∧ res.1 = foldl (λ _ note, m_midi note) lastMidi new.
Proof.
  induction pattern as [|noteDef rest IH];
    intros cur lastMidi notes n n' res Hinv H; simpl in H.
  - gen_inv H. subst. exists []. rewrite app_nil_r.
    split; [reflexivity|]. split; [exact I|]. split; [constructor|].
    split; [exact Hinv | reflexivity].
  - destruct (Qle_bool (inject_Z stepsPerBar) cur).
    { gen_inv H. subst. exists []. rewrite app_nil_r.
      split; [reflexivity|]. split; [exact I|]. split; [constructor|].
      split; [exact Hinv | reflexivity]. }
    destruct (bool_decide (ev_type noteDef = "REST")).
    { apply IH in H; [exact H | exact Hinv]. }
    gen_inv H. gen_inv Hk.
    apply markovPitch_step in Hrun as [Hpitch Hleap]; [|exact Hinv].
    assert (a = Some (-1) ∨ a = None ∨ (∃ l, a = Some l ∧ l ∈ allScaleNotes)) as Hinv'.
    { destruct Hpitch as [-> | (m & -> & Hm)]; [right; left; reflexivity|].
      right. right. exists m. split; [reflexivity | exact Hm]. }
    apply IH in Hk0 as (new & Hnew & Hsmooth & Hpitches & Hlast & Hfold); [|exact Hinv'].
    eexists (_ :: new). rewrite Hnew, <- app_assoc. split; [reflexivity|].
    split; [split; [exact Hleap | exact Hsmooth]|].
    split; [|split; [exact Hlast | exact Hfold]].
    constructor; [|exact Hpitches]. cbn [m_midi]. intros m ->.
    destruct Hpitch as [Hnone | (m' & Hm' & Hin)]; [discriminate Hnone|].
    injection Hm' as <-. exact Hin.
Qed.

Lemma markovBars_smooth (random : nat → Q) (stepsPerBar : Z) (allScaleNotes : list Z)
    (motifBank : gmap string (list MotifEvent)) (structure : list string)
    (chordNotesMap : gmap Z (list Z)) (startBar : Z) (bs : list Z) :
  ∀ (lastMidi : option Z) (generatedNotes : list MarkovNote) (n n' : nat)
    (res : list MarkovNote),
    lastMidi = Some (-1) ∨ lastMidi = None ∨ (∃ l, lastMidi = Some l ∧ l ∈ allScaleNotes) →
    markovBars random stepsPerBar allScaleNotes motifBank structure chordNotesMap
               startBar bs lastMidi generatedNotes n
    = Returns res n' →
    ∃ new,
      res = generatedNotes ++ new
      ∧ smoothFrom lastMidi new
      ∧ Forall (λ note, ∀ a, m_midi note = Some a → a ∈ allScaleNotes) new.
Proof.
  induction bs as [|b bs IH]; intros lastMidi notes n n' res Hinv H; simpl in H.
  - gen_inv H. subst. exists []. rewrite app_nil_r.
    split; [reflexivity|]. split; [exact I | constructor].
  - gen_inv H. gen_inv Hk.
    apply markovNotes_smooth in Hrun0 as (mid & Hmid & Hsmooth & Hpitches & Hlast & Hfold);
      [|exact Hinv].
    apply IH in Hk0 as (new & Hnew & Hsmooth' & Hpitches'); [|exact Hlast].
    exists (mid ++ new). rewrite Hnew, Hmid, app_assoc. split; [reflexivity|].
    split; [|apply Forall_app; split; assumption].
    apply smoothFrom_app. split; [exact Hsmooth|]. rewrite <- Hfold. exact Hsmooth'.
Qed.

Lemma elem_of_getScaleNotesArr (root : Z) (scaleName : string) (minMidi maxMidi m : Z) :
  m ∈ getScaleNotesArr root scaleName minMidi maxMidi
  ↔ minMidi ≤ m ≤ maxMidi ∧ m ∈ getScaleNotes root scaleName.
Proof.
  unfold getScaleNotesArr. rewrite list_elem_of_filter, elem_of_seqZ. intuition lia.
Qed.

(** X22.  The melody of [generateMelodyMarkov] does not jump: every pitch
    that is a number is a scale note of 55..84, and from a note to the next
    the pitch moves by at most twelve semitones, in every section, on every
    beat and for every sequence of draws. *)
Theorem generateMelodyMarkov_no_jump (random : nat → Q) (root : Z) (scaleName : string)
    (chordNotesMap : gmap Z (list Z)) (startBar numBars : Z) (complexity : string)
    (state : State) (notes : list MarkovNote) :
  run (generateMelodyMarkov random root scaleName chordNotesMap startBar numBars
                            complexity state) = Some notes →
  (∀ note a, note ∈ notes → m_midi note = Some a →
             55 ≤ a ≤ 84 ∧ a ∈ getScaleNotes root scaleName)
  ∧ ∀ (i : nat) (x y : MarkovNote) (a b : Z),
      notes !! i = Some x → notes !! S i = Some y →
      m_midi x = Some a → m_midi y = Some b →
      Z.abs (b - a) ≤ 12.
Proof.
  intros Hrun. apply run_Some in Hrun as [n' Hrun].
  unfold generateMelodyMarkov in Hrun.
  destruct (inheritedKey scaleName); [discriminate Hrun|]. gen_inv Hrun.
  apply markovBars_smooth in Hk as (new & Hnew & Hsmooth & Hpitches);
    [|left; reflexivity].
  cbn [app] in Hnew. subst new.
  assert (∀ note a, note ∈ notes → m_midi note = Some a →
                    55 ≤ a ≤ 84 ∧ a ∈ getScaleNotes root scaleName) as Hrange.
  { intros note m Hnote Hm. rewrite Forall_forall in Hpitches.
    specialize (Hpitches note Hnote m Hm).
    apply elem_of_getScaleNotesArr in Hpitches as [Hin Hscale].
    split; [lia | exact Hscale]. }
  split; [exact Hrange|].
  intros i x y m1 m2 Hx Hy Hm1 Hm2.
  pose proof (smoothFrom_lookup notes _ i x y Hsmooth Hx Hy) as Hleap.
  rewrite Hm1, Hm2 in Hleap. destruct Hleap as [Hstart | Hleap]; [|exact Hleap].
  apply list_elem_of_lookup_2 in Hx. destruct (Hrange x m1 Hx Hm1) as [Hlow _]. lia.
Qed.

Lemma generateMelodyMarkov_no_jump_witness :
  ∃ notes,
    run (generateMelodyMarkov (λ _, 1 # 2)%Q 0 "Major" demoChordNotes 0 4 "LOW" demoState)
    = Some notes
    ∧ (2 ≤ length notes)%nat
    ∧ (∀ note a, note ∈ notes → m_midi note = Some a →
                 55 ≤ a ≤ 84 ∧ a ∈ getScaleNotes 0 "Major")
    ∧ ∀ (i : nat) (x y : MarkovNote) (a b : Z),
        notes !! i = Some x → notes !! S i = Some y →
        m_midi x = Some a → m_midi y = Some b →
        Z.abs (b - a) ≤ 12.
Proof.
  assert (∃ first second rest,
            run (generateMelodyMarkov (λ _, 1 # 2)%Q 0 "Major" demoChordNotes 0 4 "LOW"
                                      demoState)
            = Some (first :: second :: rest))
    as (first & second & rest & Hrun) by (vm_compute; eexists _, _, _; reflexivity).
  exists (first :: second :: rest). split; [exact Hrun|]. split; [simpl; lia|].
  exact (generateMelodyMarkov_no_jump _ _ _ _ _ _ _ _ _ Hrun).
Defined.

Lemma Qfloor_integer (q : Q) (z : Z) : (q == inject_Z z)%Q → Qfloor q = z.
Proof. intros H. rewrite (Qfloor_comp _ _ H). apply Qfloor_Z. Qed.

Lemma motif_duration (k d : Z) (q : Q) :
  1 ≤ k → 1 ≤ d → (q == inject_Z k * inject_Z d)%Q →
  Z.max 1 (Math_floor q) = k * d.
Proof.
  intros Hk Hd Hq. unfold Math_floor.
  rewrite (Qfloor_integer q (k * d)); [nia|].
  rewrite Hq, inject_Z_mult. reflexivity.
Qed.

(** X23.  On a grid of [16 k] steps per bar, [generateGoodMotif] (the
    declaration that is in force) returns, for a draw in [[0, 1)] and every
    complexity, a motif of notes whose whole durations add up to the bar;
    no note is shorter than a sixteenth ([k] steps). *)
Theorem generateGoodMotif_fills_bar (random : nat → Q) (complexity : string)
    (k : Z) (n : nat) :
  (0 <= random n)%Q → (random n < 1)%Q → 1 ≤ k →
  ∃ durs,
    generateGoodMotif random complexity (16 * k) n
    = Returns (map (λ d, {| dur := inject_Z d; ev_type := "NOTE" |}) durs) (S n)
    ∧ Forall (λ d, k ≤ d) durs
    ∧ foldr Z.add 0 durs = 16 * k.
Proof.
  intros H0 H1 Hk. unfold generateGoodMotif. cbv zeta.
  set (beat := (inject_Z (16 * k) / 4)%Q).
  assert (beat == inject_Z k * inject_Z 4)%Q as Hbeat.
  { subst beat. rewrite inject_Z_mult. field. }
  match goal with
  | |- context [randomElement random ?src] =>
      assert (0 < length src)%nat as Hlen
        by (repeat case_bool_decide; simpl; lia);
      destruct (randomElement_returns random src n H0 H1 Hlen) as (raw & Hlook & Hraw);
      assert (raw ∈ [ [beat; beat; beat; beat];
                      [beat * 1.5; beat * 0.5; beat; beat];
                      [beat * 2; beat; beat];
                      [beat / 2; beat / 2; beat; beat / 2; beat / 2; beat];
                      [beat * 0.75; beat * 0.25; beat; beat * 0.75; beat * 0.25; beat];
                      [beat; beat / 2; beat / 2; beat / 2; beat / 2; beat] ]%Q) as Hin
        by (apply list_elem_of_lookup_2 in Hlook; revert Hlook;
            repeat case_bool_decide; rewrite ?elem_of_app, !elem_of_cons; tauto)
  end.
  unfold bind. rewrite Hraw. clear Hraw Hlook Hlen.
  assert (Z.max 1 (Math_floor beat) = k * 4) as E4
    by (apply motif_duration; [lia | lia | exact Hbeat]).
  assert (Z.max 1 (Math_floor (beat * 1.5)) = k * 6) as E6
    by (apply motif_duration; [lia | lia | rewrite Hbeat; field]).
  assert (Z.max 1 (Math_floor (beat * 0.5)) = k * 2) as E2
    by (apply motif_duration; [lia | lia | rewrite Hbeat; field]).
  assert (Z.max 1 (Math_floor (beat * 2)) = k * 8) as E8
    by (apply motif_duration; [lia | lia | rewrite Hbeat; field]).
  assert (Z.max 1 (Math_floor (beat / 2)) = k * 2) as E2'
    by (apply motif_duration; [lia | lia | rewrite Hbeat; field]).
  assert (Z.max 1 (Math_floor (beat * 0.75)) = k * 3) as E3
    by (apply motif_duration; [lia | lia | rewrite Hbeat; field]).
  assert (Z.max 1 (Math_floor (beat * 0.25)) = k * 1) as E1
    by (apply motif_duration; [lia | lia | rewrite Hbeat; field]).
  clearbody beat.
  revert Hin. rewrite !elem_of_cons, elem_of_nil.
  intros [-> | [-> | [-> | [-> | [-> | [-> | []]]]]]];
    cbn [map]; rewrite ?E1, ?E2, ?E2', ?E3, ?E4, ?E6, ?E8.
  - exists [k * 4; k * 4; k * 4; k * 4]. split; [reflexivity|].
    split; [repeat constructor; lia | simpl; lia].
  - exists [k * 6; k * 2; k * 4; k * 4]. split; [reflexivity|].
    split; [repeat constructor; lia | simpl; lia].
  - exists [k * 8; k * 4; k * 4]. split; [reflexivity|].
    split; [repeat constructor; lia | simpl; lia].
  - exists [k * 2; k * 2; k * 4; k * 2; k * 2; k * 4]. split; [reflexivity|].
    split; [repeat constructor; lia | simpl; lia].
  - exists [k * 3; k * 1; k * 4; k * 3; k * 1; k * 4]. split; [reflexivity|].
    split; [repeat constructor; lia | simpl; lia].
  - exists [k * 4; k * 2; k * 2; k * 2; k * 2; k * 4]. split; [reflexivity|].
    split; [repeat constructor; lia | simpl; lia].
Qed.

Lemma generateGoodMotif_fills_bar_witness :
  ∃ durs,
    generateGoodMotif (λ _, 1 # 2)%Q "HIGH" (16 * 1) 0%nat
    = Returns (map (λ d, {| dur := inject_Z d; ev_type := "NOTE" |}) durs) 1%nat
    ∧ Forall (λ d, 1 ≤ d) durs
    ∧ foldr Z.add 0 durs = 16 * 1.
Proof.
  apply (generateGoodMotif_fills_bar (λ _, 1 # 2)%Q "HIGH" 1 0%nat);
    [discriminate | reflexivity | lia].
Defined.

(** ** Chord roots *)

Lemma chord_tables_first_intervals :
  map_Forall (λ (_ : string) (table : list ChordDef),
     (table !! 0%nat ≫= λ tonic, intervals tonic !! 0%nat) = Some 0
     ∧ Forall (λ chordDef, 0 ≤ default (-1) (intervals chordDef !! 0%nat) ≤ 11) table)
    chordDegrees.
Proof. compute_done. Qed.

Lemma chord_tables_shape :
  map_Forall (λ (_ : string) (table : list ChordDef),
     (∃ tonic, table !! 0%nat = Some tonic ∧ intervals tonic !! 0%nat = Some 0)
     ∧ Forall (λ chordDef, ∃ first, intervals chordDef !! 0%nat = Some first
                                    ∧ 0 ≤ first ≤ 11) table)
    chordDegrees.
Proof.
  intros scaleName table Htable.
  destruct (chord_tables_first_intervals scaleName table Htable) as [Htonic Hall]. split.
  - destruct (table !! 0%nat) as [tonic|]; [|discriminate Htonic].
    exists tonic. split; [reflexivity | exact Htonic].
  - eapply Forall_impl; [exact Hall|]. simpl. intros chordDef Hfirst.
    destruct (intervals chordDef !! 0%nat) as [first|]; simpl in Hfirst; [|lia].
    exists first. split; [reflexivity | exact Hfirst].
Qed.

(** X24.  [getChordRootInScale] for a scale root that is not negative
    answers a pitch class, 0..11: the root plus the first interval of the
    chord, mod 12.  Degree 0 of every scale that has a chord table is the
    scale root itself.  When the scale has no table or the table has no
    entry at the index, the answer is 0 whatever the root. *)
Theorem getChordRootInScale_pitch_class (scaleRoot : Z) (scaleName : string)
    (chordDegreeIndex : Z) :
  0 ≤ scaleRoot →
  0 ≤ getChordRootInScale scaleRoot scaleName chordDegreeIndex ≤ 11
  ∧ (∀ table chordDef first,
       chordDegrees !! scaleName = Some table →
       js_index table chordDegreeIndex = Some chordDef →
       intervals chordDef !! 0%nat = Some first →
       getChordRootInScale scaleRoot scaleName chordDegreeIndex
       = (scaleRoot + first) `mod` 12)
  ∧ (is_Some (chordDegrees !! scaleName) →
     getChordRootInScale scaleRoot scaleName 0 = scaleRoot `mod` 12)
  ∧ ((∀ table, chordDegrees !! scaleName = Some table →
               js_index table chordDegreeIndex = None) →
     getChordRootInScale scaleRoot scaleName chordDegreeIndex = 0).
Proof.
  intros Hroot. unfold getChordRootInScale.
  destruct (chordDegrees !! scaleName) as [table|] eqn:Htable.
  - destruct (chord_tables_shape scaleName table Htable) as [(tonic & Htonic & Hzero) Hall].
    split; [|split; [|split]].
    + destruct (js_index table chordDegreeIndex) as [chordDef|] eqn:Hdef; [|lia].
      rewrite Forall_forall in Hall.
      destruct (Hall chordDef (js_index_elem_of _ _ _ Hdef)) as (first & -> & Hfirst).
      simpl. unfold js_rem. rewrite Z.rem_mod_nonneg by lia.
      pose proof (Z.mod_pos_bound (scaleRoot + first) 12 ltac:(lia)). lia.
    + intros table' chordDef first Ht Hdef Hfirst. injection Ht as <-.
      rewrite Hdef, Hfirst. simpl. rewrite Forall_forall in Hall.
      destruct (Hall chordDef (js_index_elem_of _ _ _ Hdef)) as (first' & Hf & Hrange).
      rewrite Hfirst in Hf. injection Hf as <-.
      unfold js_rem. apply Z.rem_mod_nonneg; lia.
    + intros _. unfold js_index. rewrite bool_decide_eq_true_2 by lia.
      change (Z.to_nat 0) with 0%nat. rewrite Htonic, Hzero. simpl.
      rewrite Z.add_0_r. unfold js_rem. apply Z.rem_mod_nonneg; lia.
    + intros Hnone. rewrite (Hnone table eq_refl). reflexivity.
  - split; [lia|]. split; [intros table chordDef first Ht; discriminate Ht|].
    split; [intros [t Ht]; discriminate Ht | reflexivity].
Qed.

Lemma getChordRootInScale_pitch_class_witness :
  0 ≤ getChordRootInScale 9 "Minor" 4 ≤ 11
  ∧ (∀ table chordDef first,
       chordDegrees !! "Minor" = Some table →
       js_index table 4 = Some chordDef →
       intervals chordDef !! 0%nat = Some first →
       getChordRootInScale 9 "Minor" 4 = (9 + first) `mod` 12)
  ∧ (is_Some (chordDegrees !! "Minor") → getChordRootInScale 9 "Minor" 0 = 9 `mod` 12)
  ∧ ((∀ table, chordDegrees !! "Minor" = Some table → js_index table 4 = None) →
     getChordRootInScale 9 "Minor" 4 = 0).
Proof. apply getChordRootInScale_pitch_class. lia. Defined.

Lemma chordMapLoop_entries (state : State) (bars : list Z) :
  ∀ (chordMap result : gmap Z (list Z)) (i : Z) (notes : list Z),
    chordMapLoop state bars chordMap = Some result →
    result !! i = Some notes →
    chordMap !! i = Some notes
    ∨ ∃ table chordDef,
        i ∈ bars
        ∧ chordDegrees !! scaleName state = Some table
        ∧ js_index table (default 0 (js_index (barChords state) i)) = Some chordDef
        ∧ notes = map (λ interval,
                         getChordRootInScale (rootKey state) (scaleName state)
                           (default 0 (js_index (barChords state) i)) + interval + 60)
                      (intervals chordDef).
Proof.
  induction bars as [|bar bars IH]; intros chordMap result i notes H Hlook;
    cbn [chordMapLoop] in H.
  - injection H as <-. left. exact Hlook.
  - destruct (chordDegrees !! scaleName state) as [table|] eqn:Htable in H;
      [|discriminate H].
    destruct (js_index table (default 0 (js_index (barChords state) bar)))
      as [chordDef|] eqn:Hdef.
    + destruct (IH _ _ _ _ H Hlook) as [Hold | (t & cd & Hin & Hrest)].
      * destruct (decide (bar = i)) as [-> | Hne].
        -- rewrite lookup_insert_eq in Hold. injection Hold as <-. right.
           exists table, chordDef. split; [apply list_elem_of_here|].
           split; [exact Htable|]. split; [exact Hdef | reflexivity].
        -- rewrite lookup_insert_ne in Hold by exact Hne. left. exact Hold.
      * right. exists t, cd. split; [apply list_elem_of_further, Hin | exact Hrest].
    + destruct (IH _ _ _ _ H Hlook) as [Hold | (t & cd & Hin & Hrest)];
        [left; exact Hold|].
      right. exists t, cd. split; [apply list_elem_of_further, Hin | exact Hrest].
Qed.

(** X25.  The chord map the "generate melody" handler gives the Markov
    generator, for a root in 0..11: a bar of the selection whose chord exists
    gets one pitch per interval of the chord, and the pitch class of each is
    the root plus the interval plus, once more, the first interval of the
    chord.  For a chord whose first interval is 0 these are the pitch
    classes [analyzeBarHarmony] and [pickSmoothNote] allow for the chord; for
    any other chord they are those classes moved up by its first interval. *)
Theorem chordMapFor_pitch_classes (state : State) (startBar lenBars i : Z)
    (chordMap : gmap Z (list Z)) (notes : list Z) :
  0 ≤ rootKey state ≤ 11 →
  chordMapFor state startBar lenBars = Some chordMap →
  chordMap !! i = Some notes →
  ∃ table chordDef first,
    startBar ≤ i < startBar + lenBars
    ∧ chordDegrees !! scaleName state = Some table
    ∧ js_index table (default 0 (js_index (barChords state) i)) = Some chordDef
    ∧ intervals chordDef !! 0%nat = Some first
    ∧ map (λ note, note `mod` 12) notes
      = map (λ pc, (pc + first) `mod` 12) (allowedPCsOf (rootKey state) chordDef)
    ∧ (first = 0 →
       map (λ note, note `mod` 12) notes = allowedPCsOf (rootKey state) chordDef).
Proof.
  intros Hroot Hmap Hlook. unfold chordMapFor in Hmap.
  destruct (chordMapLoop_entries _ _ _ _ _ _ Hmap Hlook)
    as [Hempty | (table & chordDef & Hin & Htable & Hdef & ->)].
  { rewrite lookup_empty in Hempty. discriminate Hempty. }
  apply elem_of_seqZ in Hin.
  destruct (chord_tables_shape _ table Htable) as [_ Hall].
  rewrite Forall_forall in Hall.
  destruct (Hall chordDef (js_index_elem_of _ _ _ Hdef)) as (first & Hfirst & Hfirst_range).
  pose proof (chord_intervals_in_octave _ table Htable) as Hint.
  rewrite Forall_forall in Hint. specialize (Hint chordDef (js_index_elem_of _ _ _ Hdef)).
  exists table, chordDef, first. split; [lia|]. split; [exact Htable|].
  split; [exact Hdef|]. split; [exact Hfirst|].
  assert (getChordRootInScale (rootKey state) (scaleName state)
            (default 0 (js_index (barChords state) i))
          = (rootKey state + first) `mod` 12) as ->.
  { unfold getChordRootInScale. rewrite Htable, Hdef, Hfirst. simpl.
    unfold js_rem. apply Z.rem_mod_nonneg; lia. }
  assert (map (λ note, note `mod` 12)
              (map (λ interval, (rootKey state + first) `mod` 12 + interval + 60)
                   (intervals chordDef))
          = map (λ pc, (pc + first) `mod` 12) (allowedPCsOf (rootKey state) chordDef))
    as Hclasses.
  { unfold allowedPCsOf. rewrite !map_map. apply map_ext_in. intros interval Hi.
    apply list_elem_of_In in Hi. rewrite Forall_forall in Hint. specialize (Hint interval Hi).
    unfold js_rem. rewrite (Z.rem_mod_nonneg (rootKey state + interval)) by lia.
    replace ((rootKey state + first) `mod` 12 + interval + 60)
      with ((rootKey state + first) `mod` 12 + (interval + 5 * 12)) by lia.
    rewrite Zplus_mod_idemp_l, Zplus_mod_idemp_l.
    replace (rootKey state + first + (interval + 5 * 12))
      with (rootKey state + interval + first + 5 * 12) by lia.
    apply Z.mod_add. lia. }
  split; [exact Hclasses|].
  intros ->. rewrite Hclasses. unfold allowedPCsOf. rewrite map_map.
  apply map_ext_in. intros interval Hi. rewrite Z.add_0_r.
  apply Z.mod_small. unfold js_rem.
  apply list_elem_of_In in Hi. rewrite Forall_forall in Hint. specialize (Hint interval Hi).
  rewrite Z.rem_mod_nonneg by lia. apply Z.mod_pos_bound. lia.
Qed.

Lemma chordMapFor_pitch_classes_witness :
  ∃ chordMap notes,
    chordMapFor demoState 0 4 = Some chordMap
    ∧ chordMap !! 2 = Some notes
    ∧ notes = [74; 78; 69]
    ∧ ∃ table chordDef first,
        0 ≤ 2 < 0 + 4
        ∧ chordDegrees !! scaleName demoState = Some table
        ∧ js_index table (default 0 (js_index (barChords demoState) 2)) = Some chordDef
        ∧ intervals chordDef !! 0%nat = Some first
        ∧ map (λ note, note `mod` 12) notes
          = map (λ pc, (pc + first) `mod` 12) (allowedPCsOf (rootKey demoState) chordDef)
        ∧ (first = 0 →
           map (λ note, note `mod` 12) notes = allowedPCsOf (rootKey demoState) chordDef).
Proof.
  assert (∃ chordMap, chordMapFor demoState 0 4 = Some chordMap
                      ∧ chordMap !! 2 = Some [74; 78; 69]) as (chordMap & Hmap & Hlook)
    by (vm_compute; eexists; split; reflexivity).
  exists chordMap, [74; 78; 69]. split; [exact Hmap|]. split; [exact Hlook|].
  split; [reflexivity|].
  apply (chordMapFor_pitch_classes demoState 0 4 2 chordMap [74; 78; 69]);
    [simpl; lia | exact Hmap | exact Hlook].
Defined.

Lemma markovPitch_returns (random : nat → Q) (allScaleNotes chordClasses : list Z)
    (currentSection : string) (isStrongBeat : bool) (lastMidi : option Z) (n : nat) :
  ∃ r n',
    markovPitch random allScaleNotes chordClasses currentSection isStrongBeat lastMidi n
    = Returns r n'.
Proof.
  unfold markovPitch, randomElement, bind, Math_random, ret.
  repeat match goal with
         | |- context [if ?c then _ else _] => destruct c
         end; eexists _, _; reflexivity.
Qed.

Lemma markovNotes_returns (random : nat → Q) (stepsPerBar : Z)
    (allScaleNotes chordClasses : list Z) (absoluteBar : Z) (currentSection : string)
    (pattern : list MotifEvent) :
  ∀ (currentStepInBar : Q) (lastMidi : option Z) (generatedNotes : list MarkovNote)
    (n : nat),
    ∃ res n',
      markovNotes random stepsPerBar allScaleNotes chordClasses absoluteBar currentSection
                  pattern currentStepInBar lastMidi generatedNotes n
      = Returns res n'.
Proof.
  induction pattern as [|noteDef rest IH]; intros cur lastMidi notes n; simpl.
  - eexists _, _. reflexivity.
  - destruct (Qle_bool (inject_Z stepsPerBar) cur); [eexists _, _; reflexivity|].
    destruct (bool_decide (ev_type noteDef = "REST")); [apply IH|].
    unfold bind at 1.
    match goal with
    | |- context [markovPitch ?r ?a ?c ?s ?b ?l ?m] =>
        destruct (markovPitch_returns r a c s b l m) as (pitch & n1 & ->)
    end.
    unfold bind at 1. unfold Math_random at 1. apply IH.
Qed.

Lemma bind_returns {A B : Type} (m : Gen A) (f : A → Gen B) (n : nat) :
  (∃ a n1, m n = Returns a n1) →
  (∀ a n1, ∃ b n', f a n1 = Returns b n') →
  ∃ b n', bind m f n = Returns b n'.
Proof. intros (a & n1 & Hm) Hf. unfold bind. rewrite Hm. apply Hf. Qed.

Lemma markovBars_returns (random : nat → Q) (stepsPerBar : Z) (allScaleNotes : list Z)
    (motifBank : gmap string (list MotifEvent)) (structure : list string)
    (chordNotesMap : gmap Z (list Z)) (startBar : Z) (bs : list Z) :
  Forall (λ sec, inheritedKey sec = false) structure →
  ∀ (lastMidi : option Z) (generatedNotes : list MarkovNote) (n : nat),
    ∃ res n',
      markovBars random stepsPerBar allScaleNotes motifBank structure chordNotesMap
                 startBar bs lastMidi generatedNotes n
      = Returns res n'.
Proof.
  intros Hplain. induction bs as [|b bs IH]; intros lastMidi notes n; cbn [markovBars].
  - eexists _, _. reflexivity.
  - cbv zeta.
    set (currentSection := match js_index structure (startBar + b) with
                           | Some sec => if bool_decide (sec = "") then "VERSE" else sec
                           | None => "VERSE"
                           end).
    assert (inheritedKey currentSection = false) as Hsection.
    { subst currentSection.
      destruct (js_index structure (startBar + b)) as [sec|] eqn:Hsec; [|reflexivity].
      case_bool_decide; [reflexivity|].
      rewrite Forall_forall in Hplain. apply Hplain. eapply js_index_elem_of, Hsec. }
    rewrite (js_get_plain motifBank currentSection Hsection).
    apply bind_returns.
    + destruct (b %% 4 =? 3); [eexists _, _; reflexivity|].
      destruct (motifBank !! currentSection); destruct (b %% 4 =? 2);
        eexists _, _; reflexivity.
    + intros currentPattern n1. apply bind_returns; [apply markovNotes_returns|].
      intros placed n2. apply IH.
Qed.

Lemma generateGoodMotif_returns (random : nat → Q) (complexity : string)
    (stepsPerBar : Z) (n : nat) :
  (0 <= random n)%Q → (random n < 1)%Q →
  ∃ motif, generateGoodMotif random complexity stepsPerBar n = Returns motif (S n).
Proof.
  intros H0 H1. unfold generateGoodMotif. cbv zeta.
  match goal with
  | |- context [randomElement random ?src] =>
      assert (0 < length src)%nat as Hlen
        by (repeat case_bool_decide; simpl; lia);
      destruct (randomElement_returns random src n H0 H1 Hlen) as (raw & _ & Hraw)
  end.
  unfold bind. rewrite Hraw. eexists. reflexivity.
Qed.

(** X26.  What a call of [generateMelodyMarkov] comes to, for draws in
    [[0, 1)].  It throws when the scale name is an inherited key.  Otherwise,
    when no section of the song is an inherited key, it returns, whatever the
    root, the chord map, the selection and the complexity: a bar that has no
    chord in the map, an unknown scale or an empty range of scale notes yield
    notes all the same (their pitch may be not a number).  Sixteen steps per
    bar are taken when the state has none. *)
Theorem generateMelodyMarkov_returns (random : nat → Q) (root : Z) (scaleName : string)
    (chordNotesMap : gmap Z (list Z)) (startBar numBars : Z) (complexity : string)
    (state : State) :
  (∀ n, (0 <= random n)%Q ∧ (random n < 1)%Q) →
  (inheritedKey scaleName = true →
   run (generateMelodyMarkov random root scaleName chordNotesMap startBar numBars
                             complexity state) = None)
  ∧ (inheritedKey scaleName = false →
     Forall (λ sec, inheritedKey sec = false) (barStructure state) →
     ∃ notes,
       run (generateMelodyMarkov random root scaleName chordNotesMap startBar numBars
                                 complexity state) = Some notes
       ∧ (numBars ≤ 0 → notes = [])).
Proof.
  intros Hrandom. unfold run, generateMelodyMarkov, buildMotifBank. cbv zeta.
  split; [intros ->; reflexivity|]. intros -> Hplain.
  set (steps := if stepsPerBar state =? 0 then 16 else stepsPerBar state).
  destruct (generateGoodMotif_returns random complexity steps 0
              (proj1 (Hrandom _)) (proj2 (Hrandom _))) as [intro Hintro].
  destruct (generateGoodMotif_returns random complexity steps 1
              (proj1 (Hrandom _)) (proj2 (Hrandom _))) as [verse Hverse].
  destruct (generateGoodMotif_returns random complexity steps 2
              (proj1 (Hrandom _)) (proj2 (Hrandom _))) as [chorus Hchorus].
  destruct (generateGoodMotif_returns random complexity steps 3
              (proj1 (Hrandom _)) (proj2 (Hrandom _))) as [bridge Hbridge].
  destruct (generateGoodMotif_returns random complexity steps 4
              (proj1 (Hrandom _)) (proj2 (Hrandom _))) as [outro Houtro].
  unfold bind. rewrite Hintro, Hverse, Hchorus, Hbridge, Houtro. unfold ret.
  match goal with
  | |- context [markovBars ?r ?s ?a ?bank ?st ?cm ?sb ?bs ?l ?g ?m] =>
      destruct (markovBars_returns r s a bank st cm sb bs Hplain l g m)
        as (res & n' & Hres)
  end.
  rewrite Hres. exists res. split; [reflexivity|].
  intros Hnone. rewrite seqZ_nil in Hres by lia. simpl in Hres.
  unfold ret in Hres. injection Hres as <- _. reflexivity.
Qed.

Lemma generateMelodyMarkov_returns_witness :
  (inheritedKey "Major" = true →
   run (generateMelodyMarkov (λ _, 1 # 2)%Q 0 "Major" ∅ 0 4 "LOW" demoState) = None)
  ∧ (inheritedKey "Major" = false →
     Forall (λ sec, inheritedKey sec = false) (barStructure demoState) →
     ∃ notes,
       run (generateMelodyMarkov (λ _, 1 # 2)%Q 0 "Major" ∅ 0 4 "LOW" demoState)
       = Some notes
       ∧ (4 ≤ 0 → notes = [])).
Proof.
  apply generateMelodyMarkov_returns. intros n. split; [discriminate | reflexivity].
Defined.

(** ** The bass track *)

Lemma scale_offsets_in_octave :
  map_Forall (λ (_ : string) (offsets : list Z),
                offsets ≠ [] ∧ Forall (λ interval, 0 ≤ interval ≤ 11) offsets) scales.
Proof. compute_done. Qed.

Lemma bass_follows_chord_table :
  map_Forall (λ (name : string) (table : list ChordDef),
     name = "Blues"
     ∨ imap (λ (i : nat) (_ : ChordDef),
               scales !! name ≫= λ offsets, offsets !! (i mod length offsets)%nat) table
       = map (λ chordDef, intervals chordDef !! 0%nat) table) chordDegrees.
Proof. compute_done. Qed.

(** The pitch of the bass for a chord index that is not negative. *)
Lemma bassPitch_defined (state : State) (bar chordIdx : Z) (offsets : list Z) :
  0 ≤ rootKey state ≤ 11 →
  scales !! scaleName state = Some offsets →
  js_index (barChords state) bar = Some chordIdx → 0 ≤ chordIdx →
  ∃ interval,
    offsets !! (Z.to_nat chordIdx mod length offsets)%nat = Some interval
    ∧ 0 ≤ interval ≤ 11
    ∧ bassPitch state bar = Some (Some (rootKey state + interval + 36))
    ∧ rootKey state + interval + 36 ∈ getScaleNotes (rootKey state) (scaleName state).
Proof.
  intros Hroot Hscale Hchord Hidx.
  destruct (scale_offsets_in_octave _ offsets Hscale) as [Hne Hall].
  assert (0 < length offsets)%nat as Hlen by (destruct offsets; [contradiction | simpl; lia]).
  destruct (lookup_lt_is_Some_2 offsets (Z.to_nat chordIdx mod length offsets)%nat)
    as [interval Hinterval]; [apply Nat.mod_upper_bound; lia|].
  rewrite Forall_forall in Hall.
  pose proof (Hall interval (list_elem_of_lookup_2 _ _ _ Hinterval)) as Hrange.
  exists interval. split; [exact Hinterval|]. split; [exact Hrange|]. split.
  - unfold bassPitch. rewrite Hscale, Hchord. cbn [mbind option_bind].
    assert (js_index offsets (chordIdx %% Z.of_nat (length offsets)) = Some interval) as ->.
    { unfold js_rem. rewrite Z.rem_mod_nonneg by lia.
      unfold js_index.
      rewrite bool_decide_eq_true_2 by (apply Z.mod_pos_bound; lia).
      replace (Z.to_nat (chordIdx `mod` Z.of_nat (length offsets)))
        with (Z.to_nat chordIdx mod length offsets)%nat; [exact Hinterval|].
      rewrite <- (Z2Nat.id chordIdx) at 2 by lia.
      rewrite <- Nat2Z.inj_mod, Nat2Z.id. reflexivity. }
    reflexivity.
  - apply getScaleNotes_below_127; [exact Hroot | lia|].
    rewrite Hscale. simpl.
    replace (rootKey state + interval + 36 - rootKey state) with (interval + 3 * 12) by lia.
    rewrite Z.mod_add by lia. rewrite Z.mod_small by lia.
    eapply list_elem_of_lookup_2, Hinterval.
Qed.

(** X27.  The pitch of the bass against the chord, for a root in 0..11 and
    a bar whose chord index addresses an entry of the chord table of the
    scale.  The bass plays the scale offset at the chord index, two octaves
    below middle C: a scale note of 36..58.  In every scale but Blues that is
    the root of the chord, as [getChordRootInScale] gives it.  In Blues the
    chord at index 1 (IV7) has its root five semitones above the scale root
    and the bass plays the note three semitones above it. *)
Theorem bassPitch_chord_root (state : State) (bar chordIdx : Z)
    (table : list ChordDef) (chordDef : ChordDef) :
  0 ≤ rootKey state ≤ 11 →
  js_index (barChords state) bar = Some chordIdx →
  chordDegrees !! scaleName state = Some table →
  js_index table chordIdx = Some chordDef →
  ∃ p,
    bassPitch state bar = Some (Some p)
    ∧ 36 ≤ p ≤ 58
    ∧ p ∈ getScaleNotes (rootKey state) (scaleName state)
    ∧ (scaleName state ≠ "Blues" →
       p `mod` 12 = getChordRootInScale (rootKey state) (scaleName state) chordIdx)
    ∧ (scaleName state = "Blues" → chordIdx = 1 →
       p = rootKey state + 3 + 36
       ∧ getChordRootInScale (rootKey state) (scaleName state) chordIdx
         = (rootKey state + 5) `mod` 12).
Proof.
  intros Hroot Hchord Htable Hdef.
  assert (0 ≤ chordIdx) as Hidx.
  { unfold js_index in Hdef. case_bool_decide; [assumption | discriminate Hdef]. }
  assert (is_Some (scales !! scaleName state)) as [offsets Hscale].
  { revert Htable. generalize (scaleName state). intros name Htable.
    assert (map_Forall (λ (name : string) (_ : list ChordDef), is_Some (scales !! name))
                       chordDegrees) as Hall by compute_done.
    exact (Hall name table Htable). }
  destruct (bassPitch_defined state bar chordIdx offsets Hroot Hscale Hchord Hidx)
    as (interval & Hinterval & Hrange & Hpitch & Hin).
  exists (rootKey state + interval + 36). split; [exact Hpitch|]. split; [lia|].
  split; [exact Hin|]. split.
  - intros Hblues.
    destruct (bass_follows_chord_table _ table Htable) as [Hb | Hfollow];
      [contradiction|].
    assert (table !! Z.to_nat chordIdx = Some chordDef) as Hlook.
    { unfold js_index in Hdef. rewrite bool_decide_eq_true_2 in Hdef by exact Hidx.
      exact Hdef. }
    assert (intervals chordDef !! 0%nat = Some interval) as Hfirst.
    { pose proof (f_equal (λ l, l !! Z.to_nat chordIdx) Hfollow) as Hat. cbv beta in Hat.
      rewrite list_lookup_imap, list_lookup_fmap, Hlook, Hscale in Hat.
      cbn [fmap option_fmap option_map mbind option_bind] in Hat.
      rewrite Hinterval in Hat. injection Hat as Hat. symmetry. exact Hat. }
    unfold getChordRootInScale. rewrite Htable, Hdef, Hfirst. simpl.
    unfold js_rem. rewrite Z.rem_mod_nonneg by lia.
    replace (rootKey state + interval + 36) with (rootKey state + interval + 3 * 12) by lia.
    apply Z.mod_add. lia.
  - intros Hblues ->. rewrite Hblues in Hscale, Htable.
    assert (scales !! "Blues" = Some scale_Blues) as Hs by (vm_compute; reflexivity).
    assert (chordDegrees !! "Blues" = Some chords_Blues) as Ht by (vm_compute; reflexivity).
    assert (offsets = scale_Blues) as -> by congruence.
    assert (table = chords_Blues) as -> by congruence.
    vm_compute in Hinterval. injection Hinterval as <-.
    split; [reflexivity|].
    unfold getChordRootInScale. rewrite Hblues.
    rewrite Ht.
    change (js_index chords_Blues 1) with (chords_Blues !! 1%nat). simpl.
    unfold js_rem. apply Z.rem_mod_nonneg; lia.
Qed.

Lemma bassPitch_chord_root_witness :
  ∃ p,
    bassPitch bluesSong 1 = Some (Some p)
    ∧ 36 ≤ p ≤ 58
    ∧ p ∈ getScaleNotes (rootKey bluesSong) (scaleName bluesSong)
    ∧ (scaleName bluesSong ≠ "Blues" →
       p `mod` 12 = getChordRootInScale (rootKey bluesSong) (scaleName bluesSong) 1)
    ∧ (scaleName bluesSong = "Blues" → 1 = 1 →
       p = rootKey bluesSong + 3 + 36
       ∧ getChordRootInScale (rootKey bluesSong) (scaleName bluesSong) 1
         = (rootKey bluesSong + 5) `mod` 12).
Proof.
  apply (bassPitch_chord_root bluesSong 1 1 chords_Blues
           {| name := "IV7"; type := "Dom7"; intervals := [5; 9; 0];
              func := "SUBDOMINANT" |}).
  - vm_compute. split; discriminate.
  - reflexivity.
  - vm_compute. reflexivity.
  - reflexivity.
Defined.

Lemma elem_of_addBassNote (notes : list BassNote) (n note : BassNote) :
  note ∈ addBassNote notes n → note ∈ notes ∨ note = n.
Proof.
  unfold addBassNote. rewrite elem_of_app, list_elem_of_filter, list_elem_of_singleton.
  tauto.
Qed.

Lemma foldl_addBassNote_elem (mk : Z → BassNote) (steps : list Z)
    (notes : list BassNote) (note : BassNote) :
  note ∈ foldl (λ notes i, addBassNote notes (mk i)) notes steps →
  note ∈ notes ∨ ∃ i, i ∈ steps ∧ note = mk i.
Proof.
  revert notes. induction steps as [|i steps IH]; intros notes Hin; [left; exact Hin|].
  cbn [foldl] in Hin. apply IH in Hin as [Hin | (j & Hj & ->)].
  - apply elem_of_addBassNote in Hin as [Hin | ->]; [left; exact Hin|].
    right. exists i. split; [left | reflexivity].
  - right. exists j. split; [right; exact Hj | reflexivity].
Qed.

Lemma bassBars_notes (state : State) (offsets : list Z) :
  0 ≤ rootKey state ≤ 11 →
  scales !! scaleName state = Some offsets →
  ∀ (bars : list Z) (notes : list BassNote),
    Forall (λ bar, 0 ≤ bar < totalBars state
                   ∧ ∃ chordIdx, js_index (barChords state) bar = Some chordIdx
                                 ∧ 0 ≤ chordIdx) bars →
    Forall (λ note, ∃ bar p, 0 ≤ bar < totalBars state ∧ bassNoteOf state note bar p)
           notes →
    ∃ result,
      bassBars state bars notes = Some result
      ∧ Forall (λ note, ∃ bar p, 0 ≤ bar < totalBars state ∧ bassNoteOf state note bar p)
               result.
Proof.
  intros Hroot Hscale bars.
  induction bars as [|bar bars IH]; intros notes Hbars Hnotes.
  - exists notes. split; [reflexivity | exact Hnotes].
  - apply Forall_cons in Hbars as [(Hbar & chordIdx & Hchord & Hidx) Hbars].
    destruct (bassPitch_defined state bar chordIdx offsets Hroot Hscale Hchord Hidx)
      as (interval & _ & Hrange & Hpitch & Hin).
    cbn [bassBars]. rewrite Hpitch. cbn [mbind option_bind].
    set (p := rootKey state + interval + 36) in *.
    destruct (bool_decide (js_index (barStructure state) bar = Some "INTRO")
              || bool_decide (js_index (barStructure state) bar = Some "OUTRO"))
      eqn:Hwhole.
    { apply IH; [exact Hbars|].
      rewrite Forall_forall. intros note Hnote.
      apply elem_of_addBassNote in Hnote as [Hnote | ->].
      - rewrite Forall_forall in Hnotes. exact (Hnotes note Hnote).
      - exists bar, p. split; [exact Hbar|].
        split; [reflexivity|]. split; [exact Hpitch|]. split; [lia|].
        split; [exact Hin|]. left. cbn [bass_time bass_duration].
        apply orb_true_iff in Hwhole as [H | H]; apply bool_decide_eq_true in H.
        + split; [left; exact H | split; [lia | reflexivity]].
        + split; [right; exact H | split; [lia | reflexivity]]. }
    apply orb_false_iff in Hwhole as [Hintro Houtro].
    apply bool_decide_eq_false in Hintro, Houtro.
    destruct (bool_decide (js_index (barStructure state) bar = Some "CHORUS")
              || bool_decide (js_index (barStructure state) bar = Some "DROP"))
      eqn:Hpump.
    { apply IH; [exact Hbars|].
      rewrite Forall_forall. intros note Hnote.
      apply (foldl_addBassNote_elem
               (λ i, {| bass_midi := Some p; bass_time := bar * stepsPerBar state + i;
                        bass_duration := 2; bass_velocity := 0.9%Q |}))
        in Hnote as [Hnote | (i & Hi & ->)].
      - rewrite Forall_forall in Hnotes. exact (Hnotes note Hnote).
      - exists bar, p. split; [exact Hbar|].
        split; [reflexivity|]. split; [exact Hpitch|]. split; [lia|].
        split; [exact Hin|]. right. left. cbn [bass_time bass_duration].
        split; [exact Hintro|]. split; [exact Houtro|].
        split.
        + apply orb_true_iff in Hpump as [H | H]; apply bool_decide_eq_true in H;
            [left | right]; exact H.
        + split; [|reflexivity].
          replace (bar * stepsPerBar state + i - bar * stepsPerBar state) with i by lia.
          exact Hi. }
    apply orb_false_iff in Hpump as [Hchorus Hdrop].
    apply bool_decide_eq_false in Hchorus, Hdrop.
    apply IH; [exact Hbars|].
    rewrite Forall_forall. intros note Hnote.
    assert (note ∈ notes
            ∨ (bass_midi note = Some p ∧ bass_duration note = 4
               ∧ (bass_time note = bar * stepsPerBar state
                  ∨ bass_time note = bar * stepsPerBar state + 8))) as [Hold | Hnew].
    { apply elem_of_addBassNote in Hnote as [Hnote | ->].
      - apply elem_of_addBassNote in Hnote as [Hnote | ->]; [left; exact Hnote|].
        right. cbn. tauto.
      - right. cbn. tauto. }
    + rewrite Forall_forall in Hnotes. exact (Hnotes note Hold).
    + destruct Hnew as (Hmidi & Hdur & Htime).
      exists bar, p. split; [exact Hbar|].
      split; [exact Hmidi|]. split; [exact Hpitch|]. split; [lia|].
      split; [exact Hin|]. right. right.
      split; [exact Hintro|]. split; [exact Houtro|].
      split; [exact Hchorus|]. split; [exact Hdrop|].
      split; [lia | exact Hdur].
Qed.

(** X28.  The bass track of a song whose root is in 0..11, whose scale is
    one of the scale table and whose bars all have a chord index that is not
    negative: the generator returns, and every note it wrote is, for one bar
    of the song, the scale offset at the bar's chord index two octaves below
    middle C (a scale note of 36..58), in the rhythm of the bar's section:
    one note of 16 steps on the first step of an INTRO or OUTRO bar, notes of
    2 steps on the even steps 0..14 of a CHORUS or DROP bar, notes of 4 steps
    on steps 0 and 8 of any other bar.  So every note ends at most 16 steps
    after the start of its bar. *)
Theorem generateBassForWholeSong_notes (state : State) :
  0 ≤ rootKey state ≤ 11 →
  is_Some (scales !! scaleName state) →
  (∀ bar, 0 ≤ bar < totalBars state →
          ∃ chordIdx, js_index (barChords state) bar = Some chordIdx ∧ 0 ≤ chordIdx) →
  ∃ notes,
    generateBassForWholeSong state = Some notes
    ∧ ∀ note, note ∈ notes →
        ∃ bar p,
          0 ≤ bar < totalBars state
          ∧ bassNoteOf state note bar p
          ∧ bar * stepsPerBar state ≤ bass_time note
          ∧ bass_time note + bass_duration note ≤ bar * stepsPerBar state + 16.
Proof.
  intros Hroot [offsets Hscale] Hchords.
  destruct (bassBars_notes state offsets Hroot Hscale (seqZ 0 (totalBars state)) [])
    as (notes & Hresult & Hnotes).
  - rewrite Forall_forall. intros bar Hbar. apply elem_of_seqZ in Hbar.
    split; [lia|]. apply Hchords. lia.
  - constructor.
  - exists notes. split; [exact Hresult|].
    intros note Hnote. rewrite Forall_forall in Hnotes.
    destruct (Hnotes note Hnote) as (bar & p & Hbar & Hof).
    exists bar, p. split; [exact Hbar|]. split; [exact Hof|].
    destruct Hof as (_ & _ & _ & _ & Hrhythm). cbv zeta in Hrhythm.
    destruct Hrhythm as [(_ & Hoff & Hdur) | [(_ & _ & _ & Hoff & Hdur)
                                             | (_ & _ & _ & _ & Hoff & Hdur)]].
    + lia.
    + rewrite Hdur.
      repeat (apply elem_of_cons in Hoff as [Hoff | Hoff]; [lia|]).
      apply elem_of_nil in Hoff. contradiction.
    + lia.
Qed.

Lemma generateBassForWholeSong_notes_witness :
  ∃ notes,
    generateBassForWholeSong bluesSong = Some notes
    ∧ ∀ note, note ∈ notes →
        ∃ bar p,
          0 ≤ bar < totalBars bluesSong
          ∧ bassNoteOf bluesSong note bar p
          ∧ bar * stepsPerBar bluesSong ≤ bass_time note
          ∧ bass_time note + bass_duration note ≤ bar * stepsPerBar bluesSong + 16.
Proof.
  apply (generateBassForWholeSong_notes bluesSong).
  - vm_compute. split; discriminate.
  - eexists. vm_compute. reflexivity.
  - intros bar Hbar. change (totalBars bluesSong) with 4 in Hbar.
    assert (bar = 0 ∨ bar = 1 ∨ bar = 2 ∨ bar = 3) as [-> | [-> | [-> | ->]]] by lia;
      eexists; (split; [reflexivity | lia]).
Defined.

(** ** The variation of a motif *)

Lemma Qfloor_half_bounds (d : Q) :
  (2 * inject_Z (Qfloor (d / 2)) <= d)%Q ∧ (d - 2 < 2 * inject_Z (Qfloor (d / 2)))%Q.
Proof.
  pose proof (Qfloor_le (d / 2)) as Hle. pose proof (Qlt_floor (d / 2)) as Hlt.
  rewrite inject_Z_plus in Hlt. change (inject_Z 1) with 1%Q in Hlt.
  change (d / 2)%Q with (d * (1 # 2))%Q in *.
  generalize dependent (inject_Z (Qfloor (d * (1 # 2)))). intros f Hle Hlt.
  split; lra.
Qed.

Lemma Qfloor_half_even (z : Z) : Qfloor (inject_Z (2 * z) / 2) = z.
Proof.
  assert (inject_Z (2 * z) / 2 == inject_Z z)%Q as ->
    by (rewrite inject_Z_mult; change (inject_Z 2) with 2%Q; field).
  apply Qfloor_Z.
Qed.

(** X29.  [variateMotif] splits the first note of at least four steps into
    two notes of half its length, rounded down, and changes nothing else: a
    motif without such a note comes back as it is, and the motif grows by at
    most one event.  The variation is never longer than the motif and is
    shorter by less than two steps; it has the length of the motif when the
    durations are even whole numbers. *)
Theorem variateMotif_duration (motif : list MotifEvent) :
  let total (m : list MotifEvent) := foldr Qplus 0%Q (map dur m) in
  (length motif ≤ length (variateMotif motif) ≤ S (length motif))%nat
  ∧ (total (variateMotif motif) <= total motif)%Q
  ∧ (total motif - 2 < total (variateMotif motif))%Q
  ∧ ((∀ e, e ∈ motif → ∃ z, dur e = inject_Z (2 * z)) →
     (total (variateMotif motif) == total motif)%Q)
  ∧ ((∀ e, e ∈ motif → ¬ (4 <= dur e)%Q ∨ ev_type e ≠ "NOTE") →
     variateMotif motif = motif)
  ∧ (∀ e, e ∈ variateMotif motif →
          e ∈ motif
          ∨ ∃ long, long ∈ motif ∧ (4 <= dur long)%Q ∧ ev_type long = "NOTE"
                    ∧ ev_type e = "NOTE"
                    ∧ dur e = inject_Z (Math_floor (dur long / 2))).
Proof.
  cbv zeta. induction motif as [|e rest IH].
  - cbn. repeat split; try lia; try lra; try reflexivity.
    intros e He. apply elem_of_nil in He. contradiction.
  - cbn [variateMotif].
    destruct (Qle_bool 4 (dur e) && bool_decide (ev_type e = "NOTE")) eqn:Hsplit.
    + apply andb_true_iff in Hsplit as [Hlong Hnote].
      apply Qle_bool_iff in Hlong. apply bool_decide_eq_true in Hnote.
      destruct (Qfloor_half_bounds (dur e)) as [Hle Hlt].
      cbn [map foldr length dur]. unfold Math_floor.
      split; [lia|]. split; [lra|]. split; [lra|]. split; [|split].
      * intros Heven. destruct (Heven e) as [z Hz]; [left|].
        rewrite Hz, Qfloor_half_even. rewrite inject_Z_mult.
        change (inject_Z 2) with 2%Q. ring.
      * intros Hnone. destruct (Hnone e) as [H | H]; [left | |]; contradiction.
      * intros x Hx. apply elem_of_cons in Hx as [-> | Hx].
        { right. exists e. split; [left|]. split; [exact Hlong|].
          split; [exact Hnote|]. split; [exact Hnote | reflexivity]. }
        apply elem_of_cons in Hx as [-> | Hx].
        { right. exists e. split; [left|]. split; [exact Hlong|].
          split; [exact Hnote|]. split; reflexivity. }
        left. right. exact Hx.
    + destruct IH as (Hlen & Hle & Hlt & Heven & Hnone & Helem).
      cbn [map foldr length].
      split; [lia|]. split; [lra|]. split; [lra|]. split; [|split].
      * intros Hall. rewrite Heven; [reflexivity|].
        intros x Hx. apply Hall. right. exact Hx.
      * intros Hall. rewrite Hnone; [reflexivity|].
        intros x Hx. apply Hall. right. exact Hx.
      * intros x Hx. apply elem_of_cons in Hx as [-> | Hx]; [left; left|].
        destruct (Helem x Hx) as [Hin | (long & Hin & Hrest)].
        { left. right. exact Hin. }
        right. exists long. split; [right; exact Hin | exact Hrest].
Qed.

(** ** The arpeggio track *)

Lemma arp_styles_shape :
  map_Forall (λ (_ : string) (genreStyles : gmap string ArpStyle),
    map_Forall (λ (_ : string) (arpStyle : ArpStyle),
      1 ≤ rate arpStyle
      ∧ Forall (λ noteIndex, 0 ≤ default 0 noteIndex) (pattern arpStyle)
      ∧ Qle_bool (double 0.1) (js_mul (inject_Z (rate arpStyle)) (gate arpStyle)) = true
      ∧ Qle_bool 0.4 (js_mul (inject_Z (rate arpStyle)) (gate arpStyle)) = true
      ∧ Qle_bool (js_mul (inject_Z (rate arpStyle)) (gate arpStyle)) 4.8 = true)
      genreStyles)
    arpStyles.
Proof. compute_done. Qed.

Lemma getArpPattern_shape (genre section : string) (arpStyle : ArpStyle) :
  inheritedKey genre = false → inheritedKey section = false →
  getArpPattern genre section = ArpPattern arpStyle →
  section ≠ "INTRO" ∧ section ≠ "OUTRO"
  ∧ 1 ≤ rate arpStyle
  ∧ Forall (λ noteIndex, 0 ≤ default 0 noteIndex) (pattern arpStyle)
  ∧ Qle_bool (double 0.1) (js_mul (inject_Z (rate arpStyle)) (gate arpStyle)) = true
  ∧ (0.4 <= js_mul (inject_Z (rate arpStyle)) (gate arpStyle))%Q
  ∧ (js_mul (inject_Z (rate arpStyle)) (gate arpStyle) <= 4.8)%Q.
Proof.
  intros Hgenre Hsection Hstyle.
  destruct (getArpPattern_null_iff genre section Hgenre Hsection)
    as [_ (verse & Hverse & Heq)].
  rewrite Heq in Hstyle. clear Heq.
  assert (∃ g, arpStyles !! g = Some (default arp_POP (arpStyles !! genre)))
    as [g Hg].
  { destruct (arpStyles !! genre) as [gs|] eqn:Hgs.
    - exists genre. exact Hgs.
    - exists "POP". reflexivity. }
  pose proof (arp_styles_shape g _ Hg) as Hshape. clear Hg.
  set (genreStyles := default arp_POP (arpStyles !! genre)) in *. clearbody genreStyles.
  case_bool_decide as Hsilent; [discriminate|].
  injection Hstyle as Hstyle.
  assert (∃ key, genreStyles !! key = Some arpStyle) as [key Hkey].
  { revert Hstyle.
    generalize (if bool_decide (section = "PRE_CHORUS") then "VERSE"
                else if bool_decide (section = "SOLO" ∨ section = "DROP")
                     then "CHORUS" else section). intros target Hstyle.
    destruct (genreStyles !! target) as [style|] eqn:Ht; simpl in Hstyle.
    - exists target. congruence.
    - rewrite Hverse in Hstyle. simpl in Hstyle. exists "VERSE". congruence. }
  destruct (Hshape key arpStyle Hkey) as (Hrate & Hpattern & Hmax & Hlow & Hhigh).
  apply Qle_bool_iff in Hlow, Hhigh.
  split; [tauto|]. split; [tauto|]. tauto.
Qed.

(** The velocity of an arpeggio note: the doubles of [0.7 + (r * 0.1 - 0.05)]
    for [r] in [[0, 1)] run from that of [0.7 - 0.05], 0.6499999999999999,
    up to 0.75. *)
Lemma arp_velocity_bounds (r : Q) :
  (0 <= r)%Q → (r < 1)%Q →
  (js_sub 0.7 0.05 <= js_add 0.7 (js_sub (js_mul r 0.1) 0.05))%Q
  ∧ (js_add 0.7 (js_sub (js_mul r 0.1) 0.05) <= 0.75)%Q.
Proof.
  intros H0 H1. unfold js_add, js_sub, js_mul.
  assert (double 0 = 0%Q) as D0 by reflexivity.
  assert (double 1 = 1%Q) as D1 by (vm_compute; reflexivity).
  assert (0 < double 0.1)%Q as Hc by (vm_compute; reflexivity).
  assert (0 <= double r)%Q as Hr0 by (apply double_nonneg, H0).
  assert (double r <= 1)%Q as Hr1 by (rewrite <- D1; apply double_mono; lra).
  assert (0 <= double r * double 0.1)%Q as Ht0 by (apply Qmult_le_0_compat; lra).
  assert (double r * double 0.1 <= 1 * double 0.1)%Q as Ht1
    by (apply Qmult_le_compat_r; lra).
  rewrite Qmult_1_l in Ht1.
  apply double_mono in Ht0, Ht1. rewrite D0 in Ht0. rewrite double_idempotent in Ht1.
  set (t := double (double r * double 0.1)) in *.
  pose proof (double_mono _ _ Ht0) as Hdt0. rewrite D0 in Hdt0.
  pose proof (double_mono _ _ Ht1) as Hdt1. rewrite double_idempotent in Hdt1.
  assert (- double 0.05 <= double t - double 0.05)%Q as Hs0 by lra.
  assert (double t - double 0.05 <= double 0.1 - double 0.05)%Q as Hs1 by lra.
  apply double_mono in Hs0, Hs1.
  set (s := double (double t - double 0.05)) in *.
  pose proof (double_mono _ _ Hs0) as Hds0. rewrite double_idempotent in Hds0.
  pose proof (double_mono _ _ Hs1) as Hds1. rewrite double_idempotent in Hds1.
  assert (double 0.7 + double (- double 0.05) <= double 0.7 + double s)%Q as Hv0 by lra.
  assert (double 0.7 + double s <= double 0.7 + double (double 0.1 - double 0.05))%Q
    as Hv1 by lra.
  apply double_mono in Hv0, Hv1.
  assert (double (double 0.7 - double 0.05)
          = double (double 0.7 + double (- double 0.05))) as E0
    by (vm_compute; reflexivity).
  assert (double (double 0.7 + double (double 0.1 - double 0.05)) <= 0.75)%Q as E1
    by (vm_compute; discriminate).
  rewrite E0. split; [exact Hv0 | lra].
Qed.

Lemma elem_of_addArpNote (notes : list ArpNote) (n note : ArpNote) :
  note ∈ addArpNote notes n → note ∈ notes ∨ note = n.
Proof.
  unfold addArpNote. rewrite elem_of_app, list_elem_of_filter, list_elem_of_singleton.
  tauto.
Qed.

Lemma addArpNote_keys (notes : list ArpNote) (n : ArpNote) :
  NoDup (map (λ m, (arp_midi m, arp_time m)) notes) →
  NoDup (map (λ m, (arp_midi m, arp_time m)) (addArpNote notes n)).
Proof.
  intros Hnodup. unfold addArpNote. rewrite map_app. apply NoDup_app. split; [|split].
  - induction notes as [|x notes IH]; [constructor|].
    simpl in Hnodup. apply NoDup_cons in Hnodup as [Hx Hnodup].
    rewrite filter_cons. destruct (decide _); [|apply IH, Hnodup].
    simpl. apply NoDup_cons. split; [|apply IH, Hnodup].
    intros Hin. apply Hx. apply list_elem_of_fmap in Hin as (y & Hy & Hin).
    apply list_elem_of_filter in Hin as [_ Hin].
    apply list_elem_of_fmap. exists y. split; assumption.
  - intros key Hkey Hn. simpl in Hn. apply list_elem_of_singleton in Hn as ->.
    apply list_elem_of_fmap in Hkey as (y & Hy & Hin).
    apply list_elem_of_filter in Hin as [Hdiff _]. injection Hy as Hmidi Htime.
    destruct Hdiff as [Hdiff | Hdiff]; apply Hdiff; congruence.
  - simpl. apply NoDup_singleton.
Qed.

(** The inner loop returns when the rate is positive and the fuel covers
    the steps that are left; every note it adds plays a pitch of
    [extendedNotes] on a multiple of the rate inside the bar. *)
Lemma arpSteps_notes (random : nat → Q) (extendedNotes : list Z) (arpStyle : ArpStyle)
    (bar stepsInBar : Z) (P : ArpNote → Prop) :
  (∀ n, (0 <= random n)%Q ∧ (random n < 1)%Q) →
  1 ≤ rate arpStyle →
  Forall (λ noteIndex, 0 ≤ default 0 noteIndex) (pattern arpStyle) →
  Qle_bool (double 0.1) (js_mul (inject_Z (rate arpStyle)) (gate arpStyle)) = true →
  (∀ k p r, 0 ≤ k → k * rate arpStyle < stepsInBar → p ∈ extendedNotes →
            (0 <= r)%Q → (r < 1)%Q →
            P {| arp_midi := Some p; arp_time := bar * stepsInBar + k * rate arpStyle;
                 arp_duration := js_mul (inject_Z (rate arpStyle)) (gate arpStyle);
                 arp_velocity := js_add 0.7 (js_sub (js_mul r 0.1) 0.05) |}) →
  ∀ (fuel : nat) (k pIndex : Z) (notes : list ArpNote) (n : nat),
    0 ≤ k → (Z.to_nat (stepsInBar - k * rate arpStyle) ≤ fuel)%nat →
    Forall P notes →
    NoDup (map (λ m, (arp_midi m, arp_time m)) notes) →
    ∃ result n',
      arpSteps random extendedNotes arpStyle bar stepsInBar fuel
               (k * rate arpStyle) pIndex notes n = Returns result n'
      ∧ Forall P result
      ∧ NoDup (map (λ m, (arp_midi m, arp_time m)) result).
Proof.
  intros Hrandom Hrate Hpattern Hmax Hnew.
  induction fuel as [|fuel IH]; intros k pIndex notes n Hk Hfuel Hnotes Hnodup.
  - cbn [arpSteps].
    destruct (k * rate arpStyle <? stepsInBar) eqn:Hs;
      [apply Z.ltb_lt in Hs; lia|].
    exists notes, n. split; [reflexivity | split; assumption].
  - cbn [arpSteps].
    destruct (k * rate arpStyle <? stepsInBar) eqn:Hs;
      [|exists notes, n; split; [reflexivity | split; assumption]].
    apply Z.ltb_lt in Hs. cbv zeta. unfold bind at 1.
    assert (∃ notes' n1,
      match mjoin (js_index (pattern arpStyle)
                            (pIndex %% Z.of_nat (length (pattern arpStyle)))) with
      | Some noteIndex =>
          if noteIndex <? Z.of_nat (length extendedNotes) then
            r <~ Math_random random ;;
            ret (addArpNote notes
                   {| arp_midi := js_index extendedNotes noteIndex;
                      arp_time := bar * stepsInBar + k * rate arpStyle;
                      arp_duration :=
                        if Qle_bool (double 0.1)
                                    (js_mul (inject_Z (rate arpStyle)) (gate arpStyle))
                        then js_mul (inject_Z (rate arpStyle)) (gate arpStyle)
                        else double 0.1;
                      arp_velocity := js_add 0.7 (js_sub (js_mul r 0.1) 0.05) |})
          else ret notes
      | None => ret notes
      end n = Returns notes' n1
      ∧ Forall P notes'
      ∧ NoDup (map (λ m, (arp_midi m, arp_time m)) notes')) as (notes' & n1 & -> & HP & Hnd).
    { destruct (mjoin (js_index (pattern arpStyle)
                                (pIndex %% Z.of_nat (length (pattern arpStyle)))))
        as [noteIndex|] eqn:Hidx;
        [|exists notes, n; split; [reflexivity | split; assumption]].
      destruct (noteIndex <? Z.of_nat (length extendedNotes)) eqn:Hlt;
        [|exists notes, n; split; [reflexivity | split; assumption]].
      apply Z.ltb_lt in Hlt.
      assert (0 ≤ noteIndex) as Hnonneg.
      { destruct (js_index (pattern arpStyle) _) as [entry|] eqn:Hentry; [|discriminate Hidx].
        simpl in Hidx. subst entry.
        unfold js_index in Hentry. case_bool_decide; [|discriminate Hentry].
        rewrite Forall_forall in Hpattern.
        exact (Hpattern _ (list_elem_of_lookup_2 _ _ _ Hentry)). }
      destruct (lookup_lt_is_Some_2 extendedNotes (Z.to_nat noteIndex)) as [p Hp]; [lia|].
      assert (js_index extendedNotes noteIndex = Some p) as ->.
      { unfold js_index. rewrite bool_decide_eq_true_2 by exact Hnonneg. exact Hp. }
      rewrite Hmax. unfold bind, Math_random, ret.
      eexists _, _. split; [reflexivity|]. split.
      - rewrite Forall_forall. intros note Hnote.
        apply elem_of_addArpNote in Hnote as [Hnote | ->].
        + rewrite Forall_forall in Hnotes. exact (Hnotes note Hnote).
        + apply Hnew; [exact Hk | exact Hs | exact (list_elem_of_lookup_2 _ _ _ Hp)
                       | apply Hrandom | apply Hrandom].
      - apply addArpNote_keys, Hnodup. }
    replace (k * rate arpStyle + rate arpStyle) with ((k + 1) * rate arpStyle) by lia.
    apply IH; [lia | nia | exact HP | exact Hnd].
Qed.

Lemma arpBars_notes (random : nat → Q) (state : State) (genre : string)
    (table : list ChordDef) (P : ArpNote → Prop) :
  (∀ n, (0 <= random n)%Q ∧ (random n < 1)%Q) →
  inheritedKey genre = false →
  Forall (λ sec, inheritedKey sec = false) (barStructure state) →
  chordDegrees !! scaleName state = Some table →
  (∀ note bar chordIdx chordDef arpStyle,
     0 ≤ bar < totalBars state →
     js_index (barChords state) bar = Some chordIdx →
     js_index table chordIdx = Some chordDef →
     arpNoteOf state genre note bar chordDef arpStyle → P note) →
  ∀ (bars : list Z) (notes : list ArpNote) (n : nat),
    Forall (λ bar, 0 ≤ bar < totalBars state) bars →
    Forall P notes →
    NoDup (map (λ m, (arp_midi m, arp_time m)) notes) →
    ∃ result n',
      arpBars random state genre bars notes n = Returns result n'
      ∧ Forall P result
      ∧ NoDup (map (λ m, (arp_midi m, arp_time m)) result).
Proof.
  intros Hrandom Hgenre Hplain Htable Hgood.
  induction bars as [|bar bars IH]; intros notes n Hbars Hnotes Hnodup.
  - exists notes, n. split; [reflexivity | split; assumption].
  - apply Forall_cons in Hbars as [Hbar Hbars].
    cbn [arpBars]. cbv zeta.
    destruct (js_index (barChords state) bar) as [chordIdx|] eqn:Hchord;
      [|apply IH; assumption].
    destruct (chordIdx =? -1); [apply IH; assumption|].
    rewrite Htable.
    destruct (js_index table chordIdx) as [chordDef|] eqn:Hdef; [|apply IH; assumption].
    assert (inheritedKey (default "undefined" (js_index (barStructure state) bar)) = false)
      as Hsection.
    { destruct (js_index (barStructure state) bar) as [sec|] eqn:Hsec; [|reflexivity].
      rewrite Forall_forall in Hplain. apply Hplain. eapply js_index_elem_of, Hsec. }
    destruct (getArpPattern_null_iff genre _ Hgenre Hsection) as [_ (verse & _ & Hcases)].
    destruct (getArpPattern genre (default "undefined" (js_index (barStructure state) bar)))
      as [|arpStyle| | |] eqn:Hstyle;
      [apply IH; assumption | | apply IH; assumption
       | exfalso; case_bool_decide; discriminate Hcases
       | exfalso; case_bool_decide; discriminate Hcases].
    clear Hcases verse.
    destruct (getArpPattern_shape _ _ _ Hgenre Hsection Hstyle)
      as (Hintro & Houtro & Hrate & Hpattern & Hmax & Hlow & Hhigh).
    unfold bind at 1.
    destruct (arpSteps_notes random
                (merge_sort Z.le
                   (map (λ i, rootKey state + 60 + i) (intervals chordDef)
                    ++ map (λ m, m + 12)
                         (map (λ i, rootKey state + 60 + i) (intervals chordDef))))
                arpStyle bar (stepsPerBar state) P Hrandom Hrate Hpattern Hmax)
      with (fuel := Z.to_nat (stepsPerBar state)) (k := 0) (pIndex := 0)
           (notes := notes) (n := n)
      as (notes' & n1 & Hsteps & HP & Hnd);
      [| lia | lia | exact Hnotes | exact Hnodup |].
    + intros k p r Hk Hin Hp Hr0 Hr1.
      apply (Hgood _ bar chordIdx chordDef arpStyle Hbar Hchord Hdef).
      assert (Forall (λ interval, 0 ≤ interval ≤ 11) (intervals chordDef)) as Hoctave.
      { pose proof (chord_intervals_in_octave _ table Htable) as Hall.
        rewrite Forall_forall in Hall. apply Hall.
        unfold js_index in Hdef. case_bool_decide; [|discriminate Hdef].
        exact (list_elem_of_lookup_2 _ _ _ Hdef). }
      rewrite Forall_forall in Hoctave.
      unfold arpNoteOf. cbv zeta. cbn [arp_midi arp_time arp_duration arp_velocity].
      split.
      { intros Hsec. apply Hintro. rewrite Hsec. reflexivity. }
      split.
      { intros Hsec. apply Houtro. rewrite Hsec. reflexivity. }
      split; [exact Hstyle|]. split.
      { rewrite merge_sort_Permutation in Hp.
        apply elem_of_app in Hp as [Hp | Hp].
        - apply list_elem_of_fmap in Hp as (interval & -> & Hinterval).
          exists interval, 0. split; [exact Hinterval|].
          split; [exact (Hoctave _ Hinterval)|]. split; [lia|]. f_equal; lia.
        - apply list_elem_of_fmap in Hp as (m & -> & Hm).
          apply list_elem_of_fmap in Hm as (interval & -> & Hinterval).
          exists interval, 1. split; [exact Hinterval|].
          split; [exact (Hoctave _ Hinterval)|]. split; [lia|]. f_equal; lia. }
      split.
      { exists k. split; [exact Hk|]. split; [exact Hin | reflexivity]. }
      split; [reflexivity|]. split; [exact Hlow|]. split; [exact Hhigh|].
      exact (arp_velocity_bounds r Hr0 Hr1).
    + change (0 * rate arpStyle) with 0 in Hsteps. rewrite Hsteps.
      apply IH; assumption.
Qed.

(** X30.  The arpeggio track, for draws in [[0, 1)], a scale that has a
    chord table, and a genre and sections that are no inherited keys: the
    generator returns (the loop over the steps of a bar ends, the rate of
    every style being at least 1), and no two notes of the track share pitch
    and start.  Every note belongs to a bar of the song that is neither
    intro nor outro and whose chord index addresses a chord of the table: it
    plays the root plus 60 plus an interval of that chord, or the octave
    above, on a multiple of the style's rate inside the bar, for the double
    product of rate and gate, which lies between 0.4 and 4.8 (the floor of
    0.1 is never used), at a velocity between the double of [0.7 - 0.05],
    0.6499999999999999, and 0.75, both reached. *)
Theorem generateArpForWholeSong_notes (random : nat → Q) (state : State) (genre : string) :
  (∀ n, (0 <= random n)%Q ∧ (random n < 1)%Q) →
  is_Some (chordDegrees !! scaleName state) →
  inheritedKey genre = false →
  Forall (λ sec, inheritedKey sec = false) (barStructure state) →
  ∃ notes,
    run (generateArpForWholeSong random state genre) = Some notes
    ∧ NoDup (map (λ m, (arp_midi m, arp_time m)) notes)
    ∧ ∀ note, note ∈ notes →
        ∃ bar chordIdx table chordDef arpStyle,
          0 ≤ bar < totalBars state
          ∧ js_index (barChords state) bar = Some chordIdx
          ∧ chordDegrees !! scaleName state = Some table
          ∧ js_index table chordIdx = Some chordDef
          ∧ arpNoteOf state genre note bar chordDef arpStyle.
Proof.
  intros Hrandom [table Htable] Hgenre Hplain.
  destruct (arpBars_notes random state genre table
              (λ note, ∃ bar chordIdx table chordDef arpStyle,
                  0 ≤ bar < totalBars state
                  ∧ js_index (barChords state) bar = Some chordIdx
                  ∧ chordDegrees !! scaleName state = Some table
                  ∧ js_index table chordIdx = Some chordDef
                  ∧ arpNoteOf state genre note bar chordDef arpStyle)
              Hrandom Hgenre Hplain Htable)
    with (bars := seqZ 0 (totalBars state)) (notes := @nil ArpNote) (n := 0%nat)
    as (notes & n' & Hrun & Hnotes & Hnodup).
  - intros note bar chordIdx chordDef arpStyle Hbar Hchord Hdef Hnote.
    exists bar, chordIdx, table, chordDef, arpStyle. tauto.
  - rewrite Forall_forall. intros bar Hbar. apply elem_of_seqZ in Hbar. lia.
  - constructor.
  - constructor.
  - exists notes. split.
    + unfold run, generateArpForWholeSong. rewrite Hrun. reflexivity.
    + split; [exact Hnodup|]. rewrite Forall_forall in Hnotes. exact Hnotes.
Qed.

Lemma generateArpForWholeSong_notes_witness :
  ∃ notes,
    run (generateArpForWholeSong (λ _, 0.5%Q) bluesSong "POP") = Some notes
    ∧ NoDup (map (λ m, (arp_midi m, arp_time m)) notes)
    ∧ ∀ note, note ∈ notes →
        ∃ bar chordIdx table chordDef arpStyle,
          0 ≤ bar < totalBars bluesSong
          ∧ js_index (barChords bluesSong) bar = Some chordIdx
          ∧ chordDegrees !! scaleName bluesSong = Some table
          ∧ js_index table chordIdx = Some chordDef
          ∧ arpNoteOf bluesSong "POP" note bar chordDef arpStyle.
Proof.
  apply (generateArpForWholeSong_notes (λ _, 0.5%Q) bluesSong "POP").
  - intros n. split; lra.
  - eexists. vm_compute. reflexivity.
  - reflexivity.
  - repeat constructor.
Defined.

(** The ends of the velocity range are reached: the draw 0 gives the double
    below 0.65, the largest draw gives 0.75. *)
Lemma arp_velocity_ends :
  js_add 0.7 (js_sub (js_mul 0 0.1) 0.05) = (1463669878895411 # 2251799813685248)%Q
  ∧ (js_add 0.7 (js_sub (js_mul 0 0.1) 0.05) < double 0.65)%Q
  ∧ js_add 0.7 (js_sub (js_mul (1 - (1 # 2) ^ 53) 0.1) 0.05) = (3 # 4)%Q.
Proof. repeat split; vm_compute; reflexivity. Qed.
